(** * Verification of the per-sample kernels of the modular-like externals

    A shallow embedding of the C sources of cycle-2d~, cycle.fold~, decay~,
    noises~ and ssm2044~, and the properties of their specification.

    Conventions of the embedding.
    - A C [double] (and a [float] table entry) is a real number of [R]:
      arithmetic is exact, rounding, infinities and NaN are not modelled.
      [sin], [cos], [tan], [tanh], [exp], [sqrt] and [PI] are those of the
      Standard Library's real analysis.
    - [int], [long] and [short] are integers of [Z]; the 32-bit generator
      state of noises~ is a [Z] reduced modulo 2^32 where the C code wraps.
    - A [while] loop whose trip count depends on data takes a fuel and
      returns [None] when the fuel runs out; the theorems show that enough
      fuel always exists.
    - A struct is a record with the fields of the source (the host's object
      header apart); a function that mutates [x] returns the new record.
    - A function-local [static] is a field of a world shared by all
      instances.
    - A read in front of a buffer, which the offset of a [buffer] message
      can cause, is undefined in C: the copy loop and the message return
      [None] there. *)

From Stdlib Require Import Reals Lra Lia ZArith List Psatz.
From stdpp Require Import base option list strings gmap.

Open Scope R_scope.

(** ** C arithmetic shared by the five sources *)

Module CMath.

(** Modelled from the spec: [CLAMP] is a macro of the host SDK headers, which
    are not part of the sources; out-of-range values are clamped to the
    documented range, never rejected.  The SDK spells it
    [(a)>(lo) ? ((a)<(hi) ? (a) : (hi)) : (lo)]. *)
Definition CLAMP (a lo hi : R) : R :=
  if Rlt_dec lo a then (if Rlt_dec a hi then a else hi) else lo.

Definition CLAMPZ (a lo hi : Z) : Z :=
  if (lo <? a)%Z then (if (a <? hi)%Z then a else hi) else lo.

Definition fmax (a b : R) : R := Rmax a b.
Definition fmin (a b : R) : R := Rmin a b.
Definition fabs (a : R) : R := Rabs a.

(** A C scalar used as a condition: anything but zero is true. *)
Definition truthy (z : Z) : bool := negb (z =? 0)%Z.

(** The conversion [(int)r] truncates toward zero. *)
Definition trunc (r : R) : Z :=
  if Rle_dec 0 r then Int_part r else (- Int_part (- r))%Z.

Definition DENORMAL_THRESHOLD : R := / 10 ^ 15.

(** [denormal_fix] of decay~.c and ssm2044~.c (the two copies are identical). *)
Definition denormal_fix (value : R) : R :=
  if Rlt_dec (fabs value) DENORMAL_THRESHOLD then 0 else value.

(** C's [pow] on a base that is not negative and a positive exponent, which
    is how the sources call it while the phase and the envelope are in
    their ranges: a positive base goes through [exp] and [ln], 0 to a
    positive power is 0.  On a negative base with a fractional exponent C
    gives NaN, which is no real number: the value 0 that the definition
    has there is not the program's, and a statement about samples holds
    for the program only where it keeps the base from being negative. *)
Definition pow_c (base e : R) : R :=
  if Rlt_dec 0 base then Rpower base e else 0.

(** [table[i]] for an index inside the array; the index is a C [int].
    Reading outside the array (below 0, or past the end) is undefined in C
    and yields 0 here, on both sides. *)
Definition tbl (table : list R) (i : Z) : R :=
  if (i <? 0)%Z then 0 else nth (Z.to_nat i) table 0.

(** [while (phase >= 1.0) phase -= 1.0;] *)
Fixpoint wrap_down (fuel : nat) (phase : R) : option R :=
  if Rge_dec phase 1 then
    match fuel with
    | O => None
    | S fuel' => wrap_down fuel' (phase - 1)
    end
  else Some phase.

(** [while (phase < 0.0) phase += 1.0;] *)
Fixpoint wrap_up (fuel : nat) (phase : R) : option R :=
  if Rlt_dec phase 0 then
    match fuel with
    | O => None
    | S fuel' => wrap_up fuel' (phase + 1)
    end
  else Some phase.

(** The two loops in sequence, as every oscillator writes them. *)
Definition wrap01 (fuel : nat) (phase : R) : option R :=
  p ← wrap_down fuel phase; wrap_up fuel p.

(** The host's message atoms and their accessors. *)
Inductive t_atom : Type :=
| A_LONG (n : Z)
| A_FLOAT (f : R)
| A_SYM (s : string).

Definition atom_getfloat (a : t_atom) : R :=
  match a with A_LONG n => IZR n | A_FLOAT f => f | A_SYM _ => 0 end.

Definition atom_getlong (a : t_atom) : Z :=
  match a with A_LONG n => n | A_FLOAT f => trunc f | A_SYM _ => 0%Z end.

Definition atom_getsym (a : t_atom) : string :=
  match a with A_SYM s => s | _ => EmptyString end.

Definition atom_is_number (a : t_atom) : bool :=
  match a with A_LONG _ | A_FLOAT _ => true | A_SYM _ => false end.

End CMath.

Import CMath.

(** ** cycle-2d~.c *)

Module Cycle2d.

Definition WAVETABLE_SIZE : Z := 4096.
Definition MAX_CUSTOM_TABLES : Z := 16.

Definition CORNER_SINE : nat := 0.
Definition CORNER_TRIANGLE : nat := 1.
Definition CORNER_SAW : nat := 2.
Definition CORNER_SQUARE : nat := 3.

Record t_custom_table : Type := mk_custom_table {
  wavetable : list R;
  x_pos : R;
  y_pos : R;
  active : Z
}.

Record t_cycle2d : Type := mk_cycle2d {
  phase : R;
  sr : R;
  sr_inv : R;
  freq_float : R;
  x_float : R;
  y_float : R;
  phase_offset_float : R;
  freq_has_signal : Z;
  x_has_signal : Z;
  y_has_signal : Z;
  phase_has_signal : Z;
  corner_tables : list (list R);
  custom_tables : list t_custom_table;
  num_custom_tables : Z;
  interpolation : Z;
  corner_mode : Z;
  table_size : Z
}.

(** One frame of the four signal inlets. *)
Record t_frame : Type := mk_frame {
  freq_in : R;
  x_in : R;
  y_in : R;
  phase_offset_in : R
}.

(** [for (i = 0; i < size; i++) table[i] = f((double)i / (double)size)] *)
Definition fill_table (f : R -> R) (size : Z) : list R :=
  map (fun i => f (INR i / IZR size)) (seq 0 (Z.to_nat size)).

Definition generate_sine_table (size : Z) : list R :=
  fill_table (fun phase => sin (2 * PI * phase)) size.

Definition generate_triangle_table (size : Z) : list R :=
  fill_table (fun phase =>
    if Rlt_dec phase (1/4) then 4 * phase
    else if Rlt_dec phase (3/4) then 2 - 4 * phase
    else 4 * phase - 4) size.

Definition generate_saw_table (size : Z) : list R :=
  fill_table (fun phase => 2 * phase - 1) size.

Definition generate_square_table (size : Z) : list R :=
  fill_table (fun phase => if Rlt_dec phase (1/2) then 1 else -1) size.

Definition generate_sine_harmonic_table (size : Z) (harmonic : Z) : list R :=
  fill_table (fun phase => sin (2 * PI * phase * IZR harmonic)) size.

(** The four tables in slot order: sine, triangle, saw, square. *)
Definition init_corner_tables (mode : Z) : list (list R) :=
  if (mode =? 1)%Z then
    [ generate_sine_table WAVETABLE_SIZE;
      generate_sine_harmonic_table WAVETABLE_SIZE 2;
      generate_sine_harmonic_table WAVETABLE_SIZE 3;
      generate_sine_harmonic_table WAVETABLE_SIZE 4 ]
  else
    [ generate_sine_table WAVETABLE_SIZE;
      generate_triangle_table WAVETABLE_SIZE;
      generate_saw_table WAVETABLE_SIZE;
      generate_square_table WAVETABLE_SIZE ].

Definition corner (x : t_cycle2d) (c : nat) : list R :=
  nth c (corner_tables x) [].

Definition wavetable_lookup (table : list R) (phase : R) : R :=
  let scaled_phase := phase * IZR (WAVETABLE_SIZE - 1) in
  let index := trunc scaled_phase in
  let fract := scaled_phase - IZR index in
  if (index >=? WAVETABLE_SIZE - 1)%Z then tbl table (WAVETABLE_SIZE - 1)
  else tbl table index * (1 - fract) + tbl table (index + 1) * fract.

(** Body of the loop over the custom tables; the accumulator is
    [(total_weight, weighted_sum)]. *)
Definition custom_accumulate (xp yp ph : R) (acc : R * R)
    (table : t_custom_table) : R * R :=
  if truthy (active table) then
    let dx := xp - x_pos table in
    let dy := yp - y_pos table in
    let distance := sqrt (dx * dx + dy * dy) in
    let weight := 1 / (1 + distance * 2) in
    let custom_sample := wavetable_lookup (wavetable table) ph in
    (fst acc + weight, snd acc + custom_sample * weight)
  else acc.

Definition bilinear_interpolate (x : t_cycle2d) (xp yp ph : R) : R :=
  let sample_00 := wavetable_lookup (corner x CORNER_SINE) ph in
  let sample_01 := wavetable_lookup (corner x CORNER_TRIANGLE) ph in
  let sample_10 := wavetable_lookup (corner x CORNER_SAW) ph in
  let sample_11 := wavetable_lookup (corner x CORNER_SQUARE) ph in
  let acc := fold_left (custom_accumulate xp yp ph)
               (take (Z.to_nat (num_custom_tables x)) (custom_tables x)) (0, 0) in
  let total_weight := fst acc in
  let weighted_sum := snd acc in
  let lerp_x0 := sample_00 * (1 - xp) + sample_10 * xp in
  let lerp_x1 := sample_01 * (1 - xp) + sample_11 * xp in
  let corner_result := lerp_x0 * (1 - yp) + lerp_x1 * yp in
  if Rgt_dec total_weight 0 then
    let custom_result := weighted_sum / total_weight in
    let blend_factor := total_weight / (total_weight + 1) in
    corner_result * (1 - blend_factor) + custom_result * blend_factor
  else corner_result.

Definition nearest_neighbor_interpolate (x : t_cycle2d) (xp yp ph : R) : R :=
  let corner_index :=
    if Rlt_dec xp (1/2) then
      (if Rlt_dec yp (1/2) then CORNER_SINE else CORNER_TRIANGLE)
    else
      (if Rlt_dec yp (1/2) then CORNER_SAW else CORNER_SQUARE) in
  wavetable_lookup (corner x corner_index) ph.

Definition set_phase (x : t_cycle2d) (p : R) : t_cycle2d :=
  mk_cycle2d p (sr x) (sr_inv x) (freq_float x) (x_float x) (y_float x)
    (phase_offset_float x) (freq_has_signal x) (x_has_signal x)
    (y_has_signal x) (phase_has_signal x) (corner_tables x)
    (custom_tables x) (num_custom_tables x) (interpolation x)
    (corner_mode x) (table_size x).

(** One trip of the sample loop of [cycle2d_perform64]: the local [phase]
    goes in, the new [phase] and the output sample come out. *)
Definition perform_sample (fuel : nat) (x : t_cycle2d) (ph : R)
    (fr : t_frame) : option (R * R) :=
  let freq := if truthy (freq_has_signal x) then freq_in fr else freq_float x in
  let xp := if truthy (x_has_signal x) then x_in fr else x_float x in
  let yp := if truthy (y_has_signal x) then y_in fr else y_float x in
  let phase_offset :=
    if truthy (phase_has_signal x) then phase_offset_in fr
    else phase_offset_float x in
  let freq := CLAMP freq 0 20000 in
  let xp := CLAMP xp 0 1 in
  let yp := CLAMP yp 0 1 in
  let phase_offset := CLAMP phase_offset 0 1 in
  ph ← wrap01 fuel (ph + freq * sr_inv x);
  read_phase ← wrap01 fuel (ph + phase_offset);
  let sample :=
    if (interpolation x =? 1)%Z
    then nearest_neighbor_interpolate x xp yp read_phase
    else bilinear_interpolate x xp yp read_phase in
  Some (ph, sample).

Fixpoint perform_loop (fuel : nat) (x : t_cycle2d) (ph : R)
    (ins : list t_frame) : option (R * list R) :=
  match ins with
  | [] => Some (ph, [])
  | fr :: ins' =>
      '(ph', sample) ← perform_sample fuel x ph fr;
      '(ph'', out) ← perform_loop fuel x ph' ins';
      Some (ph'', sample :: out)
  end.

Definition cycle2d_perform64 (fuel : nat) (x : t_cycle2d)
    (ins : list t_frame) : option (t_cycle2d * list R) :=
  '(ph, out) ← perform_loop fuel x (phase x) ins;
  Some (set_phase x ph, out).

(** [cycle2d_bang] on the first inlet. *)
Definition cycle2d_bang (x : t_cycle2d) (inlet : Z) : t_cycle2d :=
  if (inlet =? 0)%Z then set_phase x 0 else x.

(** The external buffer~ objects of the patcher, by name.  [buffer_samples]
    is what [buffer_locksamples] returns ([None] when the samples cannot be
    locked), listed from the start of the buffer; [buffer_frames] is
    [buffer_getframecount].  The host's buffer holds [buffer_frames] frames:
    a list shorter than that stands for a buffer that goes on with zeros. *)
Record t_buffer_obj : Type := mk_buffer_obj {
  buffer_samples : option (list R);
  buffer_frames : Z
}.

(** The diagnostic that [cycle2d_buffer] posts to the host console. *)
Inductive t_post : Type :=
| PostTooFewArgs
| PostSlotsFull
| PostNotFound
| PostLockFailed
| PostEmpty
| PostLoaded.

(** [buffer_samples[read_index]].  An index below 0 is in front of the
    buffer: the read is undefined in C (garbage, or a crash), [None] here. *)
Definition buffer_read (samples : list R) (read_index : Z) : option R :=
  if (read_index <? 0)%Z then None else Some (tbl samples read_index).

(** The copy loop of [cycle2d_buffer].  C's [%] truncates toward zero and
    keeps the sign of [offset + i], so a negative offset gives a negative
    [read_index]; it passes the guard [read_index < buffer_frames] and the
    loop reads in front of the buffer.  The result is [None] when a trip of
    the loop does that (and for the division by a frame count of 0, which
    [cycle2d_buffer] rules out before the loop). *)
Definition copy_buffer (samples : list R) (frames offset : Z)
    : option (list R) :=
  if (frames =? 0)%Z then None
  else
    mapM (fun i =>
            let read_index := Z.rem (offset + Z.of_nat i) frames in
            if (read_index <? frames)%Z then buffer_read samples read_index
            else Some 0)
         (seq 0 (Z.to_nat WAVETABLE_SIZE)).

Definition set_custom (x : t_cycle2d) (tables : list t_custom_table)
    (n : Z) : t_cycle2d :=
  mk_cycle2d (phase x) (sr x) (sr_inv x) (freq_float x) (x_float x)
    (y_float x) (phase_offset_float x) (freq_has_signal x) (x_has_signal x)
    (y_has_signal x) (phase_has_signal x) (corner_tables x)
    tables n (interpolation x) (corner_mode x) (table_size x).

(** [buffer <name> <x> <y> [offset]]: [argv] holds the arguments after the
    selector.  The result is the new record and the diagnostic, or [None]
    when the copy loop reads in front of the buffer. *)
Definition cycle2d_buffer (x : t_cycle2d) (env : gmap string t_buffer_obj)
    (argv : list t_atom) : option (t_cycle2d * t_post) :=
  if (Z.of_nat (length argv) <? 3)%Z then Some (x, PostTooFewArgs)
  else if (num_custom_tables x >=? MAX_CUSTOM_TABLES)%Z
       then Some (x, PostSlotsFull)
  else
    let buffer_name := atom_getsym (nth 0 argv (A_LONG 0)) in
    let xp := CLAMP (atom_getfloat (nth 1 argv (A_LONG 0))) 0 1 in
    let yp := CLAMP (atom_getfloat (nth 2 argv (A_LONG 0))) 0 1 in
    let offset :=
      if (Z.of_nat (length argv) >=? 4)%Z
      then atom_getlong (nth 3 argv (A_LONG 0)) else 0%Z in
    match env !! buffer_name with
    | None => Some (x, PostNotFound)
    | Some buffer =>
        match buffer_samples buffer with
        | None => Some (x, PostLockFailed)
        | Some samples =>
            if (buffer_frames buffer =? 0)%Z then Some (x, PostEmpty)
            else
              wt ← copy_buffer samples (buffer_frames buffer) offset;
              let table := mk_custom_table wt xp yp 1 in
              Some
                (set_custom x
                   (<[Z.to_nat (num_custom_tables x) := table]>
                      (custom_tables x))
                   (num_custom_tables x + 1),
                 PostLoaded)
        end
    end.

(** [cycle2d_new]: [sr0] is [sys_getsr()], [argv] the creation arguments.
    [object_alloc] hands out zeroed memory, so [init_corner_tables] reads
    [corner_mode = 0] (it runs before the attribute defaults are stored). *)
Definition cycle2d_new (sr0 : R) (argv : list t_atom) : t_cycle2d :=
  let arg_ok (i : nat) :=
    match argv !! i with Some a => atom_is_number a | None => false end in
  let arg (i : nat) := atom_getfloat (nth i argv (A_LONG 0)) in
  mk_cycle2d 0 sr0 (1 / sr0)
    (if arg_ok 0%nat then arg 0%nat else 440)
    (if arg_ok 1%nat then CLAMP (arg 1%nat) 0 1 else 1/2)
    (if arg_ok 2%nat then CLAMP (arg 2%nat) 0 1 else 1/2)
    0
    0 0 0 0
    (init_corner_tables 0)
    (replicate (Z.to_nat MAX_CUSTOM_TABLES)
       (mk_custom_table (replicate (Z.to_nat WAVETABLE_SIZE) 0) 0 0 0))
    0 0 0 2.

(** [cycle2d_dsp64]. *)
Definition cycle2d_dsp64 (x : t_cycle2d) (count : Z * Z * Z * Z)
    (samplerate : R) : t_cycle2d :=
  let '(c0, c1, c2, c3) := count in
  mk_cycle2d (phase x) samplerate (1 / samplerate) (freq_float x) (x_float x)
    (y_float x) (phase_offset_float x) c0 c1 c2 c3 (corner_tables x)
    (custom_tables x) (num_custom_tables x) (interpolation x)
    (corner_mode x) (table_size x).



(** The step between two neighbouring entries of a table, the largest such
    step inside the table (its per-sample maximum slope), and the step
    from the last entry back to the first. *)
Definition table_slope (table : list R) (i : Z) : R :=
  Rabs (tbl table (i + 1) - tbl table i).

Definition max_slope (table : list R) : R :=
  fold_right Rmax 0
    (map (fun i => table_slope table (Z.of_nat i))
       (seq 0 (Z.to_nat (WAVETABLE_SIZE - 1)))).

Definition wrap_slope (table : list R) : R :=
  Rabs (tbl table 0 - tbl table (WAVETABLE_SIZE - 1)).

(** [cycle2d_float]: [inlet] is what [proxy_getinlet] returns; an inlet
    other than 0 to 3 falls through the [switch]. *)
Definition cycle2d_float (x : t_cycle2d) (inlet : Z) (f : R) : t_cycle2d :=
  mk_cycle2d (phase x) (sr x) (sr_inv x)
    (if (inlet =? 0)%Z then CLAMP f 0 20000 else freq_float x)
    (if (inlet =? 1)%Z then CLAMP f 0 1 else x_float x)
    (if (inlet =? 2)%Z then CLAMP f 0 1 else y_float x)
    (if (inlet =? 3)%Z then CLAMP f 0 1 else phase_offset_float x)
    (freq_has_signal x) (x_has_signal x) (y_has_signal x)
    (phase_has_signal x) (corner_tables x) (custom_tables x)
    (num_custom_tables x) (interpolation x) (corner_mode x) (table_size x).

(** [cycle2d_int]: the same [switch] on [(double)n]. *)
Definition cycle2d_int (x : t_cycle2d) (inlet : Z) (n : Z) : t_cycle2d :=
  mk_cycle2d (phase x) (sr x) (sr_inv x)
    (if (inlet =? 0)%Z then CLAMP (IZR n) 0 20000 else freq_float x)
    (if (inlet =? 1)%Z then CLAMP (IZR n) 0 1 else x_float x)
    (if (inlet =? 2)%Z then CLAMP (IZR n) 0 1 else y_float x)
    (if (inlet =? 3)%Z then CLAMP (IZR n) 0 1 else phase_offset_float x)
    (freq_has_signal x) (x_has_signal x) (y_has_signal x)
    (phase_has_signal x) (corner_tables x) (custom_tables x)
    (num_custom_tables x) (interpolation x) (corner_mode x) (table_size x).

(** [cycle2d_attr_setinterpolation] on the value of its first atom. *)
Definition cycle2d_attr_setinterpolation (x : t_cycle2d) (m : Z) : t_cycle2d :=
  mk_cycle2d (phase x) (sr x) (sr_inv x) (freq_float x) (x_float x)
    (y_float x) (phase_offset_float x) (freq_has_signal x) (x_has_signal x)
    (y_has_signal x) (phase_has_signal x) (corner_tables x)
    (custom_tables x) (num_custom_tables x) (CLAMPZ m 0 2)
    (corner_mode x) (table_size x).


(** A table whose entries are all audio samples of [-1,1], and an object
    all of whose tables are. *)
Definition table_in_range (table : list R) : Prop :=
  Forall (fun v => -1 <= v <= 1) table.

Definition tables_in_range (x : t_cycle2d) : Prop :=
  Forall table_in_range (corner_tables x) /\
  Forall (fun t => table_in_range (wavetable t)) (custom_tables x).

End Cycle2d.

(** ** cycle.fold~.c *)

Module CycleFold.

Definition TWOPI : R := 2 * PI.
Definition MIN_FREQUENCY : R := 1 / 1000.
Definition MAX_FREQUENCY : R := 20000.
Definition MIN_FOLD_AMOUNT : R := 0.
Definition MAX_FOLD_AMOUNT : R := 1.
Definition MIN_WARP_AMOUNT : R := -1.
Definition MAX_WARP_AMOUNT : R := 1.

Record t_cyclefold : Type := mk_cyclefold {
  phase : R;
  sr : R;
  sr_inv : R;
  folding_algorithm : Z;
  antialiasing_enabled : Z;
  dc_blocking_enabled : Z;
  warp_mode : Z;
  frequency_float : R;
  fold_amount_float : R;
  warp_amount_float : R;
  frequency_has_signal : Z;
  fold_has_signal : Z;
  warp_has_signal : Z;
  fold_smooth : R;
  warp_smooth : R;
  smooth_factor : R;
  dc_block_x1 : R;
  dc_block_y1 : R
}.

(** One frame of the three signal inlets. *)
Record t_frame : Type := mk_frame {
  freq_in : R;
  fold_in : R;
  warp_in : R
}.

Definition warp_phase_improved (ph warp_amount : R) (mode : Z) : R :=
  if Rlt_dec (fabs warp_amount) (1 / 10000) then ph
  else if (mode =? 0)%Z then
    if Rgt_dec warp_amount 0 then
      let curve := 1 + warp_amount * 3 in
      pow_c ph (1 / curve)
    else
      let curve := 1 + (- warp_amount) * 3 in
      1 - pow_c (1 - ph) (1 / curve)
  else
    let curve := 1 + fabs warp_amount * 5 in
    if Rgt_dec warp_amount 0 then pow_c ph curve
    else 1 - pow_c (1 - ph) curve.

(** The reflection loop
    [while (output > threshold || output < -threshold) { ... }]. *)
Fixpoint reflect_loop (fuel : nat) (threshold output : R) : option R :=
  if Rgt_dec output threshold then
    match fuel with
    | O => None
    | S fuel' => reflect_loop fuel' threshold (2 * threshold - output)
    end
  else if Rlt_dec output (- threshold) then
    match fuel with
    | O => None
    | S fuel' => reflect_loop fuel' threshold (-2 * threshold - output)
    end
  else Some output.

(** The anti-aliasing prologue of [fold_wave_improved]. *)
Definition safe_fold (fold_amount frequency srate : R) (aa : Z) : R :=
  let safe_fold_amount := fmax 0 fold_amount in
  if truthy aa then
    if Rgt_dec frequency 20 then
      let nyquist := srate * (1 / 2) in
      let max_harmonics := nyquist / frequency in
      let safe_fold_limit := fmin 1 (max_harmonics / 10) in
      fmin safe_fold_amount safe_fold_limit
    else safe_fold_amount
  else safe_fold_amount.

(** The threshold of the reflection algorithm. *)
Definition reflect_threshold (safe_fold_amount : R) : R :=
  let threshold := 1 - safe_fold_amount * (99 / 100) in
  if Rlt_dec threshold (1 / 100) then 1 / 100 else threshold.

Definition fold_wave_improved (fuel : nat) (input fold_amount frequency
    srate : R) (x : t_cyclefold) : option R :=
  let safe_fold_amount :=
    safe_fold fold_amount frequency srate (antialiasing_enabled x) in
  if (folding_algorithm x =? 0)%Z then
    reflect_loop fuel (reflect_threshold safe_fold_amount) input
  else if (folding_algorithm x =? 1)%Z then
    if Rle_dec safe_fold_amount 0 then Some input
    else
      let drive := 1 + safe_fold_amount * 8 in
      Some (tanh (input * drive) / tanh drive)
  else
    let threshold := 1 - safe_fold_amount * (1 / 2) in
    let reflected :=
      if Rgt_dec input threshold then threshold + (input - threshold) * (1 / 2)
      else if Rlt_dec input (- threshold)
           then - threshold + (input + threshold) * (1 / 2)
      else input in
    let drive := 1 + safe_fold_amount * 4 in
    let soft := tanh (reflected * drive) / tanh drive in
    Some (reflected * (1 - safe_fold_amount * (1 / 2))
          + soft * (safe_fold_amount * (1 / 2))).

Definition smooth_param (current target factor : R) : R :=
  current + factor * (target - current).

Definition set_smooth (x : t_cyclefold) (f w : R) : t_cyclefold :=
  mk_cyclefold (phase x) (sr x) (sr_inv x) (folding_algorithm x)
    (antialiasing_enabled x) (dc_blocking_enabled x) (warp_mode x)
    (frequency_float x) (fold_amount_float x) (warp_amount_float x)
    (frequency_has_signal x) (fold_has_signal x) (warp_has_signal x)
    f w (smooth_factor x) (dc_block_x1 x) (dc_block_y1 x).

Definition set_dc (x : t_cyclefold) (x1 y1 : R) : t_cyclefold :=
  mk_cyclefold (phase x) (sr x) (sr_inv x) (folding_algorithm x)
    (antialiasing_enabled x) (dc_blocking_enabled x) (warp_mode x)
    (frequency_float x) (fold_amount_float x) (warp_amount_float x)
    (frequency_has_signal x) (fold_has_signal x) (warp_has_signal x)
    (fold_smooth x) (warp_smooth x) (smooth_factor x) x1 y1.

Definition set_phase (x : t_cyclefold) (p : R) : t_cyclefold :=
  mk_cyclefold p (sr x) (sr_inv x) (folding_algorithm x)
    (antialiasing_enabled x) (dc_blocking_enabled x) (warp_mode x)
    (frequency_float x) (fold_amount_float x) (warp_amount_float x)
    (frequency_has_signal x) (fold_has_signal x) (warp_has_signal x)
    (fold_smooth x) (warp_smooth x) (smooth_factor x)
    (dc_block_x1 x) (dc_block_y1 x).

Definition dc_block (x : t_cyclefold) (input : R) : t_cyclefold * R :=
  let output := input - dc_block_x1 x + (995 / 1000) * dc_block_y1 x in
  (set_dc x input output, output).

(** The phase update that closes one trip of the sample loop. *)
Definition advance_phase (ph frequency srinv : R) : R :=
  let ph := ph + frequency * srinv in
  let ph := if Rge_dec ph 1 then ph - 1 else ph in
  let ph := if Rlt_dec ph 0 then ph + 1 else ph in
  if Rlt_dec (fabs ph) DENORMAL_THRESHOLD then 0 else ph.

(** One trip of the sample loop of [cyclefold_perform64]; [ph] is the local
    copy of the phase. *)
Definition perform_sample (fuel : nat) (x : t_cyclefold) (ph : R)
    (fr : t_frame) : option (t_cyclefold * R * R) :=
  let frequency :=
    if truthy (frequency_has_signal x) then freq_in fr else frequency_float x in
  let fold_target :=
    if truthy (fold_has_signal x) then fold_in fr else fold_amount_float x in
  let warp_target :=
    if truthy (warp_has_signal x) then warp_in fr else warp_amount_float x in
  let frequency := fmax MIN_FREQUENCY (fmin MAX_FREQUENCY frequency) in
  let fold_target := fmax MIN_FOLD_AMOUNT (fmin MAX_FOLD_AMOUNT fold_target) in
  let warp_target := fmax MIN_WARP_AMOUNT (fmin MAX_WARP_AMOUNT warp_target) in
  let fold_amount :=
    if truthy (fold_has_signal x)
    then smooth_param (fold_smooth x) fold_target (smooth_factor x * (1 / 10))
    else smooth_param (fold_smooth x) fold_target (smooth_factor x) in
  let warp_amount :=
    if truthy (warp_has_signal x)
    then smooth_param (warp_smooth x) warp_target (smooth_factor x * (1 / 10))
    else smooth_param (warp_smooth x) warp_target (smooth_factor x) in
  let x := set_smooth x fold_amount warp_amount in
  let warped_phase := warp_phase_improved ph warp_amount (warp_mode x) in
  let sine_wave := sin (warped_phase * TWOPI) in
  folded_wave ← fold_wave_improved fuel sine_wave fold_amount frequency (sr x) x;
  let '(x, output) :=
    if truthy (dc_blocking_enabled x) then dc_block x folded_wave
    else (x, folded_wave) in
  Some (x, advance_phase ph frequency (sr_inv x), output).

Fixpoint perform_loop (fuel : nat) (x : t_cyclefold) (ph : R)
    (ins : list t_frame) : option (t_cyclefold * R * list R) :=
  match ins with
  | [] => Some (x, ph, [])
  | fr :: ins' =>
      '(x', ph', sample) ← perform_sample fuel x ph fr;
      '(x'', ph'', out) ← perform_loop fuel x' ph' ins';
      Some (x'', ph'', sample :: out)
  end.

Definition cyclefold_perform64 (fuel : nat) (x : t_cyclefold)
    (ins : list t_frame) : option (t_cyclefold * list R) :=
  '(x', ph, out) ← perform_loop fuel x (phase x) ins;
  Some (set_phase x' ph, out).

(** [cyclefold_new] without attribute arguments; only [A_FLOAT] arguments
    are read. *)
Definition cyclefold_new (argv : list t_atom) : t_cyclefold :=
  let arg (i : nat) (d : R) :=
    match argv !! i with Some (A_FLOAT f) => f | _ => d end in
  let frequency := fmax MIN_FREQUENCY (fmin MAX_FREQUENCY (arg 0%nat 440)) in
  let fold := fmax MIN_FOLD_AMOUNT (fmin MAX_FOLD_AMOUNT (arg 1%nat 0)) in
  let warp := fmax MIN_WARP_AMOUNT (fmin MAX_WARP_AMOUNT (arg 2%nat 0)) in
  mk_cyclefold 0 44100 (1 / 44100) 0 1 1 0 frequency fold warp 0 0 0
    fold warp (1 / 1000) 0 0.

(** [cyclefold_dsp64]. *)
Definition cyclefold_dsp64 (x : t_cyclefold) (count : Z * Z * Z)
    (samplerate : R) : t_cyclefold :=
  let '(c0, c1, c2) := count in
  mk_cyclefold (phase x) samplerate (1 / samplerate) (folding_algorithm x)
    (antialiasing_enabled x) (dc_blocking_enabled x) (warp_mode x)
    (frequency_float x) (fold_amount_float x) (warp_amount_float x)
    c0 c1 c2 (fold_smooth x) (warp_smooth x)
    (1 - exp (-1 / ((1 / 100) * samplerate)))
    (dc_block_x1 x) (dc_block_y1 x).

(** [cyclefold_float]: a float on inlet 0 sets the held frequency. *)
Definition cyclefold_float (x : t_cyclefold) (inlet : Z) (f : R) : t_cyclefold :=
  mk_cyclefold (phase x) (sr x) (sr_inv x) (folding_algorithm x)
    (antialiasing_enabled x) (dc_blocking_enabled x) (warp_mode x)
    (if (inlet =? 0)%Z then fmax MIN_FREQUENCY (fmin MAX_FREQUENCY f)
     else frequency_float x)
    (if (inlet =? 1)%Z then fmax MIN_FOLD_AMOUNT (fmin MAX_FOLD_AMOUNT f)
     else fold_amount_float x)
    (if (inlet =? 2)%Z then fmax MIN_WARP_AMOUNT (fmin MAX_WARP_AMOUNT f)
     else warp_amount_float x)
    (frequency_has_signal x) (fold_has_signal x) (warp_has_signal x)
    (fold_smooth x) (warp_smooth x) (smooth_factor x)
    (dc_block_x1 x) (dc_block_y1 x).

Definition cyclefold_bang (x : t_cyclefold) : t_cyclefold := set_phase x 0.

(** The clamped frequency that one trip of the sample loop uses. *)
Definition frame_frequency (x : t_cyclefold) (fr : t_frame) : R :=
  fmax MIN_FREQUENCY
    (fmin MAX_FREQUENCY
       (if truthy (frequency_has_signal x) then freq_in fr
        else frequency_float x)).

(** An instance run below the audio rates: default arguments, the float 20000 on
    the frequency inlet, audio switched on at 8000 Hz with no signal
    connected. *)
Definition cyclefold_at_8k : t_cyclefold :=
  cyclefold_dsp64 (cyclefold_float (cyclefold_new []) 0 20000) (0, 0, 0)%Z 8000.

(** [cyclefold_attr_setdcblocking] on the value of its first atom: the
    filter state is cleared whenever the attribute is written. *)
Definition cyclefold_attr_setdcblocking (x : t_cyclefold) (n : Z)
    : t_cyclefold :=
  mk_cyclefold (phase x) (sr x) (sr_inv x) (folding_algorithm x)
    (antialiasing_enabled x) (if truthy n then 1%Z else 0%Z) (warp_mode x)
    (frequency_float x) (fold_amount_float x) (warp_amount_float x)
    (frequency_has_signal x) (fold_has_signal x) (warp_has_signal x)
    (fold_smooth x) (warp_smooth x) (smooth_factor x) 0 0.

(** [dc_block] applied to a sequence of samples, one call per sample. *)
Fixpoint dc_block_run (x : t_cyclefold) (inputs : list R)
    : t_cyclefold * list R :=
  match inputs with
  | [] => (x, [])
  | input :: rest =>
      let '(x, output) := dc_block x input in
      let '(x, out) := dc_block_run x rest in
      (x, output :: out)
  end.

(** The state that the audio path keeps in range: the smoothed fold amount
    and the smoothing coefficient in [0,1], a sample rate that is not
    negative, the last input of the DC blocker in [-1,1] and its last output
    within 400. *)
Definition smooth_wf (x : t_cyclefold) : Prop :=
  0 <= fold_smooth x <= 1 /\ 0 <= smooth_factor x <= 1 /\ 0 <= sr x /\
  -1 <= dc_block_x1 x <= 1 /\ -400 <= dc_block_y1 x <= 400.

(** The targets that the smoothers of the held parameters move to. *)
Definition fold_target (x : t_cyclefold) : R :=
  fmax MIN_FOLD_AMOUNT (fmin MAX_FOLD_AMOUNT (fold_amount_float x)).

Definition warp_target (x : t_cyclefold) : R :=
  fmax MIN_WARP_AMOUNT (fmin MAX_WARP_AMOUNT (warp_amount_float x)).

(** The condition under which the single conditional subtraction of the
    phase update is enough: a sample rate of at least the 20 kHz that the
    frequency is clamped to, its stored reciprocal, and a phase in [0,1).
    It keeps the bases of [pow] in [warp_phase_improved] in [0,1]. *)
Definition phase_wf (x : t_cyclefold) : Prop :=
  20000 <= sr x /\ sr_inv x = 1 / sr x /\ 0 <= phase x < 1.

End CycleFold.

(** ** decay~.c *)

Module Decay.

Definition MIN_DECAY_TIME : R := 1 / 1000.
Definition MAX_DECAY_TIME : R := 60.
Definition DEFAULT_DECAY_TIME : R := 1.
Definition DEFAULT_CURVE : R := 0.
Definition DEFAULT_PEAK : R := 1.

Record t_decay : Type := mk_decay {
  decay_time_float : R;
  curve_float : R;
  peak : R;
  time_has_signal : Z;
  curve_has_signal : Z;
  envelope : R;
  is_active : Z;
  retrig_mode : Z;
  smooth_samples_setting : Z;
  smooth_samples : Z;
  smooth_start_level : R;
  sr : R;
  sr_inv : R;
  envelope_mode : Z;
  curve_response : Z;
  click_protection : Z;
  retrigger_mode : Z
}.

(** One frame of the two signal inlets (time and curve). *)
Record t_frame : Type := mk_frame {
  time_in : R;
  curve_in : R
}.

Definition decay_calculate_coefficient (decay_time sample_rate : R) : R :=
  if Rle_dec decay_time 0 then 0
  else
    let time_constant := decay_time * sample_rate in
    exp (-1 / time_constant).

Definition decay_apply_curve (linear_value curve : R) : R :=
  if Req_dec_T curve 0 then linear_value
  else if Rle_dec linear_value 0 then linear_value
  else if Rlt_dec curve 0 then pow_c linear_value (1 + fabs curve)
  else pow_c linear_value (1 / (1 + curve)).

Definition set_envelope (x : t_decay) (e : R) (a : Z) : t_decay :=
  mk_decay (decay_time_float x) (curve_float x) (peak x) (time_has_signal x)
    (curve_has_signal x) e a (retrig_mode x) (smooth_samples_setting x)
    (smooth_samples x) (smooth_start_level x) (sr x) (sr_inv x)
    (envelope_mode x) (curve_response x) (click_protection x)
    (retrigger_mode x).

Definition set_smooth_samples (x : t_decay) (n : Z) : t_decay :=
  mk_decay (decay_time_float x) (curve_float x) (peak x) (time_has_signal x)
    (curve_has_signal x) (envelope x) (is_active x) (retrig_mode x)
    (smooth_samples_setting x) n (smooth_start_level x) (sr x) (sr_inv x)
    (envelope_mode x) (curve_response x) (click_protection x)
    (retrigger_mode x).

Definition set_envelope_mode (x : t_decay) (m : Z) : t_decay :=
  mk_decay (decay_time_float x) (curve_float x) (peak x) (time_has_signal x)
    (curve_has_signal x) (envelope x) (is_active x) (retrig_mode x)
    (smooth_samples_setting x) (smooth_samples x) (smooth_start_level x)
    (sr x) (sr_inv x) m (curve_response x) (click_protection x)
    (retrigger_mode x).

(** The attack ramp of the AD mode.  [attack_samples] is the function-local
    [static int] of [decay_perform64]: it goes in and comes out. *)
Definition attack_ramp (attack_samples : Z) (mode : Z) (output : R) : Z * R :=
  if (mode =? 1)%Z then
    if (attack_samples <? 44)%Z
    then ((attack_samples + 1)%Z, output * (IZR attack_samples / 44))
    else (44%Z, output)
  else (attack_samples, output).

(** The [if (x->is_active)] block of the sample loop. *)
Definition active_block (attack_samples : Z) (x : t_decay)
    (decay_time curve : R) : Z * t_decay * R :=
  let decay_coeff := decay_calculate_coefficient decay_time (sr x) in
  let env := envelope x * decay_coeff in
  let linear_progress := env / peak x in
  let final_curve :=
    if truthy (curve_has_signal x) then curve
    else if (curve_response x =? 0)%Z then - (3 / 2)
    else if (curve_response x =? 1)%Z then 0
    else if (curve_response x =? 2)%Z then 3 / 2
    else curve in
  let shaped_progress := decay_apply_curve linear_progress final_curve in
  let output := shaped_progress * peak x in
  let '(attack_samples, output) :=
    attack_ramp attack_samples (envelope_mode x) output in
  if Rlt_dec env DENORMAL_THRESHOLD then (attack_samples, set_envelope x 0 0, 0)
  else if Rlt_dec output DENORMAL_THRESHOLD
       then (attack_samples, set_envelope x 0 0, 0)
  else (attack_samples, set_envelope x env (is_active x), output).

(** One trip of the sample loop of [decay_perform64]. *)
Definition perform_sample (attack_samples : Z) (x : t_decay)
    (fr : t_frame) : Z * t_decay * R :=
  let decay_time :=
    if truthy (time_has_signal x) then time_in fr else decay_time_float x in
  let curve :=
    if truthy (curve_has_signal x) then curve_in fr else curve_float x in
  let decay_time := CLAMP decay_time MIN_DECAY_TIME MAX_DECAY_TIME in
  let curve := CLAMP curve (-3) 3 in
  let '(attack_samples, x, output) :=
    if truthy (is_active x) then active_block attack_samples x decay_time curve
    else (attack_samples, x, 0) in
  let '(x, output) :=
    if (smooth_samples x >? 0)%Z then
      let progress :=
        IZR (click_protection x - smooth_samples x) / IZR (click_protection x) in
      (set_smooth_samples x (smooth_samples x - 1),
       smooth_start_level x + (output - smooth_start_level x) * progress)
    else (x, output) in
  (attack_samples, x, denormal_fix output).

Fixpoint decay_perform64 (attack_samples : Z) (x : t_decay)
    (ins : list t_frame) : Z * t_decay * list R :=
  match ins with
  | [] => (attack_samples, x, [])
  | fr :: ins' =>
      let '(a, x', sample) := perform_sample attack_samples x fr in
      let '(a', x'', out) := decay_perform64 a x' ins' in
      (a', x'', sample :: out)
  end.

Definition decay_bang (x : t_decay) : t_decay :=
  let start := envelope x in
  let env :=
    if truthy (retrigger_mode x) then peak x
    else if truthy (is_active x) then envelope x else peak x in
  let smooth :=
    if (click_protection x >? 0)%Z then
      if Rgt_dec (fabs (env - start)) (1 / 1000) then click_protection x
      else 0%Z
    else 0%Z in
  mk_decay (decay_time_float x) (curve_float x) (peak x) (time_has_signal x)
    (curve_has_signal x) env 1 (retrig_mode x) (smooth_samples_setting x)
    smooth start (sr x) (sr_inv x) (envelope_mode x) (curve_response x)
    (click_protection x) (retrigger_mode x).

(** [decay_new] without attribute arguments: [sr0] is [sys_getsr()]. *)
Definition decay_new (sr0 : R) (argv : list t_atom) : t_decay :=
  let arg_ok (i : nat) :=
    match argv !! i with Some a => atom_is_number a | None => false end in
  let arg (i : nat) := atom_getfloat (nth i argv (A_LONG 0)) in
  mk_decay
    (if arg_ok 0%nat then CLAMP (arg 0%nat) MIN_DECAY_TIME MAX_DECAY_TIME
     else DEFAULT_DECAY_TIME)
    (if arg_ok 1%nat then CLAMP (arg 1%nat) (-3) 3 else DEFAULT_CURVE)
    (if arg_ok 2%nat then CLAMP (arg 2%nat) 0 1 else DEFAULT_PEAK)
    0 0 0 0 1 0 0 0 sr0 (1 / sr0) 0 1 0 1.

(** [decay_dsp64]: [count] holds the connection counts of inlets 1 and 2. *)
Definition decay_dsp64 (x : t_decay) (count : Z * Z) (samplerate : R) : t_decay :=
  mk_decay (decay_time_float x) (curve_float x) (peak x) (fst count)
    (snd count) (envelope x) (is_active x) (retrig_mode x)
    (smooth_samples_setting x) (smooth_samples x) (smooth_start_level x)
    samplerate (1 / samplerate) (envelope_mode x) (curve_response x)
    (click_protection x) (retrigger_mode x).

(** [decay_attr_setenvelopemode]. *)
Definition decay_attr_setenvelopemode (x : t_decay) (m : Z) : t_decay :=
  set_envelope_mode x (CLAMPZ m 0 2).

(** All the instances of the external in a patcher, with the one
    [attack_samples] they share. *)
Record t_world : Type := mk_world {
  attack_samples : Z;
  instances : list t_decay
}.

Inductive t_event : Type :=
| EvNew (sr0 : R) (argv : list t_atom)
| EvBang (i : nat)
| EvPerform (i : nat) (ins : list t_frame).

(** One host call; the block of output samples is empty for a message. *)
Definition world_step (w : t_world) (ev : t_event) : t_world * list R :=
  match ev with
  | EvNew sr0 argv =>
      (mk_world (attack_samples w) (instances w ++ [decay_new sr0 argv]), [])
  | EvBang i =>
      match instances w !! i with
      | Some x =>
          (mk_world (attack_samples w) (<[i := decay_bang x]> (instances w)), [])
      | None => (w, [])
      end
  | EvPerform i ins =>
      match instances w !! i with
      | Some x =>
          let '(a, x', out) := decay_perform64 (attack_samples w) x ins in
          (mk_world a (<[i := x']> (instances w)), out)
      | None => (w, [])
      end
  end.

Fixpoint world_run (w : t_world) (evs : list t_event)
    : t_world * list (list R) :=
  match evs with
  | [] => (w, [])
  | ev :: evs' =>
      let '(w', out) := world_step w ev in
      let '(w'', outs) := world_run w' evs' in
      (w'', out :: outs)
  end.

(** The samples of a block that run the attack branch: those that the
    instance processes while it is active and in AD mode. *)
Fixpoint ad_samples (attack_samples : Z) (x : t_decay) (ins : list t_frame)
    : Z :=
  match ins with
  | [] => 0%Z
  | fr :: ins' =>
      let '(a, x', _) := perform_sample attack_samples x fr in
      ((if truthy (is_active x) && (envelope_mode x =? 1)%Z then 1 else 0)
       + ad_samples a x' ins')%Z
  end.

(** The end-to-end scenario: [decay~ 1. 0. 1.] at 44100 Hz, no signal
    connected, default attributes, then a bang. *)
Definition decay_scenario : t_decay :=
  decay_bang
    (decay_dsp64 (decay_new 44100 [A_FLOAT 1; A_FLOAT 0; A_FLOAT 1])
       (0, 0)%Z 44100).

(** An instance in the plain decay of the scenario: running, one second,
    unit peak, linear response, no signal connected, no attack mode and no
    click protection pending. *)
Definition plain_decay (x : t_decay) : Prop :=
  truthy (is_active x) = true /\
  time_has_signal x = 0%Z /\ curve_has_signal x = 0%Z /\
  curve_response x = 1%Z /\ envelope_mode x = 0%Z /\
  smooth_samples x = 0%Z /\
  peak x = 1 /\ decay_time_float x = 1 /\ sr x = 44100.

(** The per-sample coefficient of the scenario. *)
Definition scenario_coefficient : R := exp (- / 44100).

(** Every instance of a world put in plain decay mode. *)
Definition decay_mode_world (w : t_world) : t_world :=
  mk_world (attack_samples w)
    ((fun x => set_envelope_mode x 0) <$> instances w).

(** A patcher with two AD-mode instances whose shared counter has reached
    its end. *)
Definition saturated_world : t_world :=
  mk_world 44
    [decay_attr_setenvelopemode (decay_new 44100 []) 1;
     decay_attr_setenvelopemode (decay_new 44100 []) 1].

(** [decay_float] on the inlets 1 (time) and 2 (curve). *)
Definition decay_float (x : t_decay) (inlet : Z) (f : R) : t_decay :=
  mk_decay
    (if (inlet =? 1)%Z then CLAMP f MIN_DECAY_TIME MAX_DECAY_TIME
     else decay_time_float x)
    (if (inlet =? 2)%Z then CLAMP f (-3) 3 else curve_float x)
    (peak x) (time_has_signal x) (curve_has_signal x) (envelope x)
    (is_active x) (retrig_mode x) (smooth_samples_setting x)
    (smooth_samples x) (smooth_start_level x) (sr x) (sr_inv x)
    (envelope_mode x) (curve_response x) (click_protection x)
    (retrigger_mode x).

(** [decay_retrig]: the message writes [retrig_mode]. *)
Definition decay_retrig (x : t_decay) (n : Z) : t_decay :=
  mk_decay (decay_time_float x) (curve_float x) (peak x) (time_has_signal x)
    (curve_has_signal x) (envelope x) (is_active x)
    (if truthy n then 1%Z else 0%Z) (smooth_samples_setting x)
    (smooth_samples x) (smooth_start_level x) (sr x) (sr_inv x)
    (envelope_mode x) (curve_response x) (click_protection x)
    (retrigger_mode x).

(** [decay_attr_setclickprotection] on the value of its first atom. *)
Definition decay_attr_setclickprotection (x : t_decay) (m : Z) : t_decay :=
  mk_decay (decay_time_float x) (curve_float x) (peak x) (time_has_signal x)
    (curve_has_signal x) (envelope x) (is_active x) (retrig_mode x)
    (CLAMPZ m 0 100) (smooth_samples x) (smooth_start_level x) (sr x)
    (sr_inv x) (envelope_mode x) (curve_response x) (CLAMPZ m 0 100)
    (retrigger_mode x).

(** The state that the audio path and the trigger keep in range: a positive
    sample rate, a peak in (0,1], the envelope between 0 and the peak, the
    level the click protection starts from in [0,1], and no more smoothing
    samples pending than the click protection asks for. *)
Definition envelope_wf (x : t_decay) : Prop :=
  0 < sr x /\ 0 < peak x <= 1 /\ 0 <= envelope x <= peak x /\
  0 <= smooth_start_level x <= 1 /\
  ((0 < smooth_samples x)%Z -> (smooth_samples x <= click_protection x)%Z).

(** An instance that is not running and has no smoothing pending. *)
Definition idle (x : t_decay) : Prop :=
  truthy (is_active x) = false /\ (smooth_samples x <= 0)%Z.

(** The host calls [decay_perform64] once per signal vector: the calls on
    the blocks of [blocks] in order, each from the state and the attack
    counter that the one before left; the samples put out, in order. *)
Fixpoint decay_perform_blocks (attack_samples : Z) (x : t_decay)
    (blocks : list (list t_frame)) : Z * t_decay * list R :=
  match blocks with
  | [] => (attack_samples, x, [])
  | ins :: blocks' =>
      let '(a, x', out) := decay_perform64 attack_samples x ins in
      let '(a', x'', out') := decay_perform_blocks a x' blocks' in
      (a', x'', out ++ out')
  end.

End Decay.

(** ** noises~.c *)

Module Noises.

Definition NOISE_WHITE : Z := 0.
Definition NUM_NOISE_TYPES : Z := 7.
Definition MIN_TYPE : R := 0.
Definition MAX_TYPE : R := 6.
Definition MIN_AMPLITUDE : R := 0.
Definition MAX_AMPLITUDE : R := 1.
Definition PINK_BITS : Z := 5.
Definition VELVET_IMPULSES_PER_SEC : R := 2205.
Definition UINT32_MAX : Z := 4294967295.

Record t_noises : Type := mk_noises {
  sr : R;
  sr_inv : R;
  morphing_enabled : Z;
  dc_blocking_enabled : Z;
  seed_auto : Z;
  filter_quality : Z;
  type_float : R;
  amplitude_float : R;
  type_has_signal : Z;
  amplitude_has_signal : Z;
  type_smooth : R;
  amplitude_smooth : R;
  smooth_factor : R;
  rng_state : Z;
  pink_rows : list R;
  pink_running_sum : R;
  pink_index : Z;
  pink_index_mask : Z;
  pink_scalar : R;
  brown_state : R;
  brown_leak : R;
  prev_white : R;
  prev_blue : R;
  grey_x1 : R;
  grey_x2 : R;
  grey_y1 : R;
  grey_y2 : R;
  grey_a1 : R;
  grey_a2 : R;
  grey_b0 : R;
  grey_b1 : R;
  grey_b2 : R;
  dc_block_x1 : R;
  dc_block_y1 : R
}.

(** One frame of the two signal inlets. *)
Record t_frame : Type := mk_frame {
  type_in : R;
  amp_in : R
}.

(** The generator state that the noise functions mutate, gathered so that
    each function rebuilds the record once. *)
Definition set_rng (x : t_noises) (s : Z) : t_noises :=
  mk_noises (sr x) (sr_inv x) (morphing_enabled x) (dc_blocking_enabled x)
    (seed_auto x) (filter_quality x) (type_float x) (amplitude_float x)
    (type_has_signal x) (amplitude_has_signal x) (type_smooth x)
    (amplitude_smooth x) (smooth_factor x) s (pink_rows x)
    (pink_running_sum x) (pink_index x) (pink_index_mask x) (pink_scalar x)
    (brown_state x) (brown_leak x) (prev_white x) (prev_blue x) (grey_x1 x)
    (grey_x2 x) (grey_y1 x) (grey_y2 x) (grey_a1 x) (grey_a2 x) (grey_b0 x)
    (grey_b1 x) (grey_b2 x) (dc_block_x1 x) (dc_block_y1 x).

Definition set_pink (x : t_noises) (rows : list R) (sum : R) (idx : Z)
    : t_noises :=
  mk_noises (sr x) (sr_inv x) (morphing_enabled x) (dc_blocking_enabled x)
    (seed_auto x) (filter_quality x) (type_float x) (amplitude_float x)
    (type_has_signal x) (amplitude_has_signal x) (type_smooth x)
    (amplitude_smooth x) (smooth_factor x) (rng_state x) rows sum idx
    (pink_index_mask x) (pink_scalar x)
    (brown_state x) (brown_leak x) (prev_white x) (prev_blue x) (grey_x1 x)
    (grey_x2 x) (grey_y1 x) (grey_y2 x) (grey_a1 x) (grey_a2 x) (grey_b0 x)
    (grey_b1 x) (grey_b2 x) (dc_block_x1 x) (dc_block_y1 x).

Definition set_brown (x : t_noises) (b : R) : t_noises :=
  mk_noises (sr x) (sr_inv x) (morphing_enabled x) (dc_blocking_enabled x)
    (seed_auto x) (filter_quality x) (type_float x) (amplitude_float x)
    (type_has_signal x) (amplitude_has_signal x) (type_smooth x)
    (amplitude_smooth x) (smooth_factor x) (rng_state x) (pink_rows x)
    (pink_running_sum x) (pink_index x) (pink_index_mask x) (pink_scalar x)
    b (brown_leak x) (prev_white x) (prev_blue x) (grey_x1 x)
    (grey_x2 x) (grey_y1 x) (grey_y2 x) (grey_a1 x) (grey_a2 x) (grey_b0 x)
    (grey_b1 x) (grey_b2 x) (dc_block_x1 x) (dc_block_y1 x).

Definition set_prev (x : t_noises) (w b : R) : t_noises :=
  mk_noises (sr x) (sr_inv x) (morphing_enabled x) (dc_blocking_enabled x)
    (seed_auto x) (filter_quality x) (type_float x) (amplitude_float x)
    (type_has_signal x) (amplitude_has_signal x) (type_smooth x)
    (amplitude_smooth x) (smooth_factor x) (rng_state x) (pink_rows x)
    (pink_running_sum x) (pink_index x) (pink_index_mask x) (pink_scalar x)
    (brown_state x) (brown_leak x) w b (grey_x1 x)
    (grey_x2 x) (grey_y1 x) (grey_y2 x) (grey_a1 x) (grey_a2 x) (grey_b0 x)
    (grey_b1 x) (grey_b2 x) (dc_block_x1 x) (dc_block_y1 x).

Definition set_grey_state (x : t_noises) (x1 x2 y1 y2 : R) : t_noises :=
  mk_noises (sr x) (sr_inv x) (morphing_enabled x) (dc_blocking_enabled x)
    (seed_auto x) (filter_quality x) (type_float x) (amplitude_float x)
    (type_has_signal x) (amplitude_has_signal x) (type_smooth x)
    (amplitude_smooth x) (smooth_factor x) (rng_state x) (pink_rows x)
    (pink_running_sum x) (pink_index x) (pink_index_mask x) (pink_scalar x)
    (brown_state x) (brown_leak x) (prev_white x) (prev_blue x) x1 x2 y1 y2
    (grey_a1 x) (grey_a2 x) (grey_b0 x) (grey_b1 x) (grey_b2 x)
    (dc_block_x1 x) (dc_block_y1 x).

Definition set_dc (x : t_noises) (x1 y1 : R) : t_noises :=
  mk_noises (sr x) (sr_inv x) (morphing_enabled x) (dc_blocking_enabled x)
    (seed_auto x) (filter_quality x) (type_float x) (amplitude_float x)
    (type_has_signal x) (amplitude_has_signal x) (type_smooth x)
    (amplitude_smooth x) (smooth_factor x) (rng_state x) (pink_rows x)
    (pink_running_sum x) (pink_index x) (pink_index_mask x) (pink_scalar x)
    (brown_state x) (brown_leak x) (prev_white x) (prev_blue x) (grey_x1 x)
    (grey_x2 x) (grey_y1 x) (grey_y2 x) (grey_a1 x) (grey_a2 x) (grey_b0 x)
    (grey_b1 x) (grey_b2 x) x1 y1.

Definition set_smooth (x : t_noises) (t a : R) : t_noises :=
  mk_noises (sr x) (sr_inv x) (morphing_enabled x) (dc_blocking_enabled x)
    (seed_auto x) (filter_quality x) (type_float x) (amplitude_float x)
    (type_has_signal x) (amplitude_has_signal x) t a (smooth_factor x)
    (rng_state x) (pink_rows x)
    (pink_running_sum x) (pink_index x) (pink_index_mask x) (pink_scalar x)
    (brown_state x) (brown_leak x) (prev_white x) (prev_blue x) (grey_x1 x)
    (grey_x2 x) (grey_y1 x) (grey_y2 x) (grey_a1 x) (grey_a2 x) (grey_b0 x)
    (grey_b1 x) (grey_b2 x) (dc_block_x1 x) (dc_block_y1 x).

Definition smooth_param (current target factor : R) : R :=
  current + factor * (target - current).

Definition dc_block (x : t_noises) (input : R) : R * t_noises :=
  let output := input - dc_block_x1 x + (995 / 1000) * dc_block_y1 x in
  (output, set_dc x input output).

(** A value of type [uint32_t]. *)
Definition u32 (z : Z) : Z := (z mod 2 ^ 32)%Z.

(** [xorshift32]: the result is both the new state and the value returned. *)
Definition xorshift32 (state : Z) : Z :=
  let x := state in
  let x := Z.lxor x (u32 (Z.shiftl x 13)) in
  let x := Z.lxor x (Z.shiftr x 17) in
  let x := Z.lxor x (u32 (Z.shiftl x 5)) in
  x.

(** [pink_random]: [randSeed] is its function-local [static unsigned long]. *)
Definition pink_random (randSeed : Z) : Z :=
  ((randSeed * 196314165 + 907633515) mod 2 ^ 64)%Z.

(** [((double)xorshift32(&x->rng_state) / (double)UINT32_MAX) * 2.0 - 1.0] *)
Definition draw_bipolar (x : t_noises) : R * t_noises :=
  let s := xorshift32 (rng_state x) in
  (IZR s / IZR UINT32_MAX * 2 - 1, set_rng x s).

Definition noises_generate_white (x : t_noises) : R * t_noises :=
  draw_bipolar x.

(** [while ((n & 1) == 0) { n = n >> 1; num_zeros++; }] on a C [int]: a
    nonzero [int] has a set bit among its 32. *)
Fixpoint count_zeros (width : nat) (n num_zeros : Z) : Z :=
  match width with
  | O => num_zeros
  | S width' =>
      if (Z.land n 1 =? 0)%Z
      then count_zeros width' (Z.shiftr n 1) (num_zeros + 1)
      else num_zeros
  end.

(** The [for] loop that replaces all the rows. *)
Fixpoint pink_refill (n : nat) (i : nat) (x : t_noises) : t_noises :=
  match n with
  | O => x
  | S n' =>
      let '(new_random, x) := draw_bipolar x in
      let x := set_pink x (<[i := new_random]> (pink_rows x))
                 (pink_running_sum x + new_random) (pink_index x) in
      pink_refill n' (S i) x
  end.

Definition noises_generate_pink (x : t_noises) : R * t_noises :=
  let idx := Z.land (pink_index x + 1) (pink_index_mask x) in
  let x := set_pink x (pink_rows x) (pink_running_sum x) idx in
  let x :=
    if negb (idx =? 0)%Z then
      let num_zeros := count_zeros 32 idx 0 in
      if (num_zeros <? PINK_BITS)%Z then
        let '(new_random, x) := draw_bipolar x in
        set_pink x (<[Z.to_nat num_zeros := new_random]> (pink_rows x))
          (pink_running_sum x - tbl (pink_rows x) num_zeros + new_random)
          (pink_index x)
      else x
    else
      pink_refill (Z.to_nat PINK_BITS) 0
        (set_pink x (pink_rows x) 0 (pink_index x)) in
  let '(white, x) := draw_bipolar x in
  ((pink_running_sum x + white) * (578 / 1000), x).

Definition noises_generate_brown (x : t_noises) : R * t_noises :=
  let '(white, x) := noises_generate_white x in
  let x := set_brown x (brown_leak x * brown_state x + white * (1 / 10)) in
  let '(brown_output, x) :=
    if truthy (dc_blocking_enabled x) then dc_block x (brown_state x)
    else (brown_state x, x) in
  (brown_output * (225 / 100), x).

Definition noises_generate_blue (x : t_noises) : R * t_noises :=
  let '(white, x) := noises_generate_white x in
  let blue_output := white - prev_white x in
  (blue_output * (6 / 10), set_prev x white (prev_blue x)).

Definition noises_generate_violet (x : t_noises) : R * t_noises :=
  let '(blue, x) := noises_generate_blue x in
  let violet_output := blue - prev_blue x in
  (violet_output * (6 / 10), set_prev x (prev_white x) blue).

Definition noises_generate_grey (x : t_noises) : R * t_noises :=
  let '(white, x) := noises_generate_white x in
  let output :=
    grey_b0 x * white + grey_b1 x * grey_x1 x + grey_b2 x * grey_x2 x
    - grey_a1 x * grey_y1 x - grey_a2 x * grey_y2 x in
  let x := set_grey_state x white (grey_x1 x) output (grey_y1 x) in
  let output :=
    if (filter_quality x =? 0)%Z then output * (1 / 2)
    else if (filter_quality x =? 2)%Z then output * (12 / 10)
    else output in
  (output * (72 / 100), x).

Definition noises_generate_velvet (x : t_noises) : R * t_noises :=
  let impulse_probability := VELVET_IMPULSES_PER_SEC / sr x in
  let s := xorshift32 (rng_state x) in
  let x := set_rng x s in
  let random_val := IZR s / IZR UINT32_MAX in
  let '(output, x) :=
    if Rlt_dec random_val impulse_probability then
      let s' := xorshift32 (rng_state x) in
      ((if (Z.land s' 1 =? 0)%Z then -1 else 1), set_rng x s')
    else (0, x) in
  (output * (8 / 10), x).

(** The selection and crossfade of [noises_morph_types], on the seven
    samples already generated. *)
Definition morph_select (morphing : Z) (noise_types : list R)
    (type_param : R) : R :=
  let type_int := trunc type_param in
  let type_frac := type_param - IZR type_int in
  if Rle_dec type_param 0 then tbl noise_types NOISE_WHITE * (4 / 10)
  else if Rge_dec type_param (IZR (NUM_NOISE_TYPES - 1))
       then tbl noise_types (NUM_NOISE_TYPES - 1) * (4 / 10)
  else if negb (truthy morphing) then
    let nearest_type := trunc (type_param + 1 / 2) in
    let nearest_type :=
      trunc (fmax 0 (fmin (IZR (NUM_NOISE_TYPES - 1)) (IZR nearest_type))) in
    tbl noise_types nearest_type * (4 / 10)
  else if Rlt_dec type_frac (1 / 10000) then
    tbl noise_types type_int * (4 / 10)
  else
    let smooth_frac := type_frac * type_frac * (3 - 2 * type_frac) in
    let noise_a := tbl noise_types type_int in
    let noise_b := tbl noise_types (type_int + 1) in
    let mix_a := cos (smooth_frac * PI * (1 / 2)) in
    let mix_b := sin (smooth_frac * PI * (1 / 2)) in
    (noise_a * mix_a + noise_b * mix_b) * (4 / 10).

(** The seven generators in the order of the source. *)
Definition generate_all (x : t_noises) : list R * t_noises :=
  let '(white, x) := noises_generate_white x in
  let '(pink, x) := noises_generate_pink x in
  let '(brown, x) := noises_generate_brown x in
  let '(blue, x) := noises_generate_blue x in
  let '(violet, x) := noises_generate_violet x in
  let '(grey, x) := noises_generate_grey x in
  let '(velvet, x) := noises_generate_velvet x in
  ([white; pink; brown; blue; violet; grey; velvet], x).

Definition noises_morph_types (x : t_noises) (type_param : R) : R * t_noises :=
  let '(noise_types, x) := generate_all x in
  (morph_select (morphing_enabled x) noise_types type_param, x).

(** One trip of the sample loop of [noises_perform64]. *)
Definition perform_sample (x : t_noises) (fr : t_frame) : R * t_noises :=
  let type_target :=
    if truthy (type_has_signal x) then type_in fr else type_float x in
  let amp_target :=
    if truthy (amplitude_has_signal x) then amp_in fr else amplitude_float x in
  let type_target := fmax MIN_TYPE (fmin MAX_TYPE type_target) in
  let amp_target := fmax MIN_AMPLITUDE (fmin MAX_AMPLITUDE amp_target) in
  let type_param :=
    if truthy (type_has_signal x)
    then smooth_param (type_smooth x) type_target (smooth_factor x * (1 / 10))
    else smooth_param (type_smooth x) type_target (smooth_factor x) in
  let amplitude :=
    if truthy (amplitude_has_signal x)
    then smooth_param (amplitude_smooth x) amp_target
           (smooth_factor x * (1 / 10))
    else smooth_param (amplitude_smooth x) amp_target (smooth_factor x) in
  let x := set_smooth x type_param amplitude in
  let '(noise_output, x) := noises_morph_types x type_param in
  let output := noise_output * amplitude in
  let output := if Rlt_dec (fabs output) DENORMAL_THRESHOLD then 0 else output in
  (output, x).

Fixpoint noises_perform64 (x : t_noises) (ins : list t_frame)
    : list R * t_noises :=
  match ins with
  | [] => ([], x)
  | fr :: ins' =>
      let '(sample, x) := perform_sample x fr in
      let '(out, x) := noises_perform64 x ins' in
      (sample :: out, x)
  end.

(** [noises_init_generators]: everything but the random state, the held
    parameters, the smoothers and the DC blocker is reset. *)
Definition noises_init_generators (x : t_noises) : t_noises :=
  let fc := 1000 / sr x in
  let q := 707 / 1000 in
  let omega := 2 * PI * fc in
  let cos_omega := cos omega in
  let sin_omega := sin omega in
  let alpha := sin_omega / (2 * q) in
  mk_noises (sr x) (sr_inv x) (morphing_enabled x) (dc_blocking_enabled x)
    (seed_auto x) (filter_quality x) (type_float x) (amplitude_float x)
    (type_has_signal x) (amplitude_has_signal x) (type_smooth x)
    (amplitude_smooth x) (smooth_factor x) (rng_state x)
    (replicate (Z.to_nat PINK_BITS) 0) 0 0 (2 ^ PINK_BITS - 1)%Z
    (1 / IZR (2 ^ (PINK_BITS + 1)))
    0 (9999 / 10000) 0 0 0 0 0 0
    ((-2 * cos_omega) / (1 + alpha)) ((1 - alpha) / (1 + alpha))
    ((1 + alpha) / (1 + alpha)) ((-2 * cos_omega) / (1 + alpha))
    ((1 - alpha) / (1 + alpha))
    (dc_block_x1 x) (dc_block_y1 x).

(** [noises_seed]: [(uint32_t)seed], zero avoided, auto seeding off. *)
Definition noises_seed (x : t_noises) (seed : Z) : t_noises :=
  let s := u32 seed in
  let s := if (s =? 0)%Z then 1%Z else s in
  let x := set_rng x s in
  noises_init_generators
    (mk_noises (sr x) (sr_inv x) (morphing_enabled x) (dc_blocking_enabled x)
       0 (filter_quality x) (type_float x) (amplitude_float x)
       (type_has_signal x) (amplitude_has_signal x) (type_smooth x)
       (amplitude_smooth x) (smooth_factor x) (rng_state x) (pink_rows x)
       (pink_running_sum x) (pink_index x) (pink_index_mask x) (pink_scalar x)
       (brown_state x) (brown_leak x) (prev_white x) (prev_blue x) (grey_x1 x)
       (grey_x2 x) (grey_y1 x) (grey_y2 x) (grey_a1 x) (grey_a2 x) (grey_b0 x)
       (grey_b1 x) (grey_b2 x) (dc_block_x1 x) (dc_block_y1 x)).

(** [noises_new] without attribute arguments.  [addr] is the address of the
    new object and [now] is [systime_ms()]: with the default [seed_auto = 1]
    they make the first random state, so two instances start apart. *)
Definition noises_new (addr now : Z) (argv : list t_atom) : t_noises :=
  let arg (i : nat) (d : R) :=
    match argv !! i with Some (A_FLOAT f) => f | _ => d end in
  let type := fmax MIN_TYPE (fmin MAX_TYPE (arg 0%nat 0)) in
  let amp := fmax MIN_AMPLITUDE (fmin MAX_AMPLITUDE (arg 1%nat (1 / 2))) in
  let s := u32 (Z.lxor addr now) in
  let s := if (s =? 0)%Z then 1%Z else s in
  let x :=
    noises_init_generators
      (mk_noises 44100 (1 / 44100) 1 1 1 1 type amp 0 0 type amp (1 / 1000) s
         [] 0 0 0 0 0 0 0 0 0 0 0 0 0 0 0 0 0 0 0) in
  set_dc x 0 0.

(** [noises_dsp64]. *)
Definition noises_dsp64 (x : t_noises) (count : Z * Z) (samplerate : R)
    : t_noises :=
  noises_init_generators
    (mk_noises samplerate (1 / samplerate) (morphing_enabled x)
       (dc_blocking_enabled x) (seed_auto x) (filter_quality x) (type_float x)
       (amplitude_float x) (fst count) (snd count) (type_smooth x)
       (amplitude_smooth x) (1 - exp (-1 / ((1 / 100) * samplerate)))
       (rng_state x) (pink_rows x) (pink_running_sum x) (pink_index x)
       (pink_index_mask x) (pink_scalar x) (brown_state x) (brown_leak x)
       (prev_white x) (prev_blue x) (grey_x1 x) (grey_x2 x) (grey_y1 x)
       (grey_y2 x) (grey_a1 x) (grey_a2 x) (grey_b0 x) (grey_b1 x) (grey_b2 x)
       (dc_block_x1 x) (dc_block_y1 x)).

(** [noises_float], [noises_type] and [noises_amp]. *)
Definition noises_type (x : t_noises) (f : R) : t_noises :=
  mk_noises (sr x) (sr_inv x) (morphing_enabled x) (dc_blocking_enabled x)
    (seed_auto x) (filter_quality x) (fmax MIN_TYPE (fmin MAX_TYPE f))
    (amplitude_float x)
    (type_has_signal x) (amplitude_has_signal x) (type_smooth x)
    (amplitude_smooth x) (smooth_factor x) (rng_state x) (pink_rows x)
    (pink_running_sum x) (pink_index x) (pink_index_mask x) (pink_scalar x)
    (brown_state x) (brown_leak x) (prev_white x) (prev_blue x) (grey_x1 x)
    (grey_x2 x) (grey_y1 x) (grey_y2 x) (grey_a1 x) (grey_a2 x) (grey_b0 x)
    (grey_b1 x) (grey_b2 x) (dc_block_x1 x) (dc_block_y1 x).

Definition noises_amp (x : t_noises) (f : R) : t_noises :=
  mk_noises (sr x) (sr_inv x) (morphing_enabled x) (dc_blocking_enabled x)
    (seed_auto x) (filter_quality x) (type_float x)
    (fmax MIN_AMPLITUDE (fmin MAX_AMPLITUDE f))
    (type_has_signal x) (amplitude_has_signal x) (type_smooth x)
    (amplitude_smooth x) (smooth_factor x) (rng_state x) (pink_rows x)
    (pink_running_sum x) (pink_index x) (pink_index_mask x) (pink_scalar x)
    (brown_state x) (brown_leak x) (prev_white x) (prev_blue x) (grey_x1 x)
    (grey_x2 x) (grey_y1 x) (grey_y2 x) (grey_a1 x) (grey_a2 x) (grey_b0 x)
    (grey_b1 x) (grey_b2 x) (dc_block_x1 x) (dc_block_y1 x).

(** The messages an instance receives from the host. *)
Inductive t_msg : Type :=
| MSeed (seed : Z)
| MDsp (count : Z * Z) (samplerate : R)
| MType (f : R)
| MAmp (f : R)
| MPerform (ins : list t_frame).

(** One host call on one instance; a message yields no samples. *)
Definition instance_step (x : t_noises) (m : t_msg) : list R * t_noises :=
  match m with
  | MSeed seed => ([], noises_seed x seed)
  | MDsp count samplerate => ([], noises_dsp64 x count samplerate)
  | MType f => ([], noises_type x f)
  | MAmp f => ([], noises_amp x f)
  | MPerform ins => noises_perform64 x ins
  end.

Fixpoint instance_run (x : t_noises) (ms : list t_msg)
    : list (list R) * t_noises :=
  match ms with
  | [] => ([], x)
  | m :: ms' =>
      let '(out, x) := instance_step x m in
      let '(outs, x) := instance_run x ms' in
      (out :: outs, x)
  end.

(** All the instances of a patcher, with the [static randSeed] of
    [pink_random].  No function of the source calls [pink_random], so no host
    call reads or writes [randSeed]. *)
Record t_world : Type := mk_world {
  randSeed : Z;
  instances : list t_noises
}.

(** A host call addressed to instance [i]. *)
Definition world_step (w : t_world) (ev : nat * t_msg)
    : t_world * (nat * list R) :=
  match instances w !! ev.1 with
  | Some x =>
      let '(out, x') := instance_step x ev.2 in
      (mk_world (randSeed w) (<[ev.1 := x']> (instances w)), (ev.1, out))
  | None => (w, (ev.1, []))
  end.

Fixpoint world_run (w : t_world) (evs : list (nat * t_msg))
    : t_world * list (nat * list R) :=
  match evs with
  | [] => (w, [])
  | ev :: evs' =>
      let '(w', out) := world_step w ev in
      let '(w'', outs) := world_run w' evs' in
      (w'', out :: outs)
  end.

(** The blocks that instance [i] received or produced, in order. *)
Definition of_instance {A : Type} (i : nat) (l : list (nat * A)) : list A :=
  map snd (filter (fun e => e.1 = i) l).



(** A message that puts out no samples. *)
Definition is_control (m : t_msg) : Prop :=
  match m with MPerform _ => False | _ => True end.

(** Two instances that differ at most in the state of the random
    generator. *)
Definition same_but_rng (x y : t_noises) : Prop := set_rng x 0 = set_rng y 0.

(** A patcher with two instances created at different addresses and
    times. *)
Definition two_instances : t_world :=
  mk_world 22222 [noises_new 4096 10 []; noises_new 8192 20 []].

(** [noises_float]: inlet 0 holds the type, inlet 1 the amplitude. *)
Definition noises_float (x : t_noises) (inlet : Z) (f : R) : t_noises :=
  if (inlet =? 0)%Z then noises_type x f
  else if (inlet =? 1)%Z then noises_amp x f
  else x.

(** A state that [xorshift32] can step: a 32-bit value other than zero. *)
Definition rng_ok (x : t_noises) : Prop := (0 < rng_state x < 2 ^ 32)%Z.

(** The memories of the generators in their ranges: the random state, the
    five rows of the pink generator (each in [-1,1], their sum in
    [pink_running_sum]) and the last samples kept by the two
    differentiators. *)
Definition generators_ok (x : t_noises) : Prop :=
  rng_ok x /\
  length (pink_rows x) = Z.to_nat PINK_BITS /\
  Forall (fun v => -1 <= v <= 1) (pink_rows x) /\
  pink_running_sum x = fold_right Rplus 0 (pink_rows x) /\
  -1 <= prev_white x <= 1 /\ - (12 / 10) <= prev_blue x <= 12 / 10.

(** The type held at white (0 or below) with nothing connected to the
    type inlet, the smoothers in their ranges. *)
Definition white_held (x : t_noises) : Prop :=
  generators_ok x /\ truthy (type_has_signal x) = false /\
  type_float x <= 0 /\ type_smooth x = 0 /\
  0 <= amplitude_smooth x <= 1 /\ 0 <= smooth_factor x <= 1.

(** The fields that the generators never write. *)
Definition controls (x : t_noises)
    : R * Z * Z * R * R * Z * Z * R * R * R :=
  (sr x, morphing_enabled x, dc_blocking_enabled x, type_float x,
   amplitude_float x, type_has_signal x, amplitude_has_signal x,
   type_smooth x, amplitude_smooth x, smooth_factor x).

End Noises.

(** ** ssm2044~.c *)

Module Ssm2044.

Definition RESONANCE_SCALE : R := 4.
Definition MAX_RESONANCE : R := 4.
Definition INPUT_DRIVE : R := 3 / 2.
Definition FEEDBACK_DRIVE : R := 2.

Record t_ssm2044 : Type := mk_ssm2044 {
  state1 : R;
  state2 : R;
  state3 : R;
  state4 : R;
  feedback_sample : R;
  sr : R;
  sr_inv : R;
  cutoff_float : R;
  resonance_float : R;
  gain_float : R;
  cutoff_has_signal : Z;
  resonance_has_signal : Z;
  gain_has_signal : Z;
  g : R;
  k : R;
  oversample_factor : Z;
  character_mode : Z;
  self_oscillation : Z;
  warmth_amount : R;
  resonance_compensation : Z
}.

(** One frame of the four signal inlets. *)
Record t_frame : Type := mk_frame {
  audio_in : R;
  cutoff_in : R;
  resonance_in : R;
  gain_in : R
}.

Definition soft_saturation (input drive : R) : R :=
  if Rle_dec drive 0 then input
  else
    let driven := input * drive in
    let saturated := tanh driven in
    saturated / drive.

Definition set_coefficients (x : t_ssm2044) (g' k' : R) : t_ssm2044 :=
  mk_ssm2044 (state1 x) (state2 x) (state3 x) (state4 x) (feedback_sample x)
    (sr x) (sr_inv x) (cutoff_float x) (resonance_float x) (gain_float x)
    (cutoff_has_signal x) (resonance_has_signal x) (gain_has_signal x)
    g' k' (oversample_factor x) (character_mode x) (self_oscillation x)
    (warmth_amount x) (resonance_compensation x).

Definition set_states (x : t_ssm2044) (s1 s2 s3 s4 fb : R) : t_ssm2044 :=
  mk_ssm2044 s1 s2 s3 s4 fb
    (sr x) (sr_inv x) (cutoff_float x) (resonance_float x) (gain_float x)
    (cutoff_has_signal x) (resonance_has_signal x) (gain_has_signal x)
    (g x) (k x) (oversample_factor x) (character_mode x) (self_oscillation x)
    (warmth_amount x) (resonance_compensation x).

Definition compute_filter_coefficients (x : t_ssm2044) (cutoff resonance : R)
    : t_ssm2044 :=
  let cutoff := CLAMP cutoff 20 (sr x * (45 / 100)) in
  let omega := 2 * PI * cutoff in
  let omega_warped := tan (omega * sr_inv x * (1 / 2)) in
  let g' := omega_warped / (1 + omega_warped) in
  let g' := CLAMP g' 0 (99 / 100) in
  let k' := resonance * RESONANCE_SCALE in
  let k' :=
    if truthy (resonance_compensation x) then
      let compensation := 1 / (1 + resonance * (3 / 10)) in
      k' * compensation
    else k' in
  set_coefficients x g' k'.

Definition ssm2044_process_sample (x : t_ssm2044)
    (input cutoff resonance gain : R) : R * t_ssm2044 :=
  let x := compute_filter_coefficients x cutoff resonance in
  let scaled_input := input * gain in
  let drive_amount :=
    if (character_mode x =? 0)%Z then INPUT_DRIVE * (1 / 2)
    else if (character_mode x =? 2)%Z then INPUT_DRIVE * 2
    else INPUT_DRIVE in
  let saturated_input := soft_saturation scaled_input drive_amount in
  let feedback_drive := FEEDBACK_DRIVE * warmth_amount x in
  let saturated_feedback := soft_saturation (feedback_sample x) feedback_drive in
  let actual_k := if truthy (self_oscillation x) then k x else k x * (8 / 10) in
  let fb_input := saturated_input + actual_k * saturated_feedback in
  let stage1_out := state1 x + g x * (fb_input - state1 x) in
  let stage2_out := state2 x + g x * (stage1_out - state2 x) in
  let stage3_out := state3 x + g x * (stage2_out - state3 x) in
  let stage4_out := state4 x + g x * (stage3_out - state4 x) in
  (stage4_out,
   set_states x (denormal_fix stage1_out) (denormal_fix stage2_out)
     (denormal_fix stage3_out) (denormal_fix stage4_out) stage4_out).

(** One trip of the sample loop of [ssm2044_perform64]. *)
Definition perform_sample (x : t_ssm2044) (fr : t_frame) : R * t_ssm2044 :=
  let audio := audio_in fr in
  let cutoff :=
    if truthy (cutoff_has_signal x) then cutoff_in fr else cutoff_float x in
  let resonance :=
    if truthy (resonance_has_signal x) then resonance_in fr
    else resonance_float x in
  let gain := if truthy (gain_has_signal x) then gain_in fr else gain_float x in
  let cutoff := CLAMP cutoff 20 20000 in
  let resonance := CLAMP resonance 0 MAX_RESONANCE in
  let gain := CLAMP gain 0 4 in
  let '(filtered, x) := ssm2044_process_sample x audio cutoff resonance gain in
  (denormal_fix filtered, x).

Fixpoint ssm2044_perform64 (x : t_ssm2044) (ins : list t_frame)
    : list R * t_ssm2044 :=
  match ins with
  | [] => ([], x)
  | fr :: ins' =>
      let '(sample, x) := perform_sample x fr in
      let '(out, x) := ssm2044_perform64 x ins' in
      (sample :: out, x)
  end.

(** [ssm2044_new] without attribute arguments: [sr0] is [sys_getsr()]. *)
Definition ssm2044_new (sr0 : R) (argv : list t_atom) : t_ssm2044 :=
  let arg_ok (i : nat) :=
    match argv !! i with Some a => atom_is_number a | None => false end in
  let arg (i : nat) := atom_getfloat (nth i argv (A_LONG 0)) in
  mk_ssm2044 0 0 0 0 0 sr0 (1 / sr0)
    (if arg_ok 0%nat then CLAMP (arg 0%nat) 20 20000 else 1000)
    (if arg_ok 1%nat then CLAMP (arg 1%nat) 0 4 else 1 / 2)
    (if arg_ok 2%nat then CLAMP (arg 2%nat) 0 4 else 1)
    0 0 0 0 0 1 1 1 (1 / 2) 1.

(** [ssm2044_dsp64]: [count] holds the connection counts of inlets 1 to 3. *)
Definition ssm2044_dsp64 (x : t_ssm2044) (count : Z * Z * Z) (samplerate : R)
    : t_ssm2044 :=
  let '(c1, c2, c3) := count in
  mk_ssm2044 (state1 x) (state2 x) (state3 x) (state4 x) (feedback_sample x)
    samplerate (1 / samplerate) (cutoff_float x) (resonance_float x)
    (gain_float x) c1 c2 c3 (g x) (k x) (oversample_factor x)
    (character_mode x) (self_oscillation x) (warmth_amount x)
    (resonance_compensation x).

(** [ssm2044_float] on the inlets 1 to 3. *)
Definition ssm2044_float (x : t_ssm2044) (inlet : Z) (f : R) : t_ssm2044 :=
  mk_ssm2044 (state1 x) (state2 x) (state3 x) (state4 x) (feedback_sample x)
    (sr x) (sr_inv x)
    (if (inlet =? 1)%Z then CLAMP f 20 20000 else cutoff_float x)
    (if (inlet =? 2)%Z then CLAMP f 0 MAX_RESONANCE else resonance_float x)
    (if (inlet =? 3)%Z then CLAMP f 0 4 else gain_float x)
    (cutoff_has_signal x) (resonance_has_signal x) (gain_has_signal x)
    (g x) (k x) (oversample_factor x) (character_mode x) (self_oscillation x)
    (warmth_amount x) (resonance_compensation x).

(** [ssm2044_attr_setwarmth] and [ssm2044_attr_setcharacter]. *)
Definition ssm2044_attr_setwarmth (x : t_ssm2044) (f : R) : t_ssm2044 :=
  mk_ssm2044 (state1 x) (state2 x) (state3 x) (state4 x) (feedback_sample x)
    (sr x) (sr_inv x) (cutoff_float x) (resonance_float x) (gain_float x)
    (cutoff_has_signal x) (resonance_has_signal x) (gain_has_signal x)
    (g x) (k x) (oversample_factor x) (character_mode x) (self_oscillation x)
    (CLAMP f 0 1) (resonance_compensation x).

Definition ssm2044_attr_setcharacter (x : t_ssm2044) (m : Z) : t_ssm2044 :=
  mk_ssm2044 (state1 x) (state2 x) (state3 x) (state4 x) (feedback_sample x)
    (sr x) (sr_inv x) (cutoff_float x) (resonance_float x) (gain_float x)
    (cutoff_has_signal x) (resonance_has_signal x) (gain_has_signal x)
    (g x) (k x) (oversample_factor x) (CLAMPZ m 0 2) (self_oscillation x)
    (warmth_amount x) (resonance_compensation x).

(** The bound that the filter keeps when the feedback is saturated: the
    larger of the four states it starts from and of the largest input of
    the first stage, [1 / 0.75 + 16 / (2 * warmth)]. *)
Definition ssm_bound (x : t_ssm2044) : R :=
  Rmax (Rmax (Rmax (Rabs (state1 x)) (Rabs (state2 x)))
          (Rmax (Rabs (state3 x)) (Rabs (state4 x))))
       (4 / 3 + 8 / warmth_amount x).

(** A new filter (resonance 0.5, vintage character, unit gain) with the
    warmth attribute set to 0 and the cutoff to 11025 Hz, run at 44100 Hz
    with no control signal connected. *)
Definition cold_instance : t_ssm2044 :=
  ssm2044_dsp64
    (ssm2044_float (ssm2044_attr_setwarmth (ssm2044_new 44100 []) 0) 1 11025)
    (0, 0, 0)%Z 44100.

Definition silence : t_frame := mk_frame 0 0 0 0.

(** One input sample of 1.0 followed by [n] samples of silence. *)
Definition impulse (n : nat) : list t_frame :=
  mk_frame 1 0 0 0 :: replicate n silence.

(** The last output sample of [cold_instance] on [impulse n]. *)
Definition impulse_response (n : nat) : R :=
  tbl (ssm2044_perform64 cold_instance (impulse n)).1 (Z.of_nat n).

(** The settings of [cold_instance], kept by every sample. *)
Definition cold_config (x : t_ssm2044) : Prop :=
  sr x = 44100 /\ sr_inv x = 1 / 44100 /\
  cutoff_float x = 11025 /\ resonance_float x = 1 / 2 /\ gain_float x = 1 /\
  cutoff_has_signal x = 0%Z /\ resonance_has_signal x = 0%Z /\
  gain_has_signal x = 0%Z /\
  character_mode x = 1%Z /\ self_oscillation x = 1%Z /\
  warmth_amount x = 0 /\ resonance_compensation x = 1%Z.

(** The four states and the feedback tap are all at least [m]. *)
Definition states_above (m : R) (x : t_ssm2044) : Prop :=
  m <= state1 x /\ m <= state2 x /\ m <= state3 x /\ m <= state4 x /\
  m <= feedback_sample x.

(** [ssm2044_int]: the same [switch] as [ssm2044_float] on [(double)n]. *)
Definition ssm2044_int (x : t_ssm2044) (inlet : Z) (n : Z) : t_ssm2044 :=
  mk_ssm2044 (state1 x) (state2 x) (state3 x) (state4 x) (feedback_sample x)
    (sr x) (sr_inv x)
    (if (inlet =? 1)%Z then CLAMP (IZR n) 20 20000 else cutoff_float x)
    (if (inlet =? 2)%Z then CLAMP (IZR n) 0 MAX_RESONANCE
     else resonance_float x)
    (if (inlet =? 3)%Z then CLAMP (IZR n) 0 4 else gain_float x)
    (cutoff_has_signal x) (resonance_has_signal x) (gain_has_signal x)
    (g x) (k x) (oversample_factor x) (character_mode x) (self_oscillation x)
    (warmth_amount x) (resonance_compensation x).

(** The filter with no signal in it: the four states and the feedback tap
    are zero. *)
Definition at_rest (x : t_ssm2044) : Prop :=
  state1 x = 0 /\ state2 x = 0 /\ state3 x = 0 /\ state4 x = 0 /\
  feedback_sample x = 0.

(** The same filter with the sign of its memory turned, and a frame with
    the sign of its audio sample turned. *)
Definition negate (x : t_ssm2044) : t_ssm2044 :=
  set_states x (- state1 x) (- state2 x) (- state3 x) (- state4 x)
    (- feedback_sample x).

Definition negate_audio (fr : t_frame) : t_frame :=
  mk_frame (- audio_in fr) (cutoff_in fr) (resonance_in fr) (gain_in fr).

(** The bound that the filter keeps at a low resonance, whatever the
    warmth: the largest magnitude among the four states and the feedback tap
    it starts from, and 20/3. *)
Definition ssm_low_bound (x : t_ssm2044) : R :=
  Rmax (Rmax (Rmax (Rabs (state1 x)) (Rabs (state2 x)))
          (Rmax (Rabs (state3 x)) (Rabs (state4 x))))
       (Rmax (Rabs (feedback_sample x)) (20 / 3)).

(** The resonance that the sample loop reads for a frame, before it clamps
    it: the signal when one is connected, the stored float otherwise. *)
Definition resonance_used (x : t_ssm2044) (fr : t_frame) : R :=
  if truthy (resonance_has_signal x) then resonance_in fr
  else resonance_float x.

End Ssm2044.

(** * Properties *)

(** ** Shared arithmetic *)

Section CMathFacts.

(** A read at an index that is not negative. *)
Lemma tbl_nth (table : list R) (i : Z) :
  (0 <= i)%Z -> tbl table i = nth (Z.to_nat i) table 0.
Proof.
  intros Hi. unfold tbl. destruct (Z.ltb_spec i 0); [lia|reflexivity].
Qed.

Lemma tbl_of_nat (table : list R) (n : nat) :
  tbl table (Z.of_nat n) = nth n table 0.
Proof. rewrite tbl_nth by lia. rewrite Nat2Z.id. reflexivity. Qed.

Lemma CLAMP_bounds (a lo hi : R) : lo <= hi -> lo <= CLAMP a lo hi <= hi.
Proof.
  intros Hle. unfold CLAMP.
  destruct (Rlt_dec lo a); [destruct (Rlt_dec a hi)|]; lra.
Qed.

Lemma CLAMP_id (a lo hi : R) : lo < a -> a < hi -> CLAMP a lo hi = a.
Proof.
  intros H1 H2. unfold CLAMP.
  destruct (Rlt_dec lo a); [destruct (Rlt_dec a hi)|]; lra.
Qed.

Lemma fmax_fmin_bounds (a lo hi : R) :
  lo <= hi -> lo <= fmax lo (fmin hi a) <= hi.
Proof.
  intros Hle. unfold fmax, fmin, Rmax, Rmin.
  destruct (Rle_dec hi a); destruct (Rle_dec lo _); lra.
Qed.

Lemma denormal_fix_abs (v : R) : Rabs (denormal_fix v) <= Rabs v.
Proof.
  unfold denormal_fix, fabs.
  destruct (Rlt_dec (Rabs v) DENORMAL_THRESHOLD); [|lra].
  rewrite Rabs_R0. apply Rabs_pos.
Qed.

Lemma denormal_threshold_pos : 0 < DENORMAL_THRESHOLD.
Proof. unfold DENORMAL_THRESHOLD. apply Rinv_0_lt_compat. apply pow_lt. lra. Qed.

Lemma Rmax_eq_r (a b : R) : a <= b -> Rmax a b = b.
Proof. intros. unfold Rmax. destruct (Rle_dec a b); lra. Qed.

Lemma Rmin_eq_l (a b : R) : a <= b -> Rmin a b = a.
Proof. intros. unfold Rmin. destruct (Rle_dec a b); lra. Qed.

Lemma Rmin_eq_r (a b : R) : b <= a -> Rmin a b = b.
Proof. intros. unfold Rmin. destruct (Rle_dec a b); lra. Qed.

Lemma Rabs_le_both (a b : R) : Rabs a <= b -> - b <= a <= b.
Proof.
  intros H. pose proof (Rle_abs a). pose proof (Rle_abs (- a)) as Hn.
  rewrite Rabs_Ropp in Hn. lra.
Qed.

Lemma denormal_threshold_small : DENORMAL_THRESHOLD < / 1000.
Proof.
  unfold DENORMAL_THRESHOLD. apply Rinv_lt_contravar; simpl; lra.
Qed.

(** *** Truncation *)

Lemma trunc_spec (r : R) (z : Z) :
  0 <= r -> IZR z <= r < IZR z + 1 -> trunc r = z.
Proof.
  intros Hr Hz. unfold trunc. destruct (Rle_dec 0 r) as [_|Hn]; [|lra].
  symmetry. apply Int_part_spec. lra.
Qed.

Lemma trunc_bounds (r : R) :
  0 <= r -> IZR (trunc r) <= r < IZR (trunc r) + 1.
Proof.
  intros Hr. unfold trunc. destruct (Rle_dec 0 r) as [_|Hn]; [|lra].
  pose proof (base_Int_part r). lra.
Qed.

Lemma trunc_nonneg (r : R) : 0 <= r -> (0 <= trunc r)%Z.
Proof.
  intros Hr. pose proof (trunc_bounds r Hr) as Hb.
  apply Z.lt_succ_r. apply lt_IZR. rewrite succ_IZR. lra.
Qed.

Lemma fold_Rmax_ge (l : list R) (v : R) :
  In v l -> v <= fold_right Rmax 0 l.
Proof.
  induction l as [|hd tl IH]; simpl; [tauto|].
  intros [->|Hin].
  - apply Rmax_l.
  - eapply Rle_trans; [apply IH; exact Hin|apply Rmax_r].
Qed.

Lemma fold_Rmax_le (l : list R) (c : R) :
  0 <= c -> (forall v, In v l -> v <= c) -> fold_right Rmax 0 l <= c.
Proof.
  intros Hc. induction l as [|hd tl IH]; simpl; intros Hall; [exact Hc|].
  apply Rmax_lub; [apply Hall; left; reflexivity|].
  apply IH. intros v Hv. apply Hall. right. exact Hv.
Qed.

(** *** The exponential of the envelopes *)

Lemma exp_pow_nat (y : R) (n : nat) : exp y ^ n = exp (INR n * y).
Proof.
  induction n as [|n IH].
  - simpl. rewrite Rmult_0_l, exp_0. reflexivity.
  - rewrite S_INR. simpl pow. rewrite IH, <- exp_plus. f_equal. ring.
Qed.

Lemma exp_neg_lt_1 (y : R) : 0 < y -> exp (- y) < 1.
Proof.
  intros Hy. rewrite <- exp_0. apply exp_increasing. lra.
Qed.

Lemma exp_neg_lower (y : R) : 0 < y -> 1 - y < exp (- y).
Proof.
  intros Hy. pose proof (exp_ineq1 (- y)) as H. lra.
Qed.

Lemma exp_neg_2_lower : / 9 <= exp (- 2).
Proof.
  replace (- 2) with (- (1 + 1)) by ring.
  rewrite exp_Ropp. apply Rinv_le_contravar; [apply exp_pos|].
  rewrite exp_plus.
  pose proof exp_le_3 as H3. pose proof (exp_pos 1) as Hp. nra.
Qed.

(** A rational with a power of a rational below it, decided on integers. *)
Lemma ratio_le_pow (a b c d : Z) (n : nat) :
  (0 < b)%Z -> (0 < d)%Z ->
  (a * d ^ Z.of_nat n <= b * c ^ Z.of_nat n)%Z ->
  IZR a / IZR b <= (IZR c / IZR d) ^ n.
Proof.
  intros Hb Hd Hle.
  assert (Hb' : 0 < IZR b) by (apply IZR_lt; exact Hb).
  assert (Hd' : 0 < IZR d) by (apply IZR_lt; exact Hd).
  assert (Hdn : 0 < IZR d ^ n) by (apply pow_lt; exact Hd').
  unfold Rdiv. rewrite Rpow_mult_distr, pow_inv.
  apply Rmult_le_reg_r with (IZR b * IZR d ^ n); [nra|].
  replace (IZR a * / IZR b * (IZR b * IZR d ^ n)) with (IZR a * IZR d ^ n)
    by (field; lra).
  replace (IZR c ^ n * / IZR d ^ n * (IZR b * IZR d ^ n))
    with (IZR b * IZR c ^ n) by (field; lra).
  rewrite !pow_IZR, <- !mult_IZR. apply IZR_le. exact Hle.
Qed.

Lemma exp_m1_lower : 3675 / 10000 <= exp (-1).
Proof.
  replace (exp (-1)) with (exp (INR 512 * (- / 512))).
  2:{ f_equal. rewrite INR_IZR_INZ. simpl. field. }
  rewrite <- exp_pow_nat.
  apply Rle_trans with ((511 / 512) ^ 512).
  - apply (ratio_le_pow 3675 10000 511 512 512); [lia|lia|].
    vm_compute. discriminate.
  - apply pow_incr. split; [lra|].
    pose proof (exp_ineq1 (- / 512)). lra.
Qed.

Lemma exp_1_lower : 2715 / 1000 <= exp 1.
Proof.
  replace (exp 1) with (exp (INR 512 * (/ 512))).
  2:{ f_equal. rewrite INR_IZR_INZ. simpl. field. }
  rewrite <- exp_pow_nat.
  apply Rle_trans with ((513 / 512) ^ 512).
  - apply (ratio_le_pow 2715 1000 513 512 512); [lia|lia|].
    vm_compute. discriminate.
  - apply pow_incr. split; [lra|].
    pose proof (exp_ineq1 (/ 512)). lra.
Qed.

Lemma exp_m1_approx : Rabs (exp (-1) - 3679 / 10000) < 1 / 1000.
Proof.
  pose proof exp_m1_lower as Hlo. pose proof exp_1_lower as H1.
  assert (Hup : exp (-1) <= 1000 / 2715).
  { replace (-1) with (- (1)) by ring. rewrite exp_Ropp.
    replace (1000 / 2715) with (/ (2715 / 1000)) by field.
    apply Rinv_le_contravar; lra. }
  apply Rabs_def1; lra.
Qed.

(** *** The hyperbolic tangent of the saturators *)

Lemma tanh_bounds (x : R) : -1 < tanh x < 1.
Proof.
  unfold tanh, sinh, cosh.
  pose proof (exp_pos x) as Ha. pose proof (exp_pos (- x)) as Hb.
  replace ((exp x - exp (- x)) / 2 / ((exp x + exp (- x)) / 2))
    with ((exp x - exp (- x)) / (exp x + exp (- x))) by (field; lra).
  split.
  - apply Rmult_lt_reg_r with (exp x + exp (- x)); [lra|].
    unfold Rdiv. rewrite Rmult_assoc, Rinv_l by lra. lra.
  - apply Rmult_lt_reg_r with (exp x + exp (- x)); [lra|].
    unfold Rdiv. rewrite Rmult_assoc, Rinv_l by lra. lra.
Qed.

Lemma tanh_opp (x : R) : tanh (- x) = - tanh x.
Proof.
  unfold tanh, sinh, cosh. rewrite Ropp_involutive.
  pose proof (exp_pos x). pose proof (exp_pos (- x)).
  field. lra.
Qed.

Lemma tanh_le (x y : R) : x <= y -> tanh x <= tanh y.
Proof.
  intros Hxy. unfold tanh, sinh, cosh.
  pose proof (exp_pos x) as Ha. pose proof (exp_pos (- x)) as Hb.
  pose proof (exp_pos y) as Hc. pose proof (exp_pos (- y)) as Hd.
  assert (Hac : exp x <= exp y).
  { destruct Hxy as [Hlt|Heq]; [left; apply exp_increasing; exact Hlt|].
    subst. lra. }
  assert (Hdb : exp (- y) <= exp (- x)).
  { destruct Hxy as [Hlt|Heq]; [left; apply exp_increasing; lra|].
    subst. lra. }
  replace ((exp x - exp (- x)) / 2 / ((exp x + exp (- x)) / 2))
    with ((exp x - exp (- x)) / (exp x + exp (- x))) by (field; lra).
  replace ((exp y - exp (- y)) / 2 / ((exp y + exp (- y)) / 2))
    with ((exp y - exp (- y)) / (exp y + exp (- y))) by (field; lra).
  apply Rmult_le_reg_r with ((exp x + exp (- x)) * (exp y + exp (- y)));
    [nra|].
  replace ((exp x - exp (- x)) / (exp x + exp (- x)) *
           ((exp x + exp (- x)) * (exp y + exp (- y))))
    with ((exp x - exp (- x)) * (exp y + exp (- y))) by (field; lra).
  replace ((exp y - exp (- y)) / (exp y + exp (- y)) *
           ((exp x + exp (- x)) * (exp y + exp (- y))))
    with ((exp y - exp (- y)) * (exp x + exp (- x))) by (field; lra).
  nra.
Qed.

Lemma tanh_0 : tanh 0 = 0.
Proof. unfold tanh. rewrite sinh_0. lra. Qed.

Lemma tanh_pos (x : R) : 0 < x -> 0 < tanh x.
Proof.
  intros Hx. unfold tanh, sinh, cosh.
  pose proof (exp_pos x) as Ha. pose proof (exp_pos (- x)) as Hb.
  assert (Hlt : exp (- x) < exp x) by (apply exp_increasing; lra).
  apply Rdiv_lt_0_compat; lra.
Qed.

(** [tanh (input * drive) / tanh drive] with the input no larger than one in
    magnitude and a positive drive. *)
Lemma tanh_ratio_bounds (input drive : R) :
  -1 <= input <= 1 -> 0 < drive ->
  -1 <= tanh (input * drive) / tanh drive <= 1.
Proof.
  intros Hin Hd.
  pose proof (tanh_pos drive Hd) as Hpos.
  assert (Hup : tanh (input * drive) <= tanh drive) by (apply tanh_le; nra).
  assert (Hlo : - tanh drive <= tanh (input * drive)).
  { rewrite <- tanh_opp. apply tanh_le. nra. }
  split.
  - apply Rmult_le_reg_r with (tanh drive); [exact Hpos|].
    unfold Rdiv. rewrite Rmult_assoc, Rinv_l by lra. lra.
  - apply Rmult_le_reg_r with (tanh drive); [exact Hpos|].
    unfold Rdiv. rewrite Rmult_assoc, Rinv_l by lra. lra.
Qed.

(** [tanh (v * drive) / drive] is at most [1 / drive] in magnitude. *)
Lemma tanh_over_drive (v drive : R) :
  0 < drive -> Rabs (tanh (v * drive) / drive) <= / drive.
Proof.
  intros Hd. pose proof (tanh_bounds (v * drive)) as Ht.
  pose proof (Rinv_0_lt_compat drive Hd) as Hi.
  unfold Rdiv. apply Rabs_le. split; nra.
Qed.

(** The subtracting loop stops after at most [n] trips when the phase is
    below [n + 1]; its result does not depend on the fuel left over. *)
Lemma wrap_down_fuel (n : nat) : forall p : R,
  p < INR n + 1 ->
  exists q, q < 1 /\ (0 <= p -> 0 <= q) /\ (p < 1 -> q = p) /\
            forall fuel, (n <= fuel)%nat -> wrap_down fuel p = Some q.
Proof.
  induction n as [|n IH]; intros p Hp.
  - simpl in Hp. exists p. repeat split; try lra.
    intros fuel _. destruct fuel; simpl; destruct (Rge_dec p 1); try lra;
      reflexivity.
  - rewrite S_INR in Hp.
    destruct (Rge_dec p 1) as [Hge|Hlt].
    + destruct (IH (p - 1)) as (q & Hq1 & Hq0 & _ & Hq); [lra|].
      exists q. repeat split; try assumption; try (intros; lra).
      intros fuel Hfuel. destruct fuel as [|fuel]; [lia|]. simpl.
      destruct (Rge_dec p 1); [|lra]. apply Hq. lia.
    + exists p. repeat split; try lra.
      intros fuel _. destruct fuel; simpl; destruct (Rge_dec p 1); try lra;
        reflexivity.
Qed.

Lemma wrap_up_fuel (n : nat) : forall p : R,
  - INR n <= p ->
  exists q, 0 <= q /\ (p < 1 -> q < 1) /\ (0 <= p -> q = p) /\
            forall fuel, (n <= fuel)%nat -> wrap_up fuel p = Some q.
Proof.
  induction n as [|n IH]; intros p Hp.
  - simpl in Hp. exists p. repeat split; try lra.
    intros fuel _. destruct fuel; simpl; destruct (Rlt_dec p 0); try lra;
      reflexivity.
  - rewrite S_INR in Hp.
    destruct (Rlt_dec p 0) as [Hlt|Hge].
    + destruct (IH (p + 1)) as (q & Hq0 & Hq1 & _ & Hq); [lra|].
      exists q. repeat split; try assumption; try (intros; lra).
      intros fuel Hfuel. destruct fuel as [|fuel]; [lia|]. simpl.
      destruct (Rlt_dec p 0); [|lra]. apply Hq. lia.
    + exists p. repeat split; try lra.
      intros fuel _. destruct fuel; simpl; destruct (Rlt_dec p 0); try lra;
        reflexivity.
Qed.

(** Every real lies between two natural bounds. *)
Lemma nat_bound (p : R) : exists n : nat, - INR n <= p /\ p < INR n + 1.
Proof.
  destruct (archimed (Rabs p)) as [Hup _].
  exists (Z.to_nat (up (Rabs p))).
  assert (Hpos : (0 <= up (Rabs p))%Z).
  { apply le_IZR. pose proof (Rabs_pos p). lra. }
  rewrite INR_IZR_INZ, Z2Nat.id by assumption.
  pose proof (Rle_abs p). pose proof (Rle_abs (- p)) as Hn.
  rewrite Rabs_Ropp in Hn. lra.
Qed.

(** The two wrapping loops always finish, and leave the phase in [0,1). *)
Lemma wrap01_total (p : R) :
  exists (n : nat) (q : R), 0 <= q < 1 /\
    forall fuel, (n <= fuel)%nat -> wrap01 fuel p = Some q.
Proof.
  destruct (nat_bound p) as (n & Hlo & Hhi).
  destruct (wrap_down_fuel n p Hhi) as (q & Hq1 & Hq0 & Hid & Hq).
  assert (Hqlo : - INR n <= q).
  { pose proof (pos_INR n). lra. }
  destruct (wrap_up_fuel n q Hqlo) as (r & Hr0 & Hr1 & _ & Hr).
  exists n, r. split; [lra|].
  intros fuel Hfuel. unfold wrap01. rewrite (Hq fuel Hfuel). simpl.
  apply Hr. assumption.
Qed.

(** A phase already in [0,1) goes through both loops untouched. *)
Lemma wrap01_id (fuel : nat) (p : R) : 0 <= p < 1 -> wrap01 fuel p = Some p.
Proof.
  intros [H0 H1]. unfold wrap01.
  assert (Hd : wrap_down fuel p = Some p).
  { destruct fuel; simpl; destruct (Rge_dec p 1); try lra; reflexivity. }
  rewrite Hd. simpl.
  destruct fuel; simpl; destruct (Rlt_dec p 0); try lra; reflexivity.
Qed.

End CMathFacts.

(** ** cycle-2d~: phase accumulator *)

Section Cycle2dPhase.

Import Cycle2d.

(** One trip of the sample loop finishes and leaves the local phase in
    [0,1), whatever the frequency, the phase offset and [sr_inv] are. *)
Lemma cycle2d_perform_sample_total (x : t_cycle2d) (ph : R) (fr : t_frame) :
  exists (n : nat) (ph' s : R), 0 <= ph' < 1 /\
    forall fuel, (n <= fuel)%nat -> perform_sample fuel x ph fr = Some (ph', s).
Proof.
  unfold perform_sample.
  set (freq := CLAMP _ 0 20000).
  set (po := CLAMP (if truthy (phase_has_signal x) then _ else _) 0 1).
  destruct (wrap01_total (ph + freq * sr_inv x)) as (n1 & q & Hq & Hq').
  destruct (wrap01_total (q + po)) as (n2 & r & Hr & Hr').
  exists (Nat.max n1 n2), q. eexists. split; [exact Hq|].
  intros fuel Hfuel.
  rewrite Hq' by lia. simpl. rewrite Hr' by lia. simpl. reflexivity.
Qed.

Lemma cycle2d_perform_loop_total (x : t_cycle2d) (ins : list t_frame) :
  forall ph : R,
  exists (n : nat) (ph' : R) (out : list R),
    (ins <> [] \/ 0 <= ph < 1 -> 0 <= ph' < 1) /\
    length out = length ins /\
    forall fuel, (n <= fuel)%nat ->
      perform_loop fuel x ph ins = Some (ph', out).
Proof.
  induction ins as [|fr ins IH]; intros ph.
  - exists 0%nat, ph, []. split; [|split; reflexivity].
    intros [Hne|Hph]; [congruence|exact Hph].
  - destruct (cycle2d_perform_sample_total x ph fr) as (n1 & q & s & Hq & Hs).
    destruct (IH q) as (n2 & ph' & out & Hph' & Hlen & Hloop).
    exists (Nat.max n1 n2), ph', (s :: out). split; [|split].
    + intros _. apply Hph'. right. exact Hq.
    + simpl. rewrite Hlen. reflexivity.
    + intros fuel Hfuel. simpl.
      rewrite Hs by lia. simpl. rewrite Hloop by lia. simpl. reflexivity.
Qed.

(** X3.  cycle-2d~ keeps the stored phase in [0,1): after any block that
    holds at least one frame, and after an empty block when it was there
    before.  The block always completes: some amount of fuel suffices for
    all its loops. *)
Theorem cycle2d_phase_invariant (x : t_cycle2d) (ins : list t_frame) :
  ins <> [] \/ 0 <= phase x < 1 ->
  exists (n : nat) (x' : t_cycle2d) (out : list R),
    0 <= phase x' < 1 /\ length out = length ins /\
    forall fuel, (n <= fuel)%nat ->
      cycle2d_perform64 fuel x ins = Some (x', out).
Proof.
  intros H.
  destruct (cycle2d_perform_loop_total x ins (phase x))
    as (n & ph' & out & Hph' & Hlen & Hloop).
  exists n, (set_phase x ph'), out. split; [|split].
  - simpl. tauto.
  - exact Hlen.
  - intros fuel Hfuel. unfold cycle2d_perform64.
    rewrite Hloop by assumption. reflexivity.
Qed.

(** A bang resets the phase into the interval as well. *)
Lemma cycle2d_bang_phase (x : t_cycle2d) :
  phase (cycle2d_bang x 0) = 0.
Proof. reflexivity. Qed.

End Cycle2dPhase.

(** ** cycle.fold~: phase accumulator *)

Section CycleFoldPhase.

Import CycleFold.

Lemma frame_frequency_bounds (x : t_cyclefold) (fr : t_frame) :
  1 / 1000 <= frame_frequency x fr <= 20000.
Proof.
  unfold frame_frequency, MIN_FREQUENCY, MAX_FREQUENCY.
  apply fmax_fmin_bounds. lra.
Qed.

(** What a trip of the sample loop does to the phase and to the fields
    that the phase update reads. *)
Lemma cyclefold_perform_sample_phase (fuel : nat) (x x' : t_cyclefold)
    (ph ph' out : R) (fr : t_frame) :
  perform_sample fuel x ph fr = Some (x', ph', out) ->
  ph' = advance_phase ph (frame_frequency x fr) (sr_inv x) /\
  sr_inv x' = sr_inv x /\ sr x' = sr x /\
  frequency_has_signal x' = frequency_has_signal x /\
  frequency_float x' = frequency_float x.
Proof.
  unfold perform_sample, frame_frequency.
  destruct (fold_wave_improved _ _ _ _ _ _) as [folded|]; simpl; [|discriminate].
  destruct (truthy (dc_blocking_enabled x)); simpl;
    intros Heq; inversion Heq; subst; simpl; repeat split; reflexivity.
Qed.

(** With an increment of at most one whole period the single conditional
    subtraction is enough. *)
Lemma advance_phase_unit (ph frequency srinv : R) :
  0 <= ph < 1 -> -1 <= frequency * srinv <= 1 ->
  0 <= advance_phase ph frequency srinv < 1.
Proof.
  intros Hph Hinc. unfold advance_phase.
  pose proof denormal_threshold_pos as Hthr.
  destruct (Rge_dec (ph + frequency * srinv) 1);
    match goal with |- context [Rlt_dec ?a 0] => destruct (Rlt_dec a 0) end;
    match goal with |- context [Rlt_dec (fabs ?a) _] =>
      destruct (Rlt_dec (fabs a) DENORMAL_THRESHOLD) end; lra.
Qed.

(** At the sample rates of an audio interface (20 kHz and above) the
    clamped frequency never advances the phase by more than one period. *)
Lemma cyclefold_perform_loop_phase (fuel : nat) (ins : list t_frame) :
  forall (x x' : t_cyclefold) (ph ph' : R) (out : list R),
  20000 <= sr x -> sr_inv x = 1 / sr x -> 0 <= ph < 1 ->
  perform_loop fuel x ph ins = Some (x', ph', out) ->
  0 <= ph' < 1.
Proof.
  induction ins as [|fr ins IH]; intros x x' ph ph' out Hsr Hinv Hph; simpl.
  - intros Heq. inversion Heq; subst. exact Hph.
  - destruct (perform_sample fuel x ph fr) as [[[x1 ph1] s]|] eqn:Hs;
      simpl; [|discriminate].
    destruct (perform_loop fuel x1 ph1 ins) as [[[x2 ph2] o]|] eqn:Hl;
      simpl; [|discriminate].
    intros Heq. inversion Heq; subst.
    apply cyclefold_perform_sample_phase in Hs.
    destruct Hs as (Hph1 & Hinv1 & Hsr1 & _).
    apply (IH x1 x' ph1 ph' o); try assumption.
    + rewrite Hsr1. exact Hsr.
    + rewrite Hinv1, Hsr1. exact Hinv.
    + rewrite Hph1. apply advance_phase_unit; [exact Hph|].
      pose proof (frame_frequency_bounds x fr) as Hf.
      rewrite Hinv. unfold Rdiv. rewrite Rmult_1_l.
      assert (Hi : 0 < / sr x <= / 20000).
      { split; [apply Rinv_0_lt_compat; lra|].
        apply Rinv_le_contravar; lra. }
      split; nra.
Qed.

(** cycle.fold~ keeps its phase in [0,1) while the sample rate is at least
    the 20 kHz that the frequency is clamped to. *)
Theorem cyclefold_phase_invariant_above_20k (fuel : nat) (x x' : t_cyclefold)
    (ins : list t_frame) (out : list R) :
  20000 <= sr x -> sr_inv x = 1 / sr x -> 0 <= phase x < 1 ->
  cyclefold_perform64 fuel x ins = Some (x', out) ->
  0 <= phase x' < 1.
Proof.
  intros Hsr Hinv Hph. unfold cyclefold_perform64.
  destruct (perform_loop fuel x (phase x) ins) as [[[x1 ph1] o]|] eqn:Hl;
    simpl; [|discriminate].
  intros Heq. inversion Heq; subst. simpl.
  eapply cyclefold_perform_loop_phase; eassumption.
Qed.

Lemma advance_phase_at_8k : advance_phase 0 20000 (1 / 8000) = 3 / 2.
Proof.
  unfold advance_phase.
  pose proof denormal_threshold_pos as Hthr.
  assert (Hsmall : DENORMAL_THRESHOLD < 1).
  { unfold DENORMAL_THRESHOLD. apply Rlt_le_trans with (/ 1).
    - apply Rinv_lt_contravar; simpl; lra.
    - rewrite Rinv_1. lra. }
  destruct (Rge_dec (0 + 20000 * (1 / 8000)) 1) as [_|Hn]; [|lra].
  destruct (Rlt_dec (0 + 20000 * (1 / 8000) - 1) 0) as [Hn|_]; [lra|].
  destruct (Rlt_dec (fabs (0 + 20000 * (1 / 8000) - 1)) DENORMAL_THRESHOLD)
    as [Hn|_]; [|lra].
  unfold fabs in Hn. rewrite Rabs_right in Hn; lra.
Qed.

End CycleFoldPhase.

(** ** cycle.fold~: the failing run and the folding nonlinearity *)

Section CycleFoldFolding.

Import CycleFold.

Lemma reflect_loop_inside (fuel : nat) (t v : R) :
  - t <= v <= t -> reflect_loop fuel t v = Some v.
Proof.
  intros H. destruct fuel; simpl;
    destruct (Rgt_dec v t); try lra; destruct (Rlt_dec v (- t)); try lra;
    reflexivity.
Qed.

Lemma cyclefold_at_8k_sample (fuel : nat) (fr : t_frame) :
  exists x' out,
    perform_sample fuel cyclefold_at_8k 0 fr = Some (x', 3 / 2, out).
Proof.
  unfold perform_sample. simpl.
  unfold MIN_FREQUENCY, MAX_FREQUENCY, MIN_FOLD_AMOUNT, MAX_FOLD_AMOUNT,
    MIN_WARP_AMOUNT, MAX_WARP_AMOUNT, fmax, fmin.
  rewrite (Rmin_eq_r 1 0), (Rmax_eq_r (-1) 0), (Rmax_eq_r 0 0),
    (Rmin_eq_r 1 0), (Rmax_eq_r (-1) 0), (Rmax_eq_r 0 0),
    (Rmin_eq_l 20000 20000), (Rmax_eq_r (1 / 1000) 20000),
    (Rmin_eq_l 20000 20000), (Rmax_eq_r (1 / 1000) 20000) by lra.
  rewrite advance_phase_at_8k.
  unfold smooth_param.
  replace (0 + (1 - exp (-1 / (1 / 100 * 8000))) * (0 - 0)) with 0 by ring.
  unfold fold_wave_improved, safe_fold. simpl.
  unfold warp_phase_improved, fabs. rewrite Rabs_R0.
  destruct (Rlt_dec 0 (1 / 10000)) as [_|Hn]; [|lra].
  rewrite Rmult_0_l, sin_0.
  destruct (Rgt_dec 20000 20) as [_|Hn]; [|lra].
  unfold fmax, fmin.
  rewrite (Rmax_eq_r 0 0), (Rmin_eq_r 1 (8000 * (1 / 2) / 20000 / 10)),
    (Rmin_eq_l 0 (8000 * (1 / 2) / 20000 / 10)) by lra.
  rewrite reflect_loop_inside.
  - simpl. eexists _, _. reflexivity.
  - unfold reflect_threshold.
    destruct (Rlt_dec (1 - 0 * (99 / 100)) (1 / 100)); lra.
Qed.

(** C1 (failing run).  cycle.fold~ with the float 20000 on its frequency
    inlet, run at a sample rate of 8000 Hz from phase 0: the block of one
    sample completes with any fuel and stores the phase 3/2, which is not in
    [0,1).  The increment is 2.5 periods and the code subtracts 1.0 once
    ([if]) where cycle-2d~ loops ([while]). *)
Theorem cyclefold_phase_escapes (fuel : nat) (fr : t_frame) :
  exists x' out,
    cyclefold_perform64 fuel cyclefold_at_8k [fr] = Some (x', out) /\
    phase cyclefold_at_8k = 0 /\ phase x' = 3 / 2 /\ ~ (0 <= phase x' < 1).
Proof.
  destruct (cyclefold_at_8k_sample fuel fr) as (x1 & out & Hs).
  exists (set_phase x1 (3 / 2)), [out]. split; [|split; [|split]].
  - unfold cyclefold_perform64. simpl perform_loop.
    change (phase cyclefold_at_8k) with 0. rewrite Hs. reflexivity.
  - reflexivity.
  - reflexivity.
  - simpl. lra.
Qed.

(** The anti-aliasing prologue keeps a fold amount of [0,1] in [0,1] at any
    frequency, for a sample rate that is not negative. *)
Lemma safe_fold_bounds (fold_amount frequency srate : R) (aa : Z) :
  0 <= fold_amount <= 1 -> 0 <= srate ->
  0 <= safe_fold fold_amount frequency srate aa <= 1.
Proof.
  intros Hf Hsr. unfold safe_fold, fmax.
  rewrite (Rmax_eq_r 0 fold_amount) by lra.
  destruct (truthy aa); [|exact Hf].
  destruct (Rgt_dec frequency 20) as [Hfreq|_]; [|exact Hf].
  assert (Hmh : 0 <= srate * (1 / 2) / frequency / 10).
  { apply Rmult_le_pos; [|lra]. apply Rmult_le_pos; [lra|].
    left. apply Rinv_0_lt_compat. lra. }
  unfold fmin, Rmin.
  destruct (Rle_dec 1 _); destruct (Rle_dec fold_amount _); lra.
Qed.

Lemma reflect_threshold_bounds (s : R) :
  1 / 100 <= reflect_threshold s /\ (0 <= s -> reflect_threshold s <= 1).
Proof.
  unfold reflect_threshold.
  destruct (Rlt_dec (1 - s * (99 / 100)) (1 / 100)); split; intros; lra.
Qed.

(** The reflection loop finishes within [n] trips when the sample is within
    [2 n] thresholds of the threshold, and its result is inside. *)
Lemma reflect_loop_fuel (t : R) (n : nat) : forall v : R,
  0 < t -> Rabs v <= t + 2 * t * INR n ->
  exists r, - t <= r <= t /\
    forall fuel, (n <= fuel)%nat -> reflect_loop fuel t v = Some r.
Proof.
  induction n as [|n IH]; intros v Ht Hv.
  - simpl in Hv. apply Rabs_le_both in Hv. exists v. split; [lra|].
    intros fuel _. apply reflect_loop_inside. lra.
  - rewrite S_INR in Hv. apply Rabs_le_both in Hv.
    replace (t + 2 * t * (INR n + 1)) with (3 * t + 2 * t * INR n) in Hv
      by ring.
    assert (Hn : 0 <= t * INR n).
    { apply Rmult_le_pos; [lra|apply pos_INR]. }
    replace (2 * t * INR n) with (2 * (t * INR n)) in * by ring.
    destruct (Rgt_dec v t) as [Hgt|Hngt].
    + destruct (IH (2 * t - v) Ht) as (r & Hr & Hfuel).
      { apply Rabs_le. split; lra. }
      exists r. split; [exact Hr|].
      intros fuel Hle. destruct fuel as [|fuel]; [lia|]. simpl.
      destruct (Rgt_dec v t); [|lra]. apply Hfuel. lia.
    + destruct (Rlt_dec v (- t)) as [Hlt|Hnlt].
      * destruct (IH (-2 * t - v) Ht) as (r & Hr & Hfuel).
        { apply Rabs_le. split; lra. }
        exists r. split; [exact Hr|].
        intros fuel Hle. destruct fuel as [|fuel]; [lia|]. simpl.
        destruct (Rgt_dec v t); [lra|].
        destruct (Rlt_dec v (- t)); [|lra]. apply Hfuel. lia.
      * exists v. split; [lra|].
        intros fuel _. apply reflect_loop_inside. lra.
Qed.

(** The folding stage returns for any sample of [-1,1], whatever the other
    arguments: 50 trips of fuel are enough for the reflection loop. *)
Lemma fold_wave_improved_total (fuel : nat) (input fold_amount frequency
    srate : R) (x : t_cyclefold) :
  -1 <= input <= 1 -> (50 <= fuel)%nat ->
  exists v, fold_wave_improved fuel input fold_amount frequency srate x = Some v.
Proof.
  intros Hin Hfuel. unfold fold_wave_improved.
  set (s := safe_fold fold_amount frequency srate (antialiasing_enabled x)).
  destruct (folding_algorithm x =? 0)%Z.
  - destruct (reflect_threshold_bounds s) as [Hlo _].
    destruct (reflect_loop_fuel (reflect_threshold s) 50 input) as (r & _ & Hf).
    { lra. }
    { apply Rabs_le.
      replace (INR 50) with 50 by (rewrite INR_IZR_INZ; reflexivity). lra. }
    exists r. apply Hf. exact Hfuel.
  - destruct (folding_algorithm x =? 1)%Z; [destruct (Rle_dec s 0)|];
      eexists; reflexivity.
Qed.

(** The audio path of cycle.fold~ completes any block on any instance. *)
Lemma cyclefold_perform_loop_total (fuel : nat) (ins : list t_frame) :
  (50 <= fuel)%nat ->
  forall (x : t_cyclefold) (ph : R),
  exists r, perform_loop fuel x ph ins = Some r.
Proof.
  intros Hfuel. induction ins as [|fr ins IH]; intros x ph.
  - eexists. reflexivity.
  - cbn [perform_loop]. unfold perform_sample.
    match goal with
    | |- context [fold_wave_improved fuel (sin ?a) ?f ?fq ?sr ?y] =>
        destruct (fold_wave_improved_total fuel (sin a) f fq sr y) as [v Hv];
          [pose proof (SIN_bound a); lra|exact Hfuel|rewrite Hv]
    end.
    cbn [mbind option_bind].
    match goal with
    | |- context [if ?c then dc_block ?y v else (?y, v)] =>
        destruct (if c then dc_block y v else (y, v)) as [x1 o]
    end.
    cbn [mbind option_bind].
    match goal with
    | |- context [perform_loop fuel x1 ?p ins] =>
        destruct (IH x1 p) as [[[x2 ph2] out] Hr]; rewrite Hr
    end.
    eexists. reflexivity.
Qed.

Lemma cyclefold_perform64_total (fuel : nat) (x : t_cyclefold)
    (ins : list t_frame) :
  (50 <= fuel)%nat -> exists r, cyclefold_perform64 fuel x ins = Some r.
Proof.
  intros Hfuel. unfold cyclefold_perform64.
  destruct (cyclefold_perform_loop_total fuel ins Hfuel x (phase x))
    as [[[x1 ph1] out] Hr].
  rewrite Hr. eexists. reflexivity.
Qed.

(** X7.  At 20 kHz and above every block completes and leaves the phase of
    cycle.fold~ in [0,1). *)
Corollary cyclefold_phase_kept_above_20k (fuel : nat) (x : t_cyclefold)
    (ins : list t_frame) :
  (50 <= fuel)%nat ->
  20000 <= sr x -> sr_inv x = 1 / sr x -> 0 <= phase x < 1 ->
  exists x' out,
    cyclefold_perform64 fuel x ins = Some (x', out) /\ 0 <= phase x' < 1.
Proof.
  intros Hfuel Hsr Hinv Hph.
  destruct (cyclefold_perform64_total fuel x ins Hfuel) as [[x' out] Hr].
  exists x', out. split; [exact Hr|].
  eapply cyclefold_phase_invariant_above_20k; eassumption.
Qed.

(** C2.  For an input sample in [-1,1], a fold amount in [0,1], any
    frequency, a sample rate that is not negative, the anti-aliasing switch
    in either position and each of the three folding algorithms,
    [fold_wave_improved] returns (50 trips of fuel are enough for the
    reflection loop) a value in [-1,1]; with the reflection algorithm the
    value is within the threshold on both sides. *)
Theorem fold_wave_improved_bounded (fuel : nat) (input fold_amount frequency
    srate : R) (x : t_cyclefold) :
  -1 <= input <= 1 -> 0 <= fold_amount <= 1 -> 0 <= srate ->
  (50 <= fuel)%nat ->
  exists v,
    fold_wave_improved fuel input fold_amount frequency srate x = Some v /\
    -1 <= v <= 1 /\
    (folding_algorithm x = 0%Z ->
     let threshold :=
       reflect_threshold
         (safe_fold fold_amount frequency srate (antialiasing_enabled x)) in
     - threshold <= v <= threshold).
Proof.
  intros Hin Hfold Hsr Hfuel.
  pose proof (safe_fold_bounds fold_amount frequency srate
                (antialiasing_enabled x) Hfold Hsr) as Hs.
  unfold fold_wave_improved.
  set (s := safe_fold fold_amount frequency srate (antialiasing_enabled x)) in *.
  destruct (folding_algorithm x =? 0)%Z eqn:Ha0.
  - destruct (reflect_threshold_bounds s) as [Hlo Hhi].
    specialize (Hhi (proj1 Hs)).
    destruct (reflect_loop_fuel (reflect_threshold s) 50 input) as (r & Hr & Hf).
    { lra. }
    { apply Rabs_le. simpl. lra. }
    exists r. split; [apply Hf; exact Hfuel|]. split; [lra|].
    intros _. exact Hr.
  - apply Z.eqb_neq in Ha0.
    destruct (folding_algorithm x =? 1)%Z.
    + destruct (Rle_dec s 0).
      * exists input. split; [reflexivity|]. split; [exact Hin|]. congruence.
      * eexists. split; [reflexivity|]. split; [|congruence].
        apply tanh_ratio_bounds; [exact Hin|lra].
    + eexists. split; [reflexivity|]. split; [|congruence].
      set (reflected := if Rgt_dec input (1 - s * (1 / 2)) then _ else _).
      assert (Hrefl : -1 <= reflected <= 1).
      { unfold reflected.
        destruct (Rgt_dec input (1 - s * (1 / 2)));
          [|destruct (Rlt_dec input (- (1 - s * (1 / 2))))]; lra. }
      pose proof (tanh_ratio_bounds reflected (1 + s * 4) Hrefl) as Hsoft.
      assert (Hd : 0 < 1 + s * 4) by lra. specialize (Hsoft Hd).
      set (soft := tanh (reflected * (1 + s * 4)) / tanh (1 + s * 4)) in *.
      split; nra.
Qed.

(** The hypotheses of C2 at one input: a full-scale sample folded with the
    reflection algorithm at the maximum fold amount. *)
Lemma fold_wave_improved_bounded_witness :
  exists v,
    fold_wave_improved 50 1 1 440 44100 (cyclefold_new []) = Some v /\
    -1 <= v <= 1 /\
    (folding_algorithm (cyclefold_new []) = 0%Z ->
     let threshold :=
       reflect_threshold
         (safe_fold 1 440 44100 (antialiasing_enabled (cyclefold_new []))) in
     - threshold <= v <= threshold).
Proof.
  apply (fold_wave_improved_bounded 50 1 1 440 44100 (cyclefold_new []));
    [lra | lra | lra | lia].
Defined.

End CycleFoldFolding.

(** ** cycle-2d~: bilinear interpolation at the corners *)

Section Cycle2dBilinear.

Import Cycle2d.

(** With no custom table the loop over the custom tables adds nothing. *)
Lemma bilinear_no_custom (x : t_cycle2d) (xp yp ph : R) :
  num_custom_tables x = 0%Z ->
  bilinear_interpolate x xp yp ph =
  (wavetable_lookup (corner x CORNER_SINE) ph * (1 - xp)
   + wavetable_lookup (corner x CORNER_SAW) ph * xp) * (1 - yp)
  + (wavetable_lookup (corner x CORNER_TRIANGLE) ph * (1 - xp)
     + wavetable_lookup (corner x CORNER_SQUARE) ph * xp) * yp.
Proof.
  intros Hn. unfold bilinear_interpolate. rewrite Hn. simpl.
  destruct (Rgt_dec 0 0) as [Hgt|_]; [lra|]. reflexivity.
Qed.

(** C4.  With zero custom tables loaded, at every phase (in [0,1) or not)
    the bilinear interpolation at (0,0) is the lookup in the sine corner
    table, at (1,0) in the sawtooth corner table, at (0,1) in the triangle
    corner table and at (1,1) in the square corner table; the equalities are
    exact in real arithmetic. *)
Theorem bilinear_corner_identity (x : t_cycle2d) (ph : R) :
  num_custom_tables x = 0%Z ->
  bilinear_interpolate x 0 0 ph = wavetable_lookup (corner x CORNER_SINE) ph /\
  bilinear_interpolate x 1 0 ph = wavetable_lookup (corner x CORNER_SAW) ph /\
  bilinear_interpolate x 0 1 ph
    = wavetable_lookup (corner x CORNER_TRIANGLE) ph /\
  bilinear_interpolate x 1 1 ph = wavetable_lookup (corner x CORNER_SQUARE) ph.
Proof.
  intros Hn. rewrite !bilinear_no_custom by exact Hn.
  repeat split; ring.
Qed.

(** A new object has no custom table and the four standard waveforms in its
    corner slots. *)
Lemma cycle2d_new_tables (sr0 : R) (argv : list t_atom) :
  num_custom_tables (cycle2d_new sr0 argv) = 0%Z /\
  corner (cycle2d_new sr0 argv) CORNER_SINE
    = generate_sine_table WAVETABLE_SIZE /\
  corner (cycle2d_new sr0 argv) CORNER_SAW
    = generate_saw_table WAVETABLE_SIZE /\
  corner (cycle2d_new sr0 argv) CORNER_TRIANGLE
    = generate_triangle_table WAVETABLE_SIZE /\
  corner (cycle2d_new sr0 argv) CORNER_SQUARE
    = generate_square_table WAVETABLE_SIZE.
Proof. repeat split; reflexivity. Qed.

(** The hypothesis of C4 on a new object, with the corner slots named by
    their waveforms. *)
Lemma bilinear_corner_identity_witness :
  let x := cycle2d_new 44100 [] in
  num_custom_tables x = 0%Z /\
  (bilinear_interpolate x 0 0 (1 / 3)
     = wavetable_lookup (corner x CORNER_SINE) (1 / 3) /\
   bilinear_interpolate x 1 0 (1 / 3)
     = wavetable_lookup (corner x CORNER_SAW) (1 / 3) /\
   bilinear_interpolate x 0 1 (1 / 3)
     = wavetable_lookup (corner x CORNER_TRIANGLE) (1 / 3) /\
   bilinear_interpolate x 1 1 (1 / 3)
     = wavetable_lookup (corner x CORNER_SQUARE) (1 / 3)).
Proof.
  split; [reflexivity|].
  apply (bilinear_corner_identity (cycle2d_new 44100 []) (1 / 3)).
  reflexivity.
Defined.

End Cycle2dBilinear.

(** ** cycle-2d~: loading a buffer into a custom table *)

Section Cycle2dBuffer.

Import Cycle2d.




(** A negative offset on a buffer of two frames or more: one of the first
    two trips of the loop reads in front of the buffer. *)
Lemma copy_buffer_negative_offset (samples : list R) (frames offset : Z) :
  (2 <= frames)%Z -> (offset < 0)%Z ->
  copy_buffer samples frames offset = None.
Proof.
  intros Hf Ho. unfold copy_buffer.
  destruct (Z.eqb_spec frames 0) as [He|_]; [lia|].
  apply mapM_None_2. apply List.Exists_exists.
  assert (Hneg : forall a, (a < 0)%Z -> (Z.rem a frames <> 0)%Z ->
            (let read_index := Z.rem a frames in
             if (read_index <? frames)%Z then buffer_read samples read_index
             else Some 0) = None).
  { intros a Ha Hr. cbv zeta.
    assert (Hb : (- frames < Z.rem a frames <= 0)%Z)
      by (apply Z.rem_bound_pos_neg; lia).
    destruct (Z.ltb_spec (Z.rem a frames) frames); [|lia].
    unfold buffer_read.
    destruct (Z.ltb_spec (Z.rem a frames) 0); [reflexivity|lia]. }
  destruct (Z.eq_dec (Z.rem offset frames) 0%Z) as [Hz|Hnz].
  - apply Z.rem_divide in Hz; [|lia]. destruct Hz as [q Hq].
    assert (Hq0 : (q < 0)%Z) by nia.
    assert (Hle : (offset <= - frames)%Z) by nia.
    exists 1%nat. split.
    + apply in_seq. unfold WAVETABLE_SIZE. lia.
    + change (Z.of_nat 1) with 1%Z. apply Hneg; [lia|].
      intros H1. apply Z.rem_divide in H1; [|lia]. destruct H1 as [q1 Hq1].
      assert (He : ((q1 - q) * frames = 1)%Z)
        by (rewrite Z.mul_sub_distr_r; lia).
      destruct (Z.eq_mul_1 _ _ He); lia.
  - exists 0%nat. split.
    + apply in_seq. unfold WAVETABLE_SIZE. lia.
    + change (Z.of_nat 0) with 0%Z. rewrite Z.add_0_r. apply Hneg; assumption.
Qed.

(** The outcomes of a buffer-load message: an early return that leaves the
    record alone, or the copy loop and, when it completes, one table
    stored. *)
Lemma cycle2d_buffer_cases (x : t_cycle2d) (env : gmap string t_buffer_obj)
    (argv : list t_atom) :
  let name := atom_getsym (nth 0 argv (A_LONG 0)) in
  let offset :=
    if (Z.of_nat (length argv) >=? 4)%Z
    then atom_getlong (nth 3 argv (A_LONG 0)) else 0%Z in
  let ok :=
    (3 <= length argv)%nat /\
    (num_custom_tables x < MAX_CUSTOM_TABLES)%Z /\
    exists b samples,
      env !! name = Some b /\ buffer_samples b = Some samples /\
      buffer_frames b <> 0%Z in
  (~ ok /\
   exists p, p <> PostLoaded /\ cycle2d_buffer x env argv = Some (x, p)) \/
  (ok /\ exists b samples,
     env !! name = Some b /\ buffer_samples b = Some samples /\
     buffer_frames b <> 0%Z /\
     cycle2d_buffer x env argv =
     (wt ← copy_buffer samples (buffer_frames b) offset;
      Some
        (set_custom x
           (<[Z.to_nat (num_custom_tables x) :=
                mk_custom_table wt
                  (CLAMP (atom_getfloat (nth 1 argv (A_LONG 0))) 0 1)
                  (CLAMP (atom_getfloat (nth 2 argv (A_LONG 0))) 0 1) 1]>
              (custom_tables x))
           (num_custom_tables x + 1), PostLoaded))).
Proof.
  intros name offset ok. unfold cycle2d_buffer. fold name. fold offset.
  destruct (Z.ltb_spec (Z.of_nat (length argv)) 3) as [Hargc|Hargc].
  { left. split; [intros (H3 & _); lia|].
    exists PostTooFewArgs. split; [discriminate|reflexivity]. }
  destruct (Z.geb_spec (num_custom_tables x) MAX_CUSTOM_TABLES) as [Hfull|Hfree].
  { left. split; [intros (_ & Hlt & _); lia|].
    exists PostSlotsFull. split; [discriminate|reflexivity]. }
  destruct (env !! name) as [b|] eqn:Hb.
  2:{ left. split; [intros (_ & _ & b & s & Hb' & _); discriminate|].
      exists PostNotFound. split; [discriminate|reflexivity]. }
  destruct (buffer_samples b) as [samples|] eqn:Hs.
  2:{ left. split.
      - intros (_ & _ & b' & s & Hb' & Hs' & _). inversion Hb'; subst.
        congruence.
      - exists PostLockFailed. split; [discriminate|reflexivity]. }
  destruct (Z.eqb_spec (buffer_frames b) 0) as [Hfr|Hfr].
  { left. split.
    - intros (_ & _ & b' & s & Hb' & _ & Hne). inversion Hb'; subst.
      congruence.
    - exists PostEmpty. split; [discriminate|reflexivity]. }
  right. split.
  - split; [lia|]. split; [exact Hfree|]. exists b, samples. auto.
  - exists b, samples. auto.
Qed.

(** With an offset that is not negative every read index is inside the
    buffer, so the message returns. *)
Lemma cycle2d_buffer_returns (x : t_cycle2d) (env : gmap string t_buffer_obj)
    (argv : list t_atom) :
  (0 <= (if (Z.of_nat (length argv) >=? 4)%Z
         then atom_getlong (nth 3 argv (A_LONG 0)) else 0))%Z ->
  is_Some (cycle2d_buffer x env argv).
Proof.
  intros Hoff.
  destruct (cycle2d_buffer_cases x env argv) as
    [(_ & p & _ & Hr) | (_ & b & samples & _ & _ & Hfr & Hr)];
    rewrite Hr; [eauto|].
  destruct (copy_buffer samples (buffer_frames b) _) as [wt|] eqn:Hc;
    [cbn; eauto|].
  exfalso. unfold copy_buffer in Hc.
  destruct (Z.eqb_spec (buffer_frames b) 0); [lia|].
  apply mapM_None_1, List.Exists_exists in Hc.
  destruct Hc as (i & _ & Hi). cbv zeta in Hi.
  match type of Hi with
  | (if (?r <? _)%Z then _ else _) = None =>
      assert (0 <= r)%Z by (apply Z.rem_nonneg; lia);
      destruct (r <? buffer_frames b)%Z; [|discriminate];
      unfold buffer_read in Hi;
      destruct (Z.ltb_spec r 0); [lia|discriminate]
  end.
Qed.




(** C8 (failing run).  A new object, a buffer of two frames, and the
    message [buffer buf 0.25 0.75 -1]: the argument count, the slot count,
    the buffer lookup, the lock and the frame count all pass; in the first
    trip of the copy loop [read_index] is [(-1 + 0) % 2 = -1], the guard
    [read_index < buffer_frames] lets it through, and the loop reads
    [buffer_samples[-1]], in front of the buffer.  The same holds for every
    negative offset on every buffer of two frames or more.  The offset is
    never checked. *)
Theorem cycle2d_buffer_reads_before_buffer :
  let x := cycle2d_new 44100 [] in
  let b := mk_buffer_obj (Some [1 / 2; - (1 / 2)]) 2 in
  let env : gmap string t_buffer_obj := {[ "buf"%string := b ]} in
  let argv := [A_SYM "buf"; A_FLOAT (1 / 4); A_FLOAT (3 / 4); A_LONG (-1)] in
  (3 <= length argv)%nat /\
  (num_custom_tables x < MAX_CUSTOM_TABLES)%Z /\
  env !! "buf"%string = Some b /\
  buffer_frames b <> 0%Z /\
  Z.rem (-1 + 0) (buffer_frames b) = (-1)%Z /\
  (-1 <? buffer_frames b)%Z = true /\
  buffer_read [1 / 2; - (1 / 2)] (-1) = None /\
  cycle2d_buffer x env argv = None /\
  (forall samples frames offset,
     (2 <= frames)%Z -> (offset < 0)%Z ->
     copy_buffer samples frames offset = None).
Proof.
  intros x b env argv.
  split; [cbn; lia|]. split; [reflexivity|].
  split; [apply lookup_singleton_eq|]. split; [cbn; lia|].
  split; [reflexivity|]. split; [reflexivity|]. split; [reflexivity|].
  split; [|exact copy_buffer_negative_offset].
  destruct (cycle2d_buffer_cases x env argv)
    as [(Hnok & _) | (_ & b' & samples & Hb & Hs & _ & Hr)].
  - exfalso. apply Hnok. split; [cbn; lia|]. split; [reflexivity|].
    exists b, [1 / 2; - (1 / 2)].
    split; [apply lookup_singleton_eq|]. split; [reflexivity|]. cbn. lia.
  - rewrite Hr.
    change (atom_getsym (nth 0 argv (A_LONG 0))) with "buf"%string in Hb.
    unfold env in Hb. rewrite lookup_singleton_eq in Hb.
    inversion Hb; subst b'. cbn in Hs. inversion Hs; subst samples.
    rewrite copy_buffer_negative_offset;
      [reflexivity|unfold b; cbn; lia|unfold argv; reflexivity].
Qed.



End Cycle2dBuffer.

(** ** cycle-2d~: the interpolated table lookup *)

Section Cycle2dLookup.

Import Cycle2d.

Lemma table_slope_le_max (table : list R) (i : Z) :
  (0 <= i < WAVETABLE_SIZE - 1)%Z -> table_slope table i <= max_slope table.
Proof.
  intros Hi. unfold max_slope. apply fold_Rmax_ge.
  apply in_map_iff. exists (Z.to_nat i). split.
  - rewrite Z2Nat.id by lia. reflexivity.
  - apply in_seq. lia.
Qed.

Lemma max_slope_nonneg (table : list R) : 0 <= max_slope table.
Proof.
  eapply Rle_trans; [apply Rabs_pos|].
  apply (table_slope_le_max table 0). unfold WAVETABLE_SIZE. lia.
Qed.

Lemma max_slope_le (table : list R) (c : R) :
  0 <= c ->
  (forall i, (0 <= i < WAVETABLE_SIZE - 1)%Z -> table_slope table i <= c) ->
  max_slope table <= c.
Proof.
  intros Hc Hall. unfold max_slope. apply fold_Rmax_le; [exact Hc|].
  intros v Hv. apply in_map_iff in Hv. destruct Hv as (n & <- & Hn).
  apply in_seq in Hn. apply Hall. lia.
Qed.

(** Inside [0,1) the lookup interpolates between entries [index] and
    [index + 1], with [index] at most 4094. *)
Lemma wavetable_lookup_inside (table : list R) (ph : R) :
  0 <= ph < 1 ->
  let index := trunc (ph * 4095) in
  let fract := ph * 4095 - IZR index in
  (0 <= index < 4095)%Z /\ 0 <= fract < 1 /\
  wavetable_lookup table ph =
  tbl table index + (tbl table (index + 1) - tbl table index) * fract.
Proof.
  intros Hph index fract.
  assert (Hs : 0 <= ph * 4095 < 4095) by lra.
  pose proof (trunc_bounds (ph * 4095) (proj1 Hs)) as Hb.
  pose proof (trunc_nonneg (ph * 4095) (proj1 Hs)) as Hnn.
  fold index in Hb, Hnn.
  assert (Hlt : (index < 4095)%Z) by (apply lt_IZR; lra).
  split; [lia|]. split; [unfold fract; lra|].
  unfold wavetable_lookup.
  change (IZR (WAVETABLE_SIZE - 1)) with 4095.
  change (WAVETABLE_SIZE - 1)%Z with 4095%Z.
  fold index.
  destruct (Z.geb_spec index 4095); [lia|].
  fold fract. ring.
Qed.

(** The step of the lookup between two phases at most one entry apart, the
    second not before the first. *)
Lemma wavetable_lookup_step (table : list R) (p q : R) :
  0 <= p < 1 -> 0 <= q < 1 -> p <= q -> q - p <= / 4095 ->
  Rabs (wavetable_lookup table q - wavetable_lookup table p)
  <= max_slope table.
Proof.
  intros Hp Hq Hpq Hclose.
  destruct (wavetable_lookup_inside table p Hp) as (Hi & Hfp & ->).
  destruct (wavetable_lookup_inside table q Hq) as (Hj & Hfq & ->).
  set (i := trunc (p * 4095)) in *. set (j := trunc (q * 4095)) in *.
  set (fp := p * 4095 - IZR i) in *. set (fq := q * 4095 - IZR j) in *.
  pose proof (max_slope_nonneg table) as HS.
  assert (Hd : q * 4095 - p * 4095 <= 1) by lra.
  assert (Hij : (i <= j)%Z).
  { apply Z.lt_succ_r. apply lt_IZR. rewrite succ_IZR. unfold fp, fq in *. lra. }
  assert (Hji : (j <= i + 1)%Z).
  { apply Z.lt_succ_r. apply lt_IZR. rewrite succ_IZR, plus_IZR.
    unfold fp, fq in *. lra. }
  pose proof (table_slope_le_max table i) as Hsi.
  unfold table_slope in Hsi. specialize (Hsi ltac:(unfold WAVETABLE_SIZE; lia)).
  apply Rabs_le_both in Hsi.
  destruct (Z.eq_dec j i) as [Heq|Hne].
  - rewrite Heq in *.
    assert (Hf : 0 <= fq - fp <= 1) by (unfold fp, fq in *; rewrite Heq; lra).
    set (d := tbl table (i + 1) - tbl table i) in *.
    apply Rabs_le. split; nra.
  - assert (Hj1 : j = (i + 1)%Z) by lia.
    pose proof (table_slope_le_max table j) as Hsj.
    unfold table_slope in Hsj.
    specialize (Hsj ltac:(unfold WAVETABLE_SIZE; lia)).
    apply Rabs_le_both in Hsj.
    assert (Hf : (1 - fp) + fq <= 1).
    { unfold fp, fq. rewrite Hj1, plus_IZR. lra. }
    rewrite Hj1 in *.
    set (d := tbl table (i + 1) - tbl table i) in *.
    set (e := tbl table (i + 1 + 1) - tbl table (i + 1)) in *.
    replace (tbl table (i + 1) + e * fq - (tbl table i + d * fp))
      with (d * (1 - fp) + e * fq) by (unfold d; ring).
    apply Rabs_le. split; nra.
Qed.

(** C9 (amended).  For any table the lookup is continuous inside [0,1): two
    phases of [0,1) at most one table entry (1/4095 of a period) apart
    differ in output by at most the largest step between neighbouring
    entries.  The lookup at phase 0 is the first entry itself: nothing is
    interpolated between the last entry and the first. *)
Theorem wavetable_lookup_continuous_inside (table : list R) (p q : R) :
  0 <= p < 1 -> 0 <= q < 1 -> Rabs (q - p) <= / 4095 ->
  Rabs (wavetable_lookup table q - wavetable_lookup table p)
    <= max_slope table /\
  wavetable_lookup table 0 = tbl table 0.
Proof.
  intros Hp Hq Hclose. apply Rabs_le_both in Hclose. split.
  - destruct (Rle_dec p q) as [Hle|Hgt].
    + apply wavetable_lookup_step; try assumption; lra.
    + rewrite Rabs_minus_sym.
      apply wavetable_lookup_step; try assumption; lra.
  - destruct (wavetable_lookup_inside table 0) as (_ & _ & ->); [lra|].
    rewrite Rmult_0_l.
    rewrite (trunc_spec 0 0) by (simpl; lra). simpl. ring.
Qed.

End Cycle2dLookup.

(** ** cycle-2d~: the lookup at the wrap boundary *)

Section Cycle2dWrap.

Import Cycle2d.

(** Entry [i] of a generated table. *)
Lemma tbl_fill_table (f : R -> R) (size i : Z) :
  (0 <= i < size)%Z -> tbl (fill_table f size) i = f (IZR i / IZR size).
Proof.
  intros Hi. rewrite tbl_nth by lia. unfold fill_table.
  rewrite (nth_indep _ 0 (f (INR 0 / IZR size))).
  2:{ rewrite length_map, length_seq. lia. }
  rewrite (map_nth (fun i => f (INR i / IZR size))).
  rewrite seq_nth by lia. simpl Nat.add.
  rewrite INR_IZR_INZ, Z2Nat.id by lia. reflexivity.
Qed.

Lemma saw_entry (i : Z) :
  (0 <= i < 4096)%Z ->
  tbl (generate_saw_table WAVETABLE_SIZE) i = 2 * (IZR i / 4096) - 1.
Proof.
  intros Hi. unfold generate_saw_table.
  rewrite tbl_fill_table by (unfold WAVETABLE_SIZE; lia). reflexivity.
Qed.

Lemma saw_max_slope : max_slope (generate_saw_table WAVETABLE_SIZE) <= / 2048.
Proof.
  apply max_slope_le; [lra|]. intros i Hi. unfold WAVETABLE_SIZE in Hi.
  unfold table_slope. rewrite !saw_entry by lia. rewrite plus_IZR.
  apply Rabs_le. lra.
Qed.

(** The triangle of [generate_triangle_table] as a function of the phase. *)
Lemma triangle_entry (i : Z) :
  (0 <= i < 4096)%Z ->
  tbl (generate_triangle_table WAVETABLE_SIZE) i =
  (if Rlt_dec (IZR i / 4096) (1 / 4) then 4 * (IZR i / 4096)
   else if Rlt_dec (IZR i / 4096) (3 / 4) then 2 - 4 * (IZR i / 4096)
   else 4 * (IZR i / 4096) - 4).
Proof.
  intros Hi. unfold generate_triangle_table.
  rewrite tbl_fill_table by (unfold WAVETABLE_SIZE; lia). reflexivity.
Qed.

Lemma triangle_max_slope :
  max_slope (generate_triangle_table WAVETABLE_SIZE) <= / 1024.
Proof.
  apply max_slope_le; [lra|]. intros i Hi. unfold WAVETABLE_SIZE in Hi.
  unfold table_slope. rewrite !triangle_entry by lia. rewrite plus_IZR.
  set (a := IZR i).
  destruct (Rlt_dec ((a + 1) / 4096) (1 / 4));
    destruct (Rlt_dec (a / 4096) (1 / 4));
    try destruct (Rlt_dec ((a + 1) / 4096) (3 / 4));
    try destruct (Rlt_dec (a / 4096) (3 / 4));
    apply Rabs_le; lra.
Qed.

Lemma triangle_wrap_slope :
  wrap_slope (generate_triangle_table WAVETABLE_SIZE) = / 1024.
Proof.
  unfold wrap_slope. change (WAVETABLE_SIZE - 1)%Z with 4095%Z.
  rewrite !triangle_entry by lia.
  destruct (Rlt_dec (0 / 4096) (1 / 4)) as [_|Hn]; [|lra].
  destruct (Rlt_dec (4095 / 4096) (1 / 4)) as [Hn|_]; [lra|].
  destruct (Rlt_dec (4095 / 4096) (3 / 4)) as [Hn|_]; [lra|].
  replace (4 * (0 / 4096) - (4 * (4095 / 4096) - 4)) with (/ 1024) by lra.
  apply Rabs_right. lra.
Qed.

(** The lookup at a phase whose index and fraction are known. *)
Lemma wavetable_lookup_at (table : list R) (ph : R) (i : Z) :
  0 <= ph < 1 -> IZR i <= ph * 4095 < IZR i + 1 ->
  wavetable_lookup table ph =
  tbl table i + (tbl table (i + 1) - tbl table i) * (ph * 4095 - IZR i).
Proof.
  intros Hph Hi.
  destruct (wavetable_lookup_inside table ph Hph) as (_ & _ & ->).
  rewrite (trunc_spec (ph * 4095) i); [reflexivity|lra|exact Hi].
Qed.

(** C9 (counterexample).  Sawtooth corner: from the phase 4095/4096 to the
    phase 0 that follows it one sample later, the output jumps by almost 2,
    while no step inside the table exceeds 1/2048.  Triangle corner: from
    8191/8192 to 1/8192 (1/4096 of a period apart across the wrap) the
    output jumps by almost two steps, more than the largest step even when
    the step from the last entry back to the first is counted. *)
Lemma wavetable_lookup_wrap_jump :
  let saw := generate_saw_table WAVETABLE_SIZE in
  let tri := generate_triangle_table WAVETABLE_SIZE in
  ~ (Rabs (wavetable_lookup saw 0 - wavetable_lookup saw (4095 / 4096))
     <= max_slope saw) /\
  ~ (Rabs (wavetable_lookup tri (1 / 8192) - wavetable_lookup tri (8191 / 8192))
     <= Rmax (max_slope tri) (wrap_slope tri)).
Proof.
  intros saw tri. split.
  - pose proof saw_max_slope as Hmax. fold saw in Hmax.
    unfold saw.
    rewrite (wavetable_lookup_at _ 0 0) by (simpl; lra).
    rewrite (wavetable_lookup_at _ (4095 / 4096) 4094) by lra.
    rewrite !saw_entry by lia. rewrite !plus_IZR.
    intros Hle. apply Rabs_le_both in Hle. fold saw in Hle. lra.
  - pose proof triangle_max_slope as Hmax. fold tri in Hmax.
    pose proof triangle_wrap_slope as Hwrap. fold tri in Hwrap.
    rewrite Hwrap. unfold tri at 1 2.
    rewrite (wavetable_lookup_at _ (1 / 8192) 0) by (simpl; lra).
    rewrite (wavetable_lookup_at _ (8191 / 8192) 4094) by lra.
    rewrite !triangle_entry by lia. rewrite !plus_IZR.
    destruct (Rlt_dec (0 / 4096) (1 / 4)) as [_|Hn]; [|lra].
    destruct (Rlt_dec ((0 + 1) / 4096) (1 / 4)) as [_|Hn]; [|lra].
    destruct (Rlt_dec (4094 / 4096) (1 / 4)) as [Hn|_]; [lra|].
    destruct (Rlt_dec (4094 / 4096) (3 / 4)) as [Hn|_]; [lra|].
    destruct (Rlt_dec ((4094 + 1) / 4096) (1 / 4)) as [Hn|_]; [lra|].
    destruct (Rlt_dec ((4094 + 1) / 4096) (3 / 4)) as [Hn|_]; [lra|].
    intros Hle. apply Rabs_le_both in Hle.
    assert (Hm : Rmax (max_slope tri) (/ 1024) = / 1024).
    { apply Rmax_eq_r. exact Hmax. }
    rewrite Hm in Hle. lra.
Qed.

(** The hypotheses of the amended C9 at two phases inside the sawtooth
    table. *)
Lemma wavetable_lookup_continuous_inside_witness :
  let saw := generate_saw_table WAVETABLE_SIZE in
  Rabs (wavetable_lookup saw (1 / 2) - wavetable_lookup saw (1 / 2 - / 4096))
    <= max_slope saw /\
  wavetable_lookup saw 0 = tbl saw 0.
Proof.
  intros saw.
  apply (wavetable_lookup_continuous_inside saw (1 / 2 - / 4096) (1 / 2)).
  - lra.
  - lra.
  - replace (1 / 2 - (1 / 2 - / 4096)) with (/ 4096) by lra.
    rewrite Rabs_right by lra. apply Rinv_le_contravar; lra.
Defined.

End Cycle2dWrap.

(** ** decay~: the end-to-end scenario *)

Section DecayScenario.

Import Decay.

Local Abbreviation c := scenario_coefficient.

Lemma decay_coefficient_scenario :
  decay_calculate_coefficient (CLAMP 1 MIN_DECAY_TIME MAX_DECAY_TIME) 44100 = c.
Proof.
  unfold MIN_DECAY_TIME, MAX_DECAY_TIME.
  rewrite CLAMP_id by lra.
  unfold decay_calculate_coefficient.
  destruct (Rle_dec 1 0) as [Hn|_]; [lra|].
  unfold c. f_equal. field.
Qed.

Lemma c_bounds : 0 < c < 1.
Proof.
  unfold c. split; [apply exp_pos|]. apply exp_neg_lt_1. lra.
Qed.

Lemma plain_decay_set_envelope (x : t_decay) (e : R) :
  plain_decay x -> plain_decay (set_envelope x e (is_active x)).
Proof. unfold plain_decay. simpl. tauto. Qed.

(** One sample of plain decay: the envelope is multiplied by the
    coefficient and put out as it is; the attack counter is not touched. *)
Lemma decay_perform_sample_plain (a : Z) (x : t_decay) (fr : t_frame) :
  plain_decay x -> DENORMAL_THRESHOLD <= envelope x * c ->
  perform_sample a x fr =
  (a, set_envelope x (envelope x * c) (is_active x), envelope x * c).
Proof.
  intros (Hact & Htime & Hcurve & Hresp & Hmode & Hsm & Hpeak & Hdt & Hsr) Hthr.
  pose proof denormal_threshold_pos as Hpos.
  unfold perform_sample. rewrite Hact, Htime, Hcurve.
  change (truthy 0) with false. cbv beta iota.
  unfold active_block.
  rewrite Hcurve, Hresp, Hmode, Hpeak, Hdt, Hsr.
  change (truthy 0) with false. cbv beta iota.
  rewrite decay_coefficient_scenario.
  change (1 =? 0)%Z with false. change (1 =? 1)%Z with true.
  unfold attack_ramp. change (0 =? 1)%Z with false. cbv beta iota.
  unfold decay_apply_curve.
  destruct (Req_dec_T 0 0) as [_|Hn]; [|lra].
  replace (envelope x * c / 1 * 1) with (envelope x * c) by field.
  destruct (Rlt_dec (envelope x * c) DENORMAL_THRESHOLD) as [Hn|_]; [lra|].
  cbn [smooth_samples set_envelope]. rewrite Hsm.
  change (0 >? 0)%Z with false. cbv beta iota.
  unfold denormal_fix, fabs. rewrite Rabs_right by lra.
  destruct (Rlt_dec (envelope x * c) DENORMAL_THRESHOLD) as [Hn|_]; [lra|].
  reflexivity.
Qed.

(** A block of plain decay: sample [k] is the envelope times the
    coefficient to the power [k + 1]. *)
Lemma decay_perform64_plain (ins : list t_frame) :
  forall (a : Z) (x : t_decay),
  plain_decay x -> 0 < envelope x ->
  DENORMAL_THRESHOLD <= envelope x * c ^ length ins ->
  decay_perform64 a x ins =
  (a, set_envelope x (envelope x * c ^ length ins) (is_active x),
   map (fun k => envelope x * c ^ S k) (seq 0 (length ins))).
Proof.
  pose proof c_bounds as Hc.
  induction ins as [|fr ins IH]; intros a x Hplain He Hthr.
  - simpl. rewrite Rmult_1_r. destruct x; reflexivity.
  - assert (Hpow : 0 < c ^ length ins <= 1).
    { split; [apply pow_lt; lra|].
      rewrite <- (pow1 (length ins)). apply pow_incr. lra. }
    assert (Hthr1 : DENORMAL_THRESHOLD <= envelope x * c).
    { simpl length in Hthr. simpl pow in Hthr.
      assert (0 < envelope x * c) by nra. nra. }
    cbn [decay_perform64].
    rewrite (decay_perform_sample_plain a x fr Hplain Hthr1).
    rewrite IH.
    + cbn [envelope set_envelope is_active length seq map].
      f_equal; [f_equal|].
      * unfold set_envelope. cbn. f_equal. simpl. ring.
      * f_equal; [simpl; ring|].
        rewrite <- seq_shift, map_map. apply map_ext.
        intros k. simpl. ring.
    + apply plain_decay_set_envelope. exact Hplain.
    + cbn [envelope set_envelope]. nra.
    + cbn [envelope set_envelope]. simpl length in Hthr. simpl pow in Hthr.
      replace (envelope x * c * c ^ length ins)
        with (envelope x * (c * c ^ length ins)) by ring.
      exact Hthr.
Qed.

Lemma decay_scenario_plain :
  plain_decay decay_scenario /\ envelope decay_scenario = 1.
Proof.
  unfold plain_decay, decay_scenario, decay_bang, decay_dsp64, decay_new.
  cbn -[CLAMP].
  unfold MIN_DECAY_TIME, MAX_DECAY_TIME, CLAMP.
  destruct (Rlt_dec 0 1) as [_|Hn]; [|lra].
  destruct (Rlt_dec 1 1) as [Hn|_]; [lra|].
  destruct (Rlt_dec (1 / 1000) 1) as [_|Hn]; [|lra].
  destruct (Rlt_dec 1 60) as [_|Hn]; [|lra].
  repeat split; reflexivity.
Qed.

(** A call on a block is the call on its first part followed by the call
    on the rest, from the state and the counter that the first left. *)
Lemma decay_perform64_app (ins1 ins2 : list t_frame) :
  forall (a : Z) (x : t_decay),
  decay_perform64 a x (ins1 ++ ins2) =
  (let '(a1, x1, out1) := decay_perform64 a x ins1 in
   let '(a2, x2, out2) := decay_perform64 a1 x1 ins2 in
   (a2, x2, out1 ++ out2)).
Proof.
  induction ins1 as [|fr ins1 IH]; intros a x.
  - cbn [app decay_perform64].
    destruct (decay_perform64 a x ins2) as [[a2 x2] out2]. reflexivity.
  - cbn [app decay_perform64].
    destruct (perform_sample a x fr) as [[a0 x0] s].
    rewrite IH.
    destruct (decay_perform64 a0 x0 ins1) as [[a1 x1] out1].
    destruct (decay_perform64 a1 x1 ins2) as [[a2 x2] out2]. reflexivity.
Qed.

(** The calls on successive blocks put out what one call on the blocks
    joined puts out, and end in the same state. *)
Lemma decay_perform_blocks_concat (blocks : list (list t_frame)) :
  forall (a : Z) (x : t_decay),
  decay_perform_blocks a x blocks = decay_perform64 a x (concat blocks).
Proof.
  induction blocks as [|ins blocks IH]; intros a x; [reflexivity|].
  cbn [decay_perform_blocks concat]. rewrite decay_perform64_app.
  destruct (decay_perform64 a x ins) as [[a1 x1] out1].
  rewrite IH. reflexivity.
Qed.

(** C5.  [decay~ 1. 0. 1.] at 44100 Hz with nothing connected and default
    attributes, after a bang, run for 44101 samples that the host delivers
    in blocks of any sizes: the first sample put out is [exp (-1/44100)],
    within 1e-3 of 1.0, and the sample put out 44100 samples later is
    [exp (-44101/44100)], within 1e-3 of [exp (-1) * 1.0], itself within
    1e-3 of 0.3679.  The instance ends with that envelope, still running,
    and the shared attack counter is left as it was. *)
Theorem decay_scenario_one_time_constant (a : Z)
    (blocks : list (list t_frame)) :
  length (concat blocks) = Z.to_nat 44101 ->
  exists out,
    decay_perform_blocks a decay_scenario blocks
      = (a, set_envelope decay_scenario (exp (- (44101 / 44100))) 1, out) /\
    length out = Z.to_nat 44101 /\
    tbl out 0 = exp (- / 44100) /\
    Rabs (tbl out 0 - 1) < 1 / 1000 /\
    tbl out 44100 = exp (- (44101 / 44100)) /\
    Rabs (tbl out 44100 - exp (-1) * 1) < 1 / 1000 /\
    Rabs (exp (-1) * 1 - 3679 / 10000) < 1 / 1000.
Proof.
  intros Hlen. rewrite decay_perform_blocks_concat.
  set (ins := concat blocks) in *.
  destruct decay_scenario_plain as [Hplain Henv].
  pose proof c_bounds as Hc.
  assert (Hpow : c ^ Z.to_nat 44101 = exp (- (44101 / 44100))).
  { unfold c. rewrite exp_pow_nat, INR_IZR_INZ, Z2Nat.id by lia.
    f_equal. field. }
  assert (Hthr : DENORMAL_THRESHOLD <= envelope decay_scenario * c ^ length ins).
  { rewrite Henv, Hlen, Hpow, Rmult_1_l.
    pose proof denormal_threshold_small. pose proof exp_neg_2_lower.
    assert (exp (- 2) <= exp (- (44101 / 44100))).
    { left. apply exp_increasing. lra. }
    lra. }
  rewrite (decay_perform64_plain ins a decay_scenario Hplain);
    [|rewrite Henv; lra|exact Hthr].
  eexists. split.
  { rewrite Henv, Hlen, Hpow, Rmult_1_l. reflexivity. }
  split; [rewrite length_map, length_seq; reflexivity|].
  assert (Hnth : forall k, (0 <= k < 44101)%Z ->
            tbl (map (fun k => 1 * c ^ S k) (seq 0 (Z.to_nat 44101))) k
            = c ^ S (Z.to_nat k)).
  { intros k Hk. rewrite tbl_nth by lia.
    rewrite (nth_indep _ 0 ((fun k => 1 * c ^ S k) 0%nat))
      by (rewrite length_map, length_seq; lia).
    rewrite (map_nth (fun k => 1 * c ^ S k)), seq_nth by lia.
    simpl Nat.add. ring. }
  rewrite !Hnth by lia.
  replace (S (Z.to_nat 44100)) with (Z.to_nat 44101) by lia.
  rewrite Hpow. change (S (Z.to_nat 0)) with 1%nat. rewrite pow_1.
  split; [reflexivity|].
  assert (Hlow : 1 - / 44100 < c) by (apply exp_neg_lower; lra).
  assert (Hup1 : exp (-1) < 1).
  { replace (-1) with (- (1)) by ring. apply exp_neg_lt_1. lra. }
  pose proof (exp_pos (-1)) as Hpos1.
  split; [apply Rabs_def1; lra|].
  split; [reflexivity|].
  replace (- (44101 / 44100)) with (-1 + - / 44100) by field.
  rewrite exp_plus. fold c.
  split; [apply Rabs_def1; nra|].
  rewrite Rmult_1_r. exact exp_m1_approx.
Qed.

(** The hypothesis of C5 on 44101 frames of silence delivered as a block of
    64 frames, one of 44036 and one of a single frame. *)
Lemma decay_scenario_one_time_constant_witness :
  let blocks :=
    [replicate (Z.to_nat 64) (mk_frame 0 0);
     replicate (Z.to_nat 44036) (mk_frame 0 0);
     replicate (Z.to_nat 1) (mk_frame 0 0)] in
  exists out,
    decay_perform_blocks 0 decay_scenario blocks
      = (0%Z, set_envelope decay_scenario (exp (- (44101 / 44100))) 1, out) /\
    length out = Z.to_nat 44101 /\
    tbl out 0 = exp (- / 44100) /\
    Rabs (tbl out 0 - 1) < 1 / 1000 /\
    tbl out 44100 = exp (- (44101 / 44100)) /\
    Rabs (tbl out 44100 - exp (-1) * 1) < 1 / 1000 /\
    Rabs (exp (-1) * 1 - 3679 / 10000) < 1 / 1000.
Proof.
  apply (decay_scenario_one_time_constant 0
           [replicate (Z.to_nat 64) (mk_frame 0 0);
            replicate (Z.to_nat 44036) (mk_frame 0 0);
            replicate (Z.to_nat 1) (mk_frame 0 0)]).
  cbn [concat]. rewrite !length_app, !length_replicate. cbn [length]. lia.
Defined.

End DecayScenario.

(** ** decay~: the attack counter of the AD mode *)

Section DecayAttack.

Import Decay.

(** The counter after one sample: it advances, up to 44, exactly when the
    instance that runs is active and in AD mode, whichever instance it is. *)
Lemma decay_perform_sample_counter (a : Z) (x : t_decay) (fr : t_frame) :
  (perform_sample a x fr).1.1 =
  if truthy (is_active x) && (envelope_mode x =? 1)%Z
  then (if (a <? 44)%Z then (a + 1)%Z else 44%Z)
  else a.
Proof.
  unfold perform_sample.
  destruct (truthy (is_active x)); cbn [andb].
  - unfold active_block, attack_ramp.
    destruct (envelope_mode x =? 1)%Z; [destruct (a <? 44)%Z|];
      repeat match goal with
        | |- context [Rlt_dec ?u ?v] => destruct (Rlt_dec u v)
        end;
      cbn [smooth_samples set_envelope];
      destruct (smooth_samples x >? 0)%Z; reflexivity.
  - destruct (smooth_samples x >? 0)%Z; reflexivity.
Qed.

Lemma ad_samples_nonneg (ins : list t_frame) :
  forall (a : Z) (x : t_decay), (0 <= ad_samples a x ins)%Z.
Proof.
  induction ins as [|fr ins IH]; intros a x; cbn [ad_samples]; [lia|].
  destruct (perform_sample a x fr) as [[a1 x1] o].
  specialize (IH a1 x1).
  destruct (truthy (is_active x) && (envelope_mode x =? 1)%Z); lia.
Qed.

(** The counter after a block: it has counted, up to 44, the samples that
    ran the attack branch. *)
Lemma decay_perform64_counter (ins : list t_frame) :
  forall (a : Z) (x : t_decay),
  (0 <= a <= 44)%Z ->
  (decay_perform64 a x ins).1.1 = Z.min 44 (a + ad_samples a x ins).
Proof.
  induction ins as [|fr ins IH]; intros a x Ha;
    cbn [decay_perform64 ad_samples]; [cbn [fst]; lia|].
  pose proof (decay_perform_sample_counter a x fr) as Hc.
  destruct (perform_sample a x fr) as [[a1 x1] o]. cbn [fst] in Hc.
  pose proof (ad_samples_nonneg ins a1 x1) as Hnn.
  assert (Ha1 : (0 <= a1 <= 44)%Z).
  { subst a1. destruct (truthy (is_active x) && (envelope_mode x =? 1)%Z);
      [destruct (Z.ltb_spec a 44)|]; lia. }
  specialize (IH a1 x1 Ha1).
  destruct (decay_perform64 a1 x1 ins) as [[a2 x2] out]. cbn [fst] in *.
  rewrite IH. subst a1.
  destruct (truthy (is_active x) && (envelope_mode x =? 1)%Z);
    [destruct (Z.ltb_spec a 44)|]; lia.
Qed.

(** With the counter at 44 a sample of any instance is the sample of the
    same instance in plain decay mode, and the counter stays. *)
Lemma decay_perform_sample_saturated (x : t_decay) (fr : t_frame) :
  exists x' o,
    perform_sample 44 x fr = (44%Z, x', o) /\
    perform_sample 44 (set_envelope_mode x 0) fr
      = (44%Z, set_envelope_mode x' 0, o).
Proof.
  unfold perform_sample. cbn [set_envelope_mode is_active time_has_signal
    curve_has_signal decay_time_float curve_float].
  destruct (truthy (is_active x)).
  - unfold active_block, attack_ramp.
    cbn [set_envelope_mode envelope sr peak curve_has_signal curve_response
      envelope_mode is_active].
    change (0 =? 1)%Z with false. change (44 <? 44)%Z with false.
    destruct (envelope_mode x =? 1)%Z; cbv beta iota;
      repeat match goal with
        | |- context [Rlt_dec ?u ?v] => destruct (Rlt_dec u v)
        end;
      cbn [smooth_samples set_envelope set_envelope_mode click_protection
        smooth_start_level];
      destruct (smooth_samples x >? 0)%Z;
      eexists _, _; split; reflexivity.
  - cbn [smooth_samples set_envelope set_envelope_mode click_protection
      smooth_start_level].
    destruct (smooth_samples x >? 0)%Z; eexists _, _; split; reflexivity.
Qed.

Lemma decay_perform64_saturated (ins : list t_frame) : forall x : t_decay,
  exists x' out,
    decay_perform64 44 x ins = (44%Z, x', out) /\
    decay_perform64 44 (set_envelope_mode x 0) ins
      = (44%Z, set_envelope_mode x' 0, out).
Proof.
  induction ins as [|fr ins IH]; intros x.
  - exists x, []. split; reflexivity.
  - destruct (decay_perform_sample_saturated x fr) as (x1 & o & H1 & H2).
    destruct (IH x1) as (x2 & out & H3 & H4).
    exists x2, (o :: out). cbn [decay_perform64].
    rewrite H1, H2, H3, H4. split; reflexivity.
Qed.

(** A bang does not look at the envelope mode. *)
Lemma decay_bang_mode (x : t_decay) (m : Z) :
  decay_bang (set_envelope_mode x m) = set_envelope_mode (decay_bang x) m.
Proof. reflexivity. Qed.

(** One host call on a saturated world and on its plain decay twin. *)
Lemma decay_world_step_saturated (w : t_world) (ev : t_event) :
  attack_samples w = 44%Z ->
  attack_samples (world_step w ev).1 = 44%Z /\
  world_step (decay_mode_world w) ev
    = (decay_mode_world (world_step w ev).1, (world_step w ev).2).
Proof.
  intros Ha. destruct w as [a insts]. simpl in Ha. subst a.
  destruct ev as [sr0 argv|i|i ins]; unfold decay_mode_world; simpl.
  - split; [reflexivity|]. rewrite fmap_app. reflexivity.
  - rewrite list_lookup_fmap.
    destruct (insts !! i) as [x|]; simpl; split; try reflexivity.
    rewrite list_fmap_insert. reflexivity.
  - rewrite list_lookup_fmap.
    destruct (insts !! i) as [x|]; simpl; [|split; reflexivity].
    destruct (decay_perform64_saturated ins x) as (x' & out & H1 & H2).
    rewrite H1, H2. simpl. split; [reflexivity|].
    rewrite list_fmap_insert. reflexivity.
Qed.

(** C10.  The attack counter belongs to the patcher, not to an instance: a
    bang on any instance leaves it as it is, and it advances (up to 44) on
    every sample that any active AD-mode instance processes, so that after
    a block it has counted those samples up to 44.  Once it is 44
    it is 44 after every further sequence of constructions, bangs and
    blocks on any instances, and every block put out from then on is the
    block of the same instances in plain decay mode: no trigger has an
    attack ramp any more. *)
Theorem decay_attack_counter_never_resets (w : t_world) (evs : list t_event) :
  attack_samples w = 44%Z ->
  attack_samples (world_run w evs).1 = 44%Z /\
  (world_run w evs).2 = (world_run (decay_mode_world w) evs).2 /\
  (forall (w0 : t_world) (i : nat),
     attack_samples (world_step w0 (EvBang i)).1 = attack_samples w0) /\
  (forall (a : Z) (x : t_decay) (fr : t_frame),
     (perform_sample a x fr).1.1 =
     if truthy (is_active x) && (envelope_mode x =? 1)%Z
     then (if (a <? 44)%Z then (a + 1)%Z else 44%Z)
     else a) /\
  (forall (a : Z) (x : t_decay) (ins : list t_frame),
     (0 <= a <= 44)%Z ->
     (decay_perform64 a x ins).1.1 = Z.min 44 (a + ad_samples a x ins)).
Proof.
  intros Ha. split; [|split; [|split; [|split]]].
  - revert w Ha. induction evs as [|ev evs IH]; intros w Ha; [exact Ha|].
    destruct (decay_world_step_saturated w ev Ha) as [Ha' _].
    simpl. destruct (world_step w ev) as [w1 o1]. simpl in Ha'.
    specialize (IH w1 Ha').
    destruct (world_run w1 evs) as [w2 o2]. exact IH.
  - revert w Ha. induction evs as [|ev evs IH]; intros w Ha; [reflexivity|].
    destruct (decay_world_step_saturated w ev Ha) as [Ha' Hstep].
    simpl. rewrite Hstep.
    destruct (world_step w ev) as [w1 o1]. simpl in *.
    specialize (IH w1 Ha').
    destruct (world_run w1 evs) as [w2 o2].
    destruct (world_run (decay_mode_world w1) evs) as [w3 o3].
    simpl in *. rewrite IH. reflexivity.
  - intros w0 i. simpl. destruct (instances w0 !! i); reflexivity.
  - exact decay_perform_sample_counter.
  - intros a x ins Hrange. apply decay_perform64_counter. exact Hrange.
Qed.

(** The hypothesis of C10 on a patcher of two AD-mode instances: the second
    is triggered for the first time after the counter has run out. *)
Lemma decay_attack_counter_never_resets_witness :
  let evs := [EvBang 1; EvPerform 1 [mk_frame 0 0; mk_frame 0 0]] in
  attack_samples saturated_world = 44%Z /\
  attack_samples (world_run saturated_world evs).1 = 44%Z /\
  (world_run saturated_world evs).2
    = (world_run (decay_mode_world saturated_world) evs).2.
Proof.
  intros evs. split; [reflexivity|].
  destruct (decay_attack_counter_never_resets saturated_world evs)
    as (H1 & H2 & _); [reflexivity|].
  split; [exact H1|exact H2].
Defined.

End DecayAttack.

(** ** noises~: morphing between adjacent types *)

Section NoisesMorph.

Import Noises.















End NoisesMorph.

(** ** noises~: two instances with the same seed *)

Section NoisesSeed.

Import Noises.

(** Two new instances differ in the automatic seed only. *)
Lemma noises_new_same_but_rng (a1 t1 a2 t2 : Z) (argv : list t_atom) :
  same_but_rng (noises_new a1 t1 argv) (noises_new a2 t2 argv).
Proof. reflexivity. Qed.

(** The seed message wipes out what told the two apart. *)
Lemma noises_seed_same (x y : t_noises) (seed : Z) :
  same_but_rng x y -> noises_seed x seed = noises_seed y seed.
Proof.
  intros H.
  change (noises_seed (set_rng x 0) seed = noises_seed (set_rng y 0) seed).
  rewrite H. reflexivity.
Qed.

(** A control message puts out nothing and keeps two such instances
    alike. *)
Lemma noises_control_step (x y : t_noises) (m : t_msg) :
  same_but_rng x y -> is_control m ->
  (instance_step x m).1 = [] /\ (instance_step y m).1 = [] /\
  same_but_rng (instance_step x m).2 (instance_step y m).2.
Proof.
  intros H Hm. unfold same_but_rng in *.
  destruct m as [seed|count samplerate|f|f|ins]; cbn [instance_step fst snd];
    try contradiction; split; try reflexivity; split; try reflexivity.
  - rewrite (noises_seed_same x y seed H). reflexivity.
  - change (set_rng (noises_dsp64 (set_rng x 0) count samplerate) 0
            = set_rng (noises_dsp64 (set_rng y 0) count samplerate) 0).
    rewrite H. reflexivity.
  - change (set_rng (noises_type (set_rng x 0) f) 0
            = set_rng (noises_type (set_rng y 0) f) 0).
    rewrite H. reflexivity.
  - change (set_rng (noises_amp (set_rng x 0) f) 0
            = set_rng (noises_amp (set_rng y 0) f) 0).
    rewrite H. reflexivity.
Qed.

(** Control messages, a seed and then any messages: the same blocks come
    out of two instances that differed in the random state only. *)
Lemma noises_instance_run_seeded (pre : list t_msg) (seed : Z)
    (ms : list t_msg) :
  Forall is_control pre ->
  forall x y : t_noises, same_but_rng x y ->
  (instance_run x (pre ++ MSeed seed :: ms)).1
  = (instance_run y (pre ++ MSeed seed :: ms)).1.
Proof.
  induction 1 as [|m pre Hm Hpre IH]; intros x y Hxy.
  - cbn [app instance_run instance_step].
    rewrite (noises_seed_same x y seed Hxy). reflexivity.
  - cbn [app instance_run].
    destruct (noises_control_step x y m Hxy Hm) as (Hox & Hoy & Hnext).
    destruct (instance_step x m) as [ox x1].
    destruct (instance_step y m) as [oy y1]. cbn [fst snd] in *.
    specialize (IH x1 y1 Hnext).
    destruct (instance_run x1 _) as [outx x2].
    destruct (instance_run y1 _) as [outy y2]. cbn [fst] in *.
    subst. reflexivity.
Qed.

(** The blocks that instance [i] puts out depend on its own record and its
    own messages only: not on the other instances, not on the calls that
    come in between, not on [randSeed]. *)
Lemma noises_world_run_isolation (evs : list (nat * t_msg)) :
  forall (w : t_world) (i : nat) (x : t_noises),
  instances w !! i = Some x ->
  of_instance i (world_run w evs).2 = (instance_run x (of_instance i evs)).1.
Proof.
  unfold of_instance.
  induction evs as [|[j m] evs IH]; intros w i x Hx; [reflexivity|].
  cbn [world_run]. unfold world_step. cbn [fst snd].
  destruct (decide (j = i)) as [->|Hne].
  - rewrite Hx. rewrite (filter_cons_True _ (i, m)) by reflexivity.
    cbn [map snd instance_run].
    destruct (instance_step x m) as [out x'].
    specialize (IH (mk_world (randSeed w) (<[i := x']> (instances w))) i x').
    cbn [instances] in IH.
    rewrite list_lookup_insert_eq in IH by (eapply lookup_lt_Some; exact Hx).
    specialize (IH eq_refl).
    destruct (world_run _ evs) as [w2 outs]. cbn [fst snd] in *.
    rewrite (filter_cons_True _ (i, out)) by reflexivity. cbn [map snd].
    destruct (instance_run x' _) as [outs' x2]. cbn [fst] in *.
    rewrite IH. reflexivity.
  - rewrite (filter_cons_False _ (j, m)) by (cbn; exact Hne).
    destruct (instances w !! j) as [y|] eqn:Hy.
    + destruct (instance_step y m) as [out y'].
      specialize (IH (mk_world (randSeed w) (<[j := y']> (instances w))) i x).
      cbn [instances] in IH.
      rewrite list_lookup_insert_ne in IH by exact Hne.
      specialize (IH Hx).
      destruct (world_run _ evs) as [w2 outs]. cbn [fst snd] in *.
      rewrite (filter_cons_False _ (j, out)) by (cbn; exact Hne). exact IH.
    + specialize (IH w i x Hx).
      destruct (world_run w evs) as [w2 outs]. cbn [fst snd] in *.
      rewrite (filter_cons_False _ (j, [])) by (cbn; exact Hne). exact IH.
Qed.

(** C7.  In one patcher, two instances created from the same arguments (at
    whatever addresses and times, hence with different automatic seeds)
    that each receive the same messages, a seed message among them before
    the first block, and the same input blocks, put out identical blocks:
    with the type held at 0 (white) as with any other.  This holds whatever
    the other instances do in between and whatever [randSeed] holds: the
    blocks of an instance depend on its own record only. *)
Theorem noises_same_seed_same_output (w : t_world) (i j : nat)
    (a1 t1 a2 t2 : Z) (argv : list t_atom) (seed : Z)
    (evs : list (nat * t_msg)) (pre ms : list t_msg) :
  instances w !! i = Some (noises_new a1 t1 argv) ->
  instances w !! j = Some (noises_new a2 t2 argv) ->
  Forall is_control pre ->
  of_instance i evs = pre ++ MSeed seed :: ms ->
  of_instance j evs = pre ++ MSeed seed :: ms ->
  of_instance i (world_run w evs).2 = of_instance j (world_run w evs).2.
Proof.
  intros Hi Hj Hpre Hmi Hmj.
  rewrite (noises_world_run_isolation evs w i _ Hi).
  rewrite (noises_world_run_isolation evs w j _ Hj).
  rewrite Hmi, Hmj.
  apply noises_instance_run_seeded; [exact Hpre|].
  apply noises_new_same_but_rng.
Qed.

(** The hypotheses of C7 on two instances that are switched on at 48 kHz,
    seeded with 7 and then process one frame each, in turn. *)
Lemma noises_same_seed_same_output_witness :
  let evs :=
    [(0%nat, MDsp (0, 0)%Z 48000); (1%nat, MDsp (0, 0)%Z 48000);
     (0%nat, MSeed 7); (1%nat, MSeed 7);
     (0%nat, MPerform [mk_frame 0 0]); (1%nat, MPerform [mk_frame 0 0])] in
  of_instance 0 (world_run two_instances evs).2
  = of_instance 1 (world_run two_instances evs).2.
Proof.
  intros evs.
  apply (noises_same_seed_same_output two_instances 0 1 4096 10 8192 20 [] 7
           evs [MDsp (0, 0)%Z 48000] [MPerform [mk_frame 0 0]]);
    try reflexivity.
  repeat constructor.
Defined.

End NoisesSeed.

(** ** ssm2044~: boundedness with a saturated feedback *)

Section Ssm2044Bounded.

Import Ssm2044.

Lemma soft_saturation_bound (input drive : R) :
  0 < drive -> Rabs (soft_saturation input drive) <= / drive.
Proof.
  intros Hd. unfold soft_saturation.
  destruct (Rle_dec drive 0) as [Hn|_]; [lra|].
  apply tanh_over_drive. exact Hd.
Qed.

(** One stage of the cascade keeps a bound that holds for its state and its
    input, for an integrator gain in [0, 0.99]. *)
Lemma stage_bound (s input gain B : R) :
  0 <= gain <= 99 / 100 -> Rabs s <= B -> Rabs input <= B ->
  Rabs (s + gain * (input - s)) <= B.
Proof.
  intros Hg Hs Hi. apply Rabs_le_both in Hs. apply Rabs_le_both in Hi.
  apply Rabs_le. split; nra.
Qed.

(** The coefficients that [compute_filter_coefficients] stores for a
    resonance in [0,4]. *)
Lemma compute_filter_coefficients_bounds (x : t_ssm2044)
    (cutoff resonance : R) :
  0 <= resonance <= 4 ->
  let x' := compute_filter_coefficients x cutoff resonance in
  0 <= g x' <= 99 / 100 /\ 0 <= k x' <= 16 /\
  state1 x' = state1 x /\ state2 x' = state2 x /\ state3 x' = state3 x /\
  state4 x' = state4 x /\ feedback_sample x' = feedback_sample x /\
  warmth_amount x' = warmth_amount x /\
  character_mode x' = character_mode x /\
  self_oscillation x' = self_oscillation x.
Proof.
  intros Hr. unfold compute_filter_coefficients. cbn.
  split; [apply CLAMP_bounds; lra|].
  split; [|repeat split; reflexivity].
  unfold RESONANCE_SCALE.
  destruct (truthy (resonance_compensation x)); [|lra].
  assert (Hc : 0 < / (1 + resonance * (3 / 10)) <= 1).
  { split; [apply Rinv_0_lt_compat; lra|].
    apply Rle_trans with (/ 1); [apply Rinv_le_contravar; lra|].
    rewrite Rinv_1. lra. }
  unfold Rdiv. rewrite Rmult_1_l. split; nra.
Qed.

(** The states and the output after one sample stay under any bound that
    covers the states and the largest input of the first stage. *)
Lemma ssm2044_perform_sample_bound (x : t_ssm2044) (fr : t_frame) (B : R) :
  0 < warmth_amount x ->
  4 / 3 + 8 / warmth_amount x <= B ->
  Rabs (state1 x) <= B -> Rabs (state2 x) <= B ->
  Rabs (state3 x) <= B -> Rabs (state4 x) <= B ->
  let r := perform_sample x fr in
  Rabs r.1 <= B /\
  warmth_amount r.2 = warmth_amount x /\
  Rabs (state1 r.2) <= B /\ Rabs (state2 r.2) <= B /\
  Rabs (state3 r.2) <= B /\ Rabs (state4 r.2) <= B.
Proof.
  intros Hw HB H1 H2 H3 H4. unfold perform_sample, ssm2044_process_sample.
  set (cutoff := CLAMP _ 20 20000).
  set (resonance := CLAMP _ 0 MAX_RESONANCE).
  set (gain := CLAMP _ 0 4).
  assert (Hres : 0 <= resonance <= 4).
  { unfold resonance, MAX_RESONANCE. apply CLAMP_bounds. lra. }
  destruct (compute_filter_coefficients_bounds x cutoff resonance Hres)
    as (Hg & Hk & E1 & E2 & E3 & E4 & Efb & Ew & Ec & Eso).
  set (x1 := compute_filter_coefficients x cutoff resonance) in *.
  cbn [fst snd]. rewrite E1, E2, E3, E4, Efb, Ew, Ec, Eso.
  set (drive_amount := if (character_mode x =? 0)%Z then _ else _).
  assert (Hdrive : 3 / 4 <= drive_amount).
  { unfold drive_amount, INPUT_DRIVE.
    destruct (character_mode x =? 0)%Z; [lra|].
    destruct (character_mode x =? 2)%Z; lra. }
  set (sat_in := soft_saturation (audio_in fr * gain) drive_amount).
  assert (Hin : Rabs sat_in <= 4 / 3).
  { eapply Rle_trans; [apply soft_saturation_bound; lra|].
    replace (4 / 3) with (/ (3 / 4)) by field.
    apply Rinv_le_contravar; lra. }
  set (sat_fb := soft_saturation (feedback_sample x)
                   (FEEDBACK_DRIVE * warmth_amount x)).
  assert (Hfb : Rabs sat_fb <= / (2 * warmth_amount x)).
  { apply soft_saturation_bound. unfold FEEDBACK_DRIVE. lra. }
  set (actual_k := if truthy (self_oscillation x) then k x1 else k x1 * (8 / 10)).
  assert (Hak : 0 <= actual_k <= 16).
  { unfold actual_k. destruct (truthy (self_oscillation x)); lra. }
  assert (Hinv : 0 < / (2 * warmth_amount x)).
  { apply Rinv_0_lt_compat. lra. }
  assert (Hfbin : Rabs (sat_in + actual_k * sat_fb) <= B).
  { apply Rabs_le_both in Hin. apply Rabs_le_both in Hfb.
    assert (HF : 4 / 3 + 16 * / (2 * warmth_amount x) <= B).
    { replace (16 * / (2 * warmth_amount x)) with (8 / warmth_amount x)
        by (field; lra). exact HB. }
    apply Rabs_le. split; nra. }
  set (fb_input := sat_in + actual_k * sat_fb) in *.
  pose proof (stage_bound (state1 x) fb_input (g x1) B Hg H1 Hfbin) as S1.
  set (stage1 := state1 x + g x1 * (fb_input - state1 x)) in *.
  pose proof (stage_bound (state2 x) stage1 (g x1) B Hg H2 S1) as S2.
  set (stage2 := state2 x + g x1 * (stage1 - state2 x)) in *.
  pose proof (stage_bound (state3 x) stage2 (g x1) B Hg H3 S2) as S3.
  set (stage3 := state3 x + g x1 * (stage2 - state3 x)) in *.
  pose proof (stage_bound (state4 x) stage3 (g x1) B Hg H4 S3) as S4.
  set (stage4 := state4 x + g x1 * (stage3 - state4 x)) in *.
  cbn [set_states state1 state2 state3 state4 warmth_amount].
  repeat split;
    try (eapply Rle_trans; [apply denormal_fix_abs|assumption]).
Qed.

Lemma ssm2044_perform64_bound (ins : list t_frame) (B : R) :
  forall x : t_ssm2044,
  0 < warmth_amount x ->
  4 / 3 + 8 / warmth_amount x <= B ->
  Rabs (state1 x) <= B -> Rabs (state2 x) <= B ->
  Rabs (state3 x) <= B -> Rabs (state4 x) <= B ->
  Forall (fun o => Rabs o <= B) (ssm2044_perform64 x ins).1.
Proof.
  induction ins as [|fr ins IH]; intros x Hw HB H1 H2 H3 H4.
  - constructor.
  - cbn [ssm2044_perform64].
    destruct (ssm2044_perform_sample_bound x fr B Hw HB H1 H2 H3 H4)
      as (Ho & Ew & S1 & S2 & S3 & S4).
    destruct (perform_sample x fr) as [o x1]. cbn [fst snd] in *.
    specialize (IH x1). rewrite Ew in IH. specialize (IH Hw HB S1 S2 S3 S4).
    destruct (ssm2044_perform64 x1 ins) as [out x2]. cbn [fst] in *.
    constructor; assumption.
Qed.

(** X25.  With a warmth above 0 the feedback tap is saturated, and for
    every resonance, cutoff, gain and character mode, connected or held,
    and every input sequence of any length, every output sample is within
    a bound fixed by the state the filter starts from and by the warmth:
    the larger of the initial state magnitudes and [4/3 + 8/warmth]. *)
Theorem ssm2044_bounded_with_warmth (x : t_ssm2044) (ins : list t_frame) :
  0 < warmth_amount x ->
  Forall (fun o => Rabs o <= ssm_bound x) (ssm2044_perform64 x ins).1.
Proof.
  intros Hw. unfold ssm_bound. apply ssm2044_perform64_bound; try exact Hw.
  - apply Rmax_r.
  - eapply Rle_trans; [|apply Rmax_l].
    eapply Rle_trans; [|apply Rmax_l]. apply Rmax_l.
  - eapply Rle_trans; [|apply Rmax_l].
    eapply Rle_trans; [|apply Rmax_l]. apply Rmax_r.
  - eapply Rle_trans; [|apply Rmax_l].
    eapply Rle_trans; [|apply Rmax_r]. apply Rmax_l.
  - eapply Rle_trans; [|apply Rmax_l].
    eapply Rle_trans; [|apply Rmax_r]. apply Rmax_r.
Qed.

(** The hypothesis of the bound on a new filter (warmth 0.5) fed two
    samples. *)
Lemma ssm2044_bounded_with_warmth_witness :
  Forall (fun o => Rabs o <= ssm_bound (ssm2044_new 44100 []))
    (ssm2044_perform64 (ssm2044_new 44100 [])
       [mk_frame 1 0 0 0; mk_frame (-1) 0 0 0]).1.
Proof.
  apply (ssm2044_bounded_with_warmth (ssm2044_new 44100 [])).
  simpl. lra.
Defined.

End Ssm2044Bounded.

(** ** ssm2044~: growth without bound when the warmth is 0 *)

Section Ssm2044Cold.

Import Ssm2044.

Lemma cold_instance_config :
  cold_config cold_instance /\ states_above 0 cold_instance.
Proof.
  assert (Hcut : cutoff_float cold_instance = CLAMP 11025 20 20000)
    by reflexivity.
  assert (Hres : resonance_float cold_instance = 1 / 2) by reflexivity.
  assert (Hw : warmth_amount cold_instance = CLAMP 0 0 1) by reflexivity.
  rewrite CLAMP_id in Hcut by lra.
  assert (Hw0 : CLAMP 0 0 1 = 0).
  { unfold CLAMP. destruct (Rlt_dec 0 0); lra. }
  rewrite Hw0 in Hw.
  split.
  - split; [reflexivity|]. split; [reflexivity|]. split; [exact Hcut|].
    split; [exact Hres|]. split; [reflexivity|]. split; [reflexivity|].
    split; [reflexivity|]. split; [reflexivity|]. split; [reflexivity|].
    split; [reflexivity|]. split; [exact Hw|reflexivity].
  - unfold states_above.
    change (state1 cold_instance) with 0. change (state2 cold_instance) with 0.
    change (state3 cold_instance) with 0. change (state4 cold_instance) with 0.
    change (feedback_sample cold_instance) with 0. lra.
Qed.

(** The coefficients of every sample of the cold filter: [g = 1/2] (the
    cutoff is a quarter of the sample rate) and [k = 40/23]. *)
Lemma cold_coefficients (x : t_ssm2044) :
  cold_config x ->
  let x' := compute_filter_coefficients x (CLAMP 11025 20 20000)
              (CLAMP (1 / 2) 0 MAX_RESONANCE) in
  g x' = 1 / 2 /\ k x' = 40 / 23.
Proof.
  intros (Hsr & Hinv & _ & _ & _ & _ & _ & _ & _ & _ & _ & Hcomp).
  unfold compute_filter_coefficients.
  cbn [state1 state2 state3 state4 feedback_sample sr sr_inv cutoff_float
    resonance_float gain_float cutoff_has_signal resonance_has_signal
    gain_has_signal g k oversample_factor character_mode self_oscillation
    warmth_amount resonance_compensation set_coefficients set_states].
  rewrite Hsr, Hinv, Hcomp. change (truthy 1) with true. cbv iota.
  unfold MAX_RESONANCE, RESONANCE_SCALE.
  rewrite (CLAMP_id 11025 20 20000), (CLAMP_id (1 / 2) 0 4) by lra.
  rewrite (CLAMP_id 11025 20 (44100 * (45 / 100))) by lra.
  replace (2 * PI * 11025 * (1 / 44100) * (1 / 2)) with (PI / 4) by field.
  rewrite tan_PI4.
  rewrite (CLAMP_id (1 / (1 + 1)) 0 (99 / 100)) by lra.
  split; field.
Qed.

(** The growth factor of one sample: [(15 + k) / 16]. *)
Local Abbreviation q := (385 / 368).

(** One sample of the cold filter: with the states and the feedback tap at
    [m] or more, and a saturated input [s] that is not negative, the output
    and the new states and feedback tap are at [m * q + s / 16] or more. *)
Lemma cold_step (x : t_ssm2044) (fr : t_frame) (m s : R) :
  cold_config x -> states_above m x -> 0 <= m ->
  s = soft_saturation (audio_in fr * 1) INPUT_DRIVE -> 0 <= s ->
  DENORMAL_THRESHOLD <= m * q + s / 16 ->
  let r := perform_sample x fr in
  m * q + s / 16 <= r.1 /\ cold_config r.2 /\
  states_above (m * q + s / 16) r.2.
Proof.
  intros Hcfg (H1 & H2 & H3 & H4 & Hfb) Hm Hs Hs0 Hthr.
  pose proof (cold_coefficients x Hcfg) as [Hg Hk].
  destruct Hcfg as (Hsr & Hinv & Hcut & Hres & Hgain & Hc1 & Hc2 & Hc3
                    & Hchar & Hso & Hw & Hcomp).
  pose proof denormal_threshold_pos as Hpos.
  unfold perform_sample, ssm2044_process_sample.
  rewrite Hc1, Hc2, Hc3, Hcut, Hres, Hgain. change (truthy 0) with false.
  cbv iota.
  set (x1 := compute_filter_coefficients x _ _) in *.
  assert (E : state1 x1 = state1 x /\ state2 x1 = state2 x /\
              state3 x1 = state3 x /\ state4 x1 = state4 x /\
              feedback_sample x1 = feedback_sample x /\
              character_mode x1 = 1%Z /\ self_oscillation x1 = 1%Z /\
              warmth_amount x1 = 0).
  { unfold x1, compute_filter_coefficients.
    cbn [state1 state2 state3 state4 feedback_sample sr sr_inv cutoff_float
      resonance_float gain_float cutoff_has_signal resonance_has_signal
      gain_has_signal g k oversample_factor character_mode self_oscillation
      warmth_amount resonance_compensation set_coefficients set_states].
    rewrite Hchar, Hso, Hw. repeat split; reflexivity. }
  destruct E as (E1 & E2 & E3 & E4 & Efb & Ec & Eso & Ew).
  rewrite E1, E2, E3, E4, Efb, Ec, Eso, Ew, Hg, Hk.
  change (1 =? 0)%Z with false. change (1 =? 2)%Z with false.
  change (truthy 1) with true. cbv iota.
  rewrite (CLAMP_id 1 0 4) by lra. rewrite <- Hs.
  assert (Hsf : soft_saturation (feedback_sample x) (FEEDBACK_DRIVE * 0)
                = feedback_sample x).
  { unfold soft_saturation, FEEDBACK_DRIVE.
    destruct (Rle_dec (2 * 0) 0) as [_|Hn]; [reflexivity|lra]. }
  rewrite Hsf.
  set (fb_input := s + 40 / 23 * feedback_sample x).
  set (stage1 := state1 x + 1 / 2 * (fb_input - state1 x)).
  set (stage2 := state2 x + 1 / 2 * (stage1 - state2 x)).
  set (stage3 := state3 x + 1 / 2 * (stage2 - state3 x)).
  set (stage4 := state4 x + 1 / 2 * (stage3 - state4 x)).
  set (L := m * q + s / 16) in *.
  assert (S1 : L <= stage1) by (unfold L, stage1, fb_input; lra).
  assert (S2 : L <= stage2) by (unfold L, stage2, stage1, fb_input; lra).
  assert (S3 : L <= stage3)
    by (unfold L, stage3, stage2, stage1, fb_input; lra).
  assert (S4 : L <= stage4)
    by (unfold L, stage4, stage3, stage2, stage1, fb_input; lra).
  assert (Hfix : forall v, L <= v -> denormal_fix v = v).
  { intros v Hv. unfold denormal_fix, fabs. rewrite Rabs_right by lra.
    destruct (Rlt_dec v DENORMAL_THRESHOLD); [lra|reflexivity]. }
  cbn [fst snd]. rewrite !Hfix by assumption.
  split; [exact S4|]. split.
  - unfold cold_config, x1, compute_filter_coefficients.
    cbn [state1 state2 state3 state4 feedback_sample sr sr_inv cutoff_float
      resonance_float gain_float cutoff_has_signal resonance_has_signal
      gain_has_signal g k oversample_factor character_mode self_oscillation
      warmth_amount resonance_compensation set_coefficients set_states].
    repeat (split; [assumption|]). assumption.
  - unfold states_above.
    cbn [state1 state2 state3 state4 feedback_sample sr sr_inv cutoff_float
      resonance_float gain_float cutoff_has_signal resonance_has_signal
      gain_has_signal g k oversample_factor character_mode self_oscillation
      warmth_amount resonance_compensation set_coefficients set_states].
    repeat (split; [assumption|]). assumption.
Qed.

Lemma silence_saturated : 0 = soft_saturation (audio_in silence * 1) INPUT_DRIVE.
Proof.
  unfold soft_saturation, INPUT_DRIVE, silence. cbn [audio_in].
  destruct (Rle_dec (3 / 2) 0) as [Hn|_]; [lra|].
  rewrite !Rmult_0_l, tanh_0. field.
Qed.

(** [tanh (3/2)] is at least a half. *)
Lemma tanh_three_halves : 1 / 2 <= tanh (3 / 2).
Proof.
  unfold tanh, sinh, cosh.
  pose proof (exp_pos (3 / 2)) as Ha. pose proof (exp_pos (- (3 / 2))) as Hb.
  assert (Hprod : exp (3 / 2) * exp (- (3 / 2)) = 1).
  { rewrite <- exp_plus. replace (3 / 2 + - (3 / 2)) with 0 by ring.
    apply exp_0. }
  assert (Hbig : 5 / 2 < exp (3 / 2)).
  { pose proof (exp_ineq1 (3 / 2)). lra. }
  replace ((exp (3 / 2) - exp (- (3 / 2))) / 2
           / ((exp (3 / 2) + exp (- (3 / 2))) / 2))
    with ((exp (3 / 2) - exp (- (3 / 2))) / (exp (3 / 2) + exp (- (3 / 2))))
    by (field; lra).
  apply Rmult_le_reg_r with (exp (3 / 2) + exp (- (3 / 2))); [lra|].
  replace ((exp (3 / 2) - exp (- (3 / 2))) / (exp (3 / 2) + exp (- (3 / 2)))
           * (exp (3 / 2) + exp (- (3 / 2))))
    with (exp (3 / 2) - exp (- (3 / 2))) by (field; lra).
  assert (exp (- (3 / 2)) < 2 / 5) by nra. lra.
Qed.

Lemma impulse_saturated :
  1 / 3 <= soft_saturation (audio_in (mk_frame 1 0 0 0) * 1) INPUT_DRIVE.
Proof.
  unfold soft_saturation, INPUT_DRIVE. cbn [audio_in].
  destruct (Rle_dec (3 / 2) 0) as [Hn|_]; [lra|].
  replace (1 * 1 * (3 / 2)) with (3 / 2) by ring.
  pose proof tanh_three_halves. lra.
Qed.

Lemma ssm2044_perform64_cons (x : t_ssm2044) (fr : t_frame)
    (ins : list t_frame) :
  ssm2044_perform64 x (fr :: ins) =
  ((perform_sample x fr).1 :: (ssm2044_perform64 (perform_sample x fr).2 ins).1,
   (ssm2044_perform64 (perform_sample x fr).2 ins).2).
Proof.
  cbn [ssm2044_perform64]. destruct (perform_sample x fr) as [o x1].
  cbn [fst snd]. destruct (ssm2044_perform64 x1 ins). reflexivity.
Qed.

(** A run of silence multiplies the level by [q] at each sample. *)
Lemma cold_silence_run (n : nat) : forall (x : t_ssm2044) (m : R),
  cold_config x -> states_above m x -> DENORMAL_THRESHOLD <= m ->
  m * q ^ S n
  <= tbl (ssm2044_perform64 x (replicate (S n) silence)).1 (Z.of_nat n).
Proof.
  pose proof denormal_threshold_pos as Hpos.
  assert (Hstep : forall (x : t_ssm2044) (m : R),
            cold_config x -> states_above m x -> DENORMAL_THRESHOLD <= m ->
            m * q <= (perform_sample x silence).1 /\
            cold_config (perform_sample x silence).2 /\
            states_above (m * q) (perform_sample x silence).2).
  { intros x m Hcfg Habove Hm.
    destruct (cold_step x silence m 0 Hcfg Habove) as (Ho & Hcfg1 & Hab1);
      [lra|apply silence_saturated|lra|nra|].
    replace (m * q + 0 / 16) with (m * q) in * by field. auto. }
  induction n as [|n IH]; intros x m Hcfg Habove Hm;
    destruct (Hstep x m Hcfg Habove Hm) as (Ho & Hcfg1 & Hab1).
  - change (replicate 1 silence) with (silence :: replicate 0 silence).
    rewrite ssm2044_perform64_cons. cbn [fst].
    rewrite tbl_of_nat. cbn [nth]. rewrite pow_1. exact Ho.
  - change (replicate (S (S n)) silence)
      with (silence :: replicate (S n) silence).
    rewrite ssm2044_perform64_cons. cbn [fst].
    specialize (IH _ (m * q) Hcfg1 Hab1 ltac:(nra)).
    rewrite !tbl_of_nat in *. cbn [nth].
    replace (m * q ^ S (S n)) with (m * q * q ^ S n) by (simpl; ring).
    exact IH.
Qed.

(** The response of the cold filter to one impulse grows like [q ^ n]. *)
Lemma impulse_response_grows (n : nat) : / 48 * q ^ n <= impulse_response n.
Proof.
  pose proof denormal_threshold_small as Hsmall.
  destruct cold_instance_config as [Hcfg Habove].
  unfold impulse_response, impulse.
  rewrite ssm2044_perform64_cons. cbn [fst].
  pose proof impulse_saturated as Hs.
  destruct (cold_step cold_instance (mk_frame 1 0 0 0) 0 _ Hcfg Habove
              (Rle_refl 0) eq_refl) as (Ho & Hcfg1 & Hab1); [lra|lra|].
  set (s := soft_saturation _ _) in *.
  assert (Hm : / 48 <= 0 * q + s / 16) by lra.
  rewrite tbl_of_nat.
  destruct n as [|n]; cbn [nth].
  - change (q ^ 0) with 1. lra.
  - assert (Hab : states_above (/ 48)
                    (perform_sample cold_instance (mk_frame 1 0 0 0)).2).
    { unfold states_above in *. repeat split; lra. }
    pose proof (cold_silence_run n _ (/ 48) Hcfg1 Hab ltac:(lra)) as Hrun.
    rewrite tbl_of_nat in Hrun. exact Hrun.
Qed.

(** C3 (failing run).  Warmth 0 (in its range [0,1]), the default
    resonance 0.5 (far below the self-oscillation threshold of 3.5), vintage
    character, input one sample of 1.0 and silence from then on: no bound
    holds for the output sequence.  With the drive at 0 [soft_saturation]
    hands the feedback tap back unchanged, and the loop gain [k = 40/23]
    is above 1. *)
Lemma ssm2044_unbounded_without_warmth :
  warmth_amount cold_instance = 0 /\ resonance_float cold_instance = 1 / 2 /\
  ~ (exists B : R, forall n : nat, Rabs (impulse_response n) <= B).
Proof.
  destruct cold_instance_config as
    [(_ & _ & _ & Hres & _ & _ & _ & _ & _ & _ & Hw & _) _].
  split; [exact Hw|]. split; [exact Hres|].
  intros [B HB].
  destruct (Pow_x_infinity q) with (b := 48 * (Rabs B + 1)) as [N HN].
  { rewrite Rabs_right; lra. }
  specialize (HN N (Nat.le_refl N)). specialize (HB N).
  pose proof (impulse_response_grows N) as Hg.
  assert (Hq : 0 < q ^ N) by (apply pow_lt; lra).
  rewrite Rabs_right in HN by lra.
  pose proof (Rle_abs (impulse_response N)). pose proof (Rle_abs B).
  lra.
Qed.

End Ssm2044Cold.

(** ** More shared arithmetic *)

Section CMathMore.

Lemma CLAMP_low (a lo hi : R) : a <= lo -> CLAMP a lo hi = lo.
Proof.
  intros H. unfold CLAMP. destruct (Rlt_dec lo a); [lra|reflexivity].
Qed.


Lemma pow_c_zero (e : R) : pow_c 0 e = 0.
Proof. unfold pow_c. destruct (Rlt_dec 0 0); [lra|reflexivity]. Qed.

Lemma pow_c_one (e : R) : pow_c 1 e = 1.
Proof.
  unfold pow_c. destruct (Rlt_dec 0 1); [|lra].
  unfold Rpower. rewrite ln_1, Rmult_0_r, exp_0. reflexivity.
Qed.

Lemma pow_c_range (b e : R) : 0 <= b <= 1 -> 0 <= e -> 0 <= pow_c b e <= 1.
Proof.
  intros Hb He. unfold pow_c. destruct (Rlt_dec 0 b) as [Hpos|_]; [|lra].
  unfold Rpower. split; [left; apply exp_pos|].
  rewrite <- exp_0.
  assert (Hln : ln b <= 0).
  { destruct (Req_dec b 1) as [->|Hne]; [rewrite ln_1; lra|].
    rewrite <- ln_1. left. apply ln_increasing; lra. }
  destruct (Req_dec (e * ln b) 0) as [->|Hne]; [lra|].
  left. apply exp_increasing. nra.
Qed.

Lemma pow_c_le (a b e : R) :
  0 <= a <= b -> 0 <= e -> pow_c a e <= pow_c b e.
Proof.
  intros Hab He. unfold pow_c.
  destruct (Rlt_dec 0 a) as [Ha|Ha]; destruct (Rlt_dec 0 b) as [Hb|Hb];
    try lra.
  - apply Rle_Rpower_l; lra.
  - left. apply exp_pos.
Qed.

(** A power of at least one lowers a base of [0,1], a power of at most one
    raises it. *)
Lemma pow_c_below (b e : R) : 0 <= b <= 1 -> 1 <= e -> pow_c b e <= b.
Proof.
  intros Hb He. unfold pow_c. destruct (Rlt_dec 0 b) as [Hpos|_]; [|lra].
  unfold Rpower. rewrite <- (exp_ln b Hpos) at 2.
  assert (Hln : ln b <= 0).
  { destruct (Req_dec b 1) as [->|Hne]; [rewrite ln_1; lra|].
    rewrite <- ln_1. left. apply ln_increasing; lra. }
  destruct (Req_dec (e * ln b) (ln b)) as [->|Hne]; [lra|].
  left. apply exp_increasing. nra.
Qed.

Lemma pow_c_above (b e : R) : 0 <= b <= 1 -> 0 <= e <= 1 -> b <= pow_c b e.
Proof.
  intros Hb He. unfold pow_c. destruct (Rlt_dec 0 b) as [Hpos|Hn]; [|lra].
  unfold Rpower. rewrite <- (exp_ln b Hpos) at 1.
  assert (Hln : ln b <= 0).
  { destruct (Req_dec b 1) as [->|Hne]; [rewrite ln_1; lra|].
    rewrite <- ln_1. left. apply ln_increasing; lra. }
  destruct (Req_dec (ln b) (e * ln b)) as [<-|Hne]; [lra|].
  left. apply exp_increasing. nra.
Qed.

Lemma Rmax_eq_l (a b : R) : b <= a -> Rmax a b = a.
Proof. intros. unfold Rmax. destruct (Rle_dec a b); lra. Qed.

Lemma denormal_fix_range (v lo hi : R) :
  lo <= 0 <= hi -> lo <= v <= hi -> lo <= denormal_fix v <= hi.
Proof.
  intros H0 Hv. unfold denormal_fix.
  destruct (Rlt_dec (fabs v) DENORMAL_THRESHOLD); lra.
Qed.

Lemma denormal_fix_0 : denormal_fix 0 = 0.
Proof.
  unfold denormal_fix. destruct (Rlt_dec (fabs 0) DENORMAL_THRESHOLD);
    reflexivity.
Qed.

Lemma exp_le (a b : R) : a <= b -> exp a <= exp b.
Proof.
  intros [Hlt | ->]; [left; apply exp_increasing; exact Hlt|lra].
Qed.

End CMathMore.

(** ** cycle-2d~: the range of the output *)

Section Cycle2dRange.

Import Cycle2d.

Lemma tbl_in_range (table : list R) (i : Z) :
  table_in_range table -> -1 <= tbl table i <= 1.
Proof.
  intros H. unfold tbl. destruct (i <? 0)%Z; [lra|].
  destruct (nth_in_or_default (Z.to_nat i) table 0) as [Hin | ->]; [|lra].
  unfold table_in_range in H. rewrite List.Forall_forall in H.
  apply H. exact Hin.
Qed.

(** Inside [0,1) a lookup lies between two entries of the table. *)
Lemma wavetable_lookup_in_range (table : list R) (ph : R) :
  table_in_range table -> 0 <= ph < 1 ->
  -1 <= wavetable_lookup table ph <= 1.
Proof.
  intros Ht Hph.
  destruct (wavetable_lookup_inside table ph Hph) as (_ & Hf & Heq).
  rewrite Heq.
  pose proof (tbl_in_range table (trunc (ph * 4095)) Ht).
  pose proof (tbl_in_range table (trunc (ph * 4095) + 1) Ht).
  nra.
Qed.

Lemma corner_in_range (x : t_cycle2d) (c : nat) :
  tables_in_range x -> table_in_range (corner x c).
Proof.
  intros [Hc _]. unfold corner.
  destruct (nth_in_or_default c (corner_tables x) []) as [Hin | ->].
  - rewrite List.Forall_forall in Hc. apply Hc. exact Hin.
  - constructor.
Qed.

(** The loop over the custom tables keeps the weighted sum within the total
    weight, which is never negative. *)
Lemma custom_accumulate_range (xp yp ph : R) (tables : list t_custom_table) :
  Forall (fun t => table_in_range (wavetable t)) tables -> 0 <= ph < 1 ->
  forall acc : R * R, 0 <= acc.1 -> - acc.1 <= acc.2 <= acc.1 ->
  0 <= (fold_left (custom_accumulate xp yp ph) tables acc).1 /\
  - (fold_left (custom_accumulate xp yp ph) tables acc).1
    <= (fold_left (custom_accumulate xp yp ph) tables acc).2
    <= (fold_left (custom_accumulate xp yp ph) tables acc).1.
Proof.
  intros Hall Hph. induction Hall as [|t tables Ht _ IH]; intros acc H0 H1.
  - simpl. split; assumption.
  - cbn [fold_left]. apply IH.
    + unfold custom_accumulate. destruct (truthy (active t)); [|exact H0].
      cbn [fst]. set (d := sqrt _).
      assert (Hd : 0 <= d) by apply sqrt_pos.
      assert (Hw : 0 < 1 / (1 + d * 2)).
      { apply Rdiv_lt_0_compat; lra. }
      lra.
    + unfold custom_accumulate. destruct (truthy (active t)); [|exact H1].
      cbn [fst snd]. set (d := sqrt _).
      assert (Hd : 0 <= d) by apply sqrt_pos.
      assert (Hw : 0 < 1 / (1 + d * 2)).
      { apply Rdiv_lt_0_compat; lra. }
      pose proof (wavetable_lookup_in_range _ ph Ht Hph) as Hs.
      nra.
Qed.

Lemma bilinear_interpolate_in_range (x : t_cycle2d) (xp yp ph : R) :
  tables_in_range x -> 0 <= xp <= 1 -> 0 <= yp <= 1 -> 0 <= ph < 1 ->
  -1 <= bilinear_interpolate x xp yp ph <= 1.
Proof.
  intros Hx Hxp Hyp Hph. unfold bilinear_interpolate.
  pose proof (wavetable_lookup_in_range _ ph
                (corner_in_range x CORNER_SINE Hx) Hph) as H00.
  pose proof (wavetable_lookup_in_range _ ph
                (corner_in_range x CORNER_TRIANGLE Hx) Hph) as H01.
  pose proof (wavetable_lookup_in_range _ ph
                (corner_in_range x CORNER_SAW Hx) Hph) as H10.
  pose proof (wavetable_lookup_in_range _ ph
                (corner_in_range x CORNER_SQUARE Hx) Hph) as H11.
  set (s00 := wavetable_lookup (corner x CORNER_SINE) ph) in *.
  set (s01 := wavetable_lookup (corner x CORNER_TRIANGLE) ph) in *.
  set (s10 := wavetable_lookup (corner x CORNER_SAW) ph) in *.
  set (s11 := wavetable_lookup (corner x CORNER_SQUARE) ph) in *.
  assert (Hl0 : -1 <= s00 * (1 - xp) + s10 * xp <= 1) by nra.
  assert (Hl1 : -1 <= s01 * (1 - xp) + s11 * xp <= 1) by nra.
  set (l0 := s00 * (1 - xp) + s10 * xp) in *.
  set (l1 := s01 * (1 - xp) + s11 * xp) in *.
  assert (Hc : -1 <= l0 * (1 - yp) + l1 * yp <= 1) by nra.
  set (cr := l0 * (1 - yp) + l1 * yp) in *.
  destruct Hx as [_ Hcustom].
  pose proof (custom_accumulate_range xp yp ph
                (take (Z.to_nat (num_custom_tables x)) (custom_tables x))
                (Forall_take _ _ _ Hcustom) Hph (0, 0)) as Hacc.
  cbn [fst snd] in Hacc.
  destruct Hacc as [Htw Hws]; [lra|lra|].
  set (acc := fold_left _ _ _) in *.
  destruct (Rgt_dec acc.1 0) as [Hpos|_]; [|exact Hc].
  assert (Hcust : -1 <= acc.2 / acc.1 <= 1).
  { split.
    - apply Rmult_le_reg_r with acc.1; [lra|].
      unfold Rdiv. rewrite Rmult_assoc, Rinv_l by lra. lra.
    - apply Rmult_le_reg_r with acc.1; [lra|].
      unfold Rdiv. rewrite Rmult_assoc, Rinv_l by lra. lra. }
  assert (Hbf : 0 < acc.1 / (acc.1 + 1) < 1).
  { split.
    - apply Rdiv_lt_0_compat; lra.
    - apply Rmult_lt_reg_r with (acc.1 + 1); [lra|].
      unfold Rdiv. rewrite Rmult_assoc, Rinv_l by lra. lra. }
  set (cu := acc.2 / acc.1) in *. set (bf := acc.1 / (acc.1 + 1)) in *.
  nra.
Qed.

Lemma nearest_neighbor_interpolate_in_range (x : t_cycle2d) (xp yp ph : R) :
  tables_in_range x -> 0 <= ph < 1 ->
  -1 <= nearest_neighbor_interpolate x xp yp ph <= 1.
Proof.
  intros Hx Hph. unfold nearest_neighbor_interpolate.
  apply wavetable_lookup_in_range; [|exact Hph].
  apply corner_in_range. exact Hx.
Qed.

(** One trip of the sample loop finishes with a sample of [-1,1]. *)
Lemma cycle2d_perform_sample_range (x : t_cycle2d) (ph : R) (fr : t_frame) :
  tables_in_range x ->
  exists (n : nat) (ph' s : R), 0 <= ph' < 1 /\ -1 <= s <= 1 /\
    forall fuel, (n <= fuel)%nat -> perform_sample fuel x ph fr = Some (ph', s).
Proof.
  intros Hx. unfold perform_sample.
  set (freq := CLAMP _ 0 20000).
  set (xp := CLAMP (if truthy (x_has_signal x) then _ else _) 0 1).
  set (yp := CLAMP (if truthy (y_has_signal x) then _ else _) 0 1).
  set (po := CLAMP (if truthy (phase_has_signal x) then _ else _) 0 1).
  assert (Hxp : 0 <= xp <= 1) by (apply CLAMP_bounds; lra).
  assert (Hyp : 0 <= yp <= 1) by (apply CLAMP_bounds; lra).
  destruct (wrap01_total (ph + freq * sr_inv x)) as (n1 & q & Hq & Hq').
  destruct (wrap01_total (q + po)) as (n2 & r & Hr & Hr').
  exists (Nat.max n1 n2), q.
  exists (if (interpolation x =? 1)%Z
          then nearest_neighbor_interpolate x xp yp r
          else bilinear_interpolate x xp yp r).
  split; [exact Hq|]. split.
  - destruct (interpolation x =? 1)%Z.
    + apply nearest_neighbor_interpolate_in_range; assumption.
    + apply bilinear_interpolate_in_range; assumption.
  - intros fuel Hfuel.
    rewrite Hq' by lia. simpl. rewrite Hr' by lia. reflexivity.
Qed.

Lemma cycle2d_perform_loop_range (x : t_cycle2d) (ins : list t_frame) :
  tables_in_range x -> forall ph : R,
  exists (n : nat) (ph' : R) (out : list R),
    Forall (fun s => -1 <= s <= 1) out /\ length out = length ins /\
    forall fuel, (n <= fuel)%nat ->
      perform_loop fuel x ph ins = Some (ph', out).
Proof.
  intros Hx. induction ins as [|fr ins IH]; intros ph.
  - exists 0%nat, ph, []. split; [constructor|]. split; reflexivity.
  - destruct (cycle2d_perform_sample_range x ph fr Hx)
      as (n1 & q & s & _ & Hs & Hstep).
    destruct (IH q) as (n2 & ph' & out & Hout & Hlen & Hloop).
    exists (Nat.max n1 n2), ph', (s :: out). split; [|split].
    + constructor; assumption.
    + simpl. rewrite Hlen. reflexivity.
    + intros fuel Hfuel. simpl.
      rewrite Hstep by lia. simpl. rewrite Hloop by lia. reflexivity.
Qed.

(** X1.  While every table of the object holds samples of [-1,1], every block
    completes and every sample it puts out is in [-1,1], for any
    frequency, position and phase-offset inputs, in each interpolation
    mode and with any number of custom tables loaded; the tables stay as
    they are. *)
Theorem cycle2d_output_in_range (x : t_cycle2d) (ins : list t_frame) :
  tables_in_range x ->
  exists (n : nat) (x' : t_cycle2d) (out : list R),
    Forall (fun s => -1 <= s <= 1) out /\ length out = length ins /\
    tables_in_range x' /\
    forall fuel, (n <= fuel)%nat ->
      cycle2d_perform64 fuel x ins = Some (x', out).
Proof.
  intros Hx.
  destruct (cycle2d_perform_loop_range x ins Hx (phase x))
    as (n & ph' & out & Hout & Hlen & Hloop).
  exists n, (set_phase x ph'), out.
  split; [exact Hout|]. split; [exact Hlen|]. split; [exact Hx|].
  intros fuel Hfuel. unfold cycle2d_perform64.
  rewrite Hloop by exact Hfuel. reflexivity.
Qed.

(** A generated table holds values of its waveform on [0,1). *)
Lemma fill_table_in_range (f : R -> R) (size : Z) :
  (forall p, 0 <= p < 1 -> -1 <= f p <= 1) ->
  table_in_range (fill_table f size).
Proof.
  intros Hf. unfold table_in_range, fill_table.
  apply List.Forall_forall. intros v Hv.
  apply in_map_iff in Hv. destruct Hv as (i & <- & Hi).
  apply in_seq in Hi. apply Hf.
  assert (Hsz : (0 < size)%Z) by lia.
  assert (Hsz' : 0 < IZR size) by (apply IZR_lt; exact Hsz).
  assert (Hi0 : 0 <= INR i) by apply pos_INR.
  assert (Hi1 : INR i < IZR size).
  { rewrite INR_IZR_INZ. apply IZR_lt. lia. }
  split.
  - apply Rmult_le_pos; [exact Hi0|]. left. apply Rinv_0_lt_compat. exact Hsz'.
  - apply Rmult_lt_reg_r with (IZR size); [exact Hsz'|].
    unfold Rdiv. rewrite Rmult_assoc, Rinv_l by lra. lra.
Qed.

Lemma init_corner_tables_in_range (mode : Z) :
  Forall table_in_range (init_corner_tables mode).
Proof.
  assert (Hsin : forall k, table_in_range
            (fill_table (fun phase => sin (k phase)) WAVETABLE_SIZE)).
  { intros k. apply fill_table_in_range. intros p _.
    pose proof (SIN_bound (k p)). lra. }
  unfold init_corner_tables. destruct (mode =? 1)%Z.
  - apply List.Forall_cons; [|apply List.Forall_cons;
      [|apply List.Forall_cons; [|apply List.Forall_cons;
        [|apply List.Forall_nil]]]].
    + apply (Hsin (fun phase => 2 * PI * phase)).
    + apply (Hsin (fun phase => 2 * PI * phase * IZR 2)).
    + apply (Hsin (fun phase => 2 * PI * phase * IZR 3)).
    + apply (Hsin (fun phase => 2 * PI * phase * IZR 4)).
  - apply List.Forall_cons; [|apply List.Forall_cons;
      [|apply List.Forall_cons; [|apply List.Forall_cons;
        [|apply List.Forall_nil]]]].
    + apply (Hsin (fun phase => 2 * PI * phase)).
    + apply fill_table_in_range. intros p Hp.
      destruct (Rlt_dec p (1 / 4)); [|destruct (Rlt_dec p (3 / 4))]; lra.
    + apply fill_table_in_range. intros p Hp. lra.
    + apply fill_table_in_range. intros p Hp.
      destruct (Rlt_dec p (1 / 2)); lra.
Qed.


Lemma cycle2d_new_tables_in_range (sr0 : R) (argv : list t_atom) :
  tables_in_range (cycle2d_new sr0 argv).
Proof.
  unfold tables_in_range, cycle2d_new.
  cbn [corner_tables custom_tables]. split.
  - apply init_corner_tables_in_range.
  - apply Forall_replicate. cbn [wavetable].
    unfold table_in_range. apply Forall_replicate. lra.
Qed.



(** The range of the output on a new object in its nearest-neighbour mode,
    fed one frame. *)
Lemma cycle2d_output_in_range_witness :
  exists (n : nat) (x' : t_cycle2d) (out : list R),
    Forall (fun s => -1 <= s <= 1) out /\
    length out = length [mk_frame 440 0 0 0] /\
    tables_in_range x' /\
    forall fuel, (n <= fuel)%nat ->
      cycle2d_perform64 fuel
        (cycle2d_attr_setinterpolation (cycle2d_new 44100 []) 1)
        [mk_frame 440 0 0 0] = Some (x', out).
Proof.
  apply (cycle2d_output_in_range
           (cycle2d_attr_setinterpolation (cycle2d_new 44100 []) 1)
           [mk_frame 440 0 0 0]).
  exact (cycle2d_new_tables_in_range 44100 []).
Defined.

End Cycle2dRange.

(** ** cycle-2d~: messages, buffers and the frequency inlet *)

Section Cycle2dControl.

Import Cycle2d.

(** The phase invariant on a new object and one frame. *)
Lemma cycle2d_phase_invariant_witness :
  exists (n : nat) (x' : t_cycle2d) (out : list R),
    0 <= phase x' < 1 /\
    length out = length [mk_frame 30000 0 0 5] /\
    forall fuel, (n <= fuel)%nat ->
      cycle2d_perform64 fuel (cycle2d_new 8000 []) [mk_frame 30000 0 0 5]
        = Some (x', out).
Proof.
  apply (cycle2d_phase_invariant (cycle2d_new 8000 []) [mk_frame 30000 0 0 5]).
  left. discriminate.
Defined.



Lemma cycle2d_perform_loop_frozen (x : t_cycle2d) (ins : list t_frame) :
  freq_float x <= 0 -> Forall (fun fr => freq_in fr <= 0) ins ->
  forall ph : R, 0 <= ph < 1 ->
  exists (n : nat) (out : list R),
    length out = length ins /\
    forall fuel, (n <= fuel)%nat ->
      perform_loop fuel x ph ins = Some (ph, out).
Proof.
  intros Hf Hall. induction Hall as [|fr ins Hfr _ IH]; intros ph Hph.
  - exists 0%nat, []. split; reflexivity.
  - destruct (IH ph Hph) as (n2 & out & Hlen & Hloop).
    cbn [perform_loop]. unfold perform_sample.
    rewrite (CLAMP_low (if truthy (freq_has_signal x) then _ else _) 0 20000)
      by (destruct (truthy (freq_has_signal x)); assumption).
    rewrite Rmult_0_l, Rplus_0_r.
    set (po := CLAMP (if truthy (phase_has_signal x) then _ else _) 0 1).
    destruct (wrap01_total (ph + po)) as (n1 & r & _ & Hr).
    exists (Nat.max n1 n2). eexists. split.
    2:{ intros fuel Hfuel. rewrite (wrap01_id fuel ph Hph). simpl.
        rewrite Hr by lia. simpl. rewrite Hloop by lia. simpl. reflexivity. }
    simpl. rewrite Hlen. reflexivity.
Qed.

(** X5.  A frequency that is zero or negative, held or on the signal inlet, is
    clamped to 0 Hz: the block completes and the phase is exactly where it
    was, so the oscillator never runs backwards. *)
Theorem cycle2d_nonpositive_frequency_freezes (x : t_cycle2d)
    (ins : list t_frame) :
  freq_float x <= 0 -> Forall (fun fr => freq_in fr <= 0) ins ->
  0 <= phase x < 1 ->
  exists (n : nat) (x' : t_cycle2d) (out : list R),
    phase x' = phase x /\ length out = length ins /\
    forall fuel, (n <= fuel)%nat ->
      cycle2d_perform64 fuel x ins = Some (x', out).
Proof.
  intros Hf Hall Hph.
  destruct (cycle2d_perform_loop_frozen x ins Hf Hall (phase x) Hph)
    as (n & out & Hlen & Hloop).
  exists n, (set_phase x (phase x)), out.
  split; [reflexivity|]. split; [exact Hlen|].
  intros fuel Hfuel. unfold cycle2d_perform64.
  rewrite Hloop by exact Hfuel. reflexivity.
Qed.

(** A new object sent the float 0.5 on its x inlet and the integer -5 on
    its frequency inlet, then one frame. *)
Lemma cycle2d_nonpositive_frequency_freezes_witness :
  let x := cycle2d_int (cycle2d_float (cycle2d_new 44100 []) 1 (1 / 2))
             0 (-5) in
  exists (n : nat) (x' : t_cycle2d) (out : list R),
    phase x' = phase x /\ length out = length [mk_frame (-1) 0 0 0] /\
    forall fuel, (n <= fuel)%nat ->
      cycle2d_perform64 fuel x [mk_frame (-1) 0 0 0] = Some (x', out).
Proof.
  apply (cycle2d_nonpositive_frequency_freezes
           (cycle2d_int (cycle2d_float (cycle2d_new 44100 []) 1 (1 / 2))
              0 (-5))
           [mk_frame (-1) 0 0 0]).
  - cbn [freq_float cycle2d_int Z.eqb]. rewrite CLAMP_low; lra.
  - repeat constructor. cbn [freq_in]. lra.
  - cbn [phase cycle2d_int cycle2d_float cycle2d_new]. lra.
Defined.

Lemma cycle2d_perform_loop_set_custom (fuel : nat) (x : t_cycle2d)
    (tables : list t_custom_table) (n : Z) (ins : list t_frame) :
  interpolation x = 1%Z ->
  forall ph : R,
  perform_loop fuel (set_custom x tables n) ph ins = perform_loop fuel x ph ins.
Proof.
  intros Hi. induction ins as [|fr ins IH]; intros ph; [reflexivity|].
  cbn [perform_loop].
  assert (Hs : perform_sample fuel (set_custom x tables n) ph fr
               = perform_sample fuel x ph fr).
  { unfold perform_sample, nearest_neighbor_interpolate, corner, set_custom.
    cbn [freq_has_signal x_has_signal y_has_signal phase_has_signal
         freq_float x_float y_float phase_offset_float sr_inv interpolation
         corner_tables].
    rewrite Hi. reflexivity. }
  rewrite Hs. destruct (perform_sample fuel x ph fr) as [[ph1 s]|];
    [|reflexivity].
  cbn [mbind option_bind]. rewrite IH. reflexivity.
Qed.

(** X6.  In the nearest-neighbour mode the custom tables are never read: a
    buffer message that returns, whether it loads a table or not, changes
    no sample of any later block. *)
Theorem cycle2d_nearest_ignores_buffers (x : t_cycle2d)
    (env : gmap string t_buffer_obj) (argv : list t_atom) (fuel : nat)
    (ins : list t_frame) (x' : t_cycle2d) (p : t_post) :
  interpolation x = 1%Z ->
  cycle2d_buffer x env argv = Some (x', p) ->
  snd <$> cycle2d_perform64 fuel x' ins
  = snd <$> cycle2d_perform64 fuel x ins.
Proof.
  intros Hi Heq.
  destruct (cycle2d_buffer_cases x env argv) as
    [(_ & p0 & _ & Hr) | (_ & b & samples & _ & _ & _ & Hr)];
    rewrite Hr in Heq.
  { inversion Heq; subst. reflexivity. }
  destruct (copy_buffer samples (buffer_frames b) _) as [wt|];
    [|discriminate].
  cbn [mbind option_bind] in Heq. inversion Heq; subst x' p.
  unfold cycle2d_perform64. cbn [phase set_custom].
  rewrite cycle2d_perform_loop_set_custom by exact Hi.
  destruct (perform_loop fuel x (phase x) ins) as [[ph out]|]; reflexivity.
Qed.

(** A two-sample buffer loaded into a new object put in nearest-neighbour
    mode. *)
Lemma cycle2d_nearest_ignores_buffers_witness :
  let x := cycle2d_attr_setinterpolation (cycle2d_new 44100 []) 1 in
  let env : gmap string t_buffer_obj :=
    {[ "buf"%string := mk_buffer_obj (Some [1 / 2; - (1 / 2)]) 2 ]} in
  let argv := [A_SYM "buf"; A_FLOAT (1 / 4); A_FLOAT (3 / 4)] in
  exists x' p,
    cycle2d_buffer x env argv = Some (x', p) /\
    snd <$> cycle2d_perform64 9 x' [mk_frame 440 0 0 0]
    = snd <$> cycle2d_perform64 9 x [mk_frame 440 0 0 0].
Proof.
  intros x env argv.
  destruct (cycle2d_buffer_returns x env argv) as [[x' p] Hr];
    [unfold argv; vm_compute; discriminate|].
  exists x', p. split; [exact Hr|].
  apply (cycle2d_nearest_ignores_buffers x env argv 9 [mk_frame 440 0 0 0]
           x' p); [reflexivity|exact Hr].
Defined.

End Cycle2dControl.

(** ** cycle.fold~: phase warping, smoothing and the range of the output *)

Section CycleFoldRange.

Import CycleFold.

(** The phase invariant above 20 kHz on a new object and one frame. *)
Lemma cyclefold_phase_kept_above_20k_witness :
  exists x' out,
    cyclefold_perform64 50 (cyclefold_new []) [mk_frame 0 0 0]
      = Some (x', out) /\ 0 <= phase x' < 1.
Proof.
  apply (cyclefold_phase_kept_above_20k 50 (cyclefold_new [])
           [mk_frame 0 0 0]).
  - lia.
  - cbn [sr cyclefold_new]. lra.
  - reflexivity.
  - cbn [phase cyclefold_new]. lra.
Defined.

(** X8.  Phase warping, for every warp amount (in its range [-1,1] or not) and
    both warp modes: the two ends of the period stay where they are, a phase
    of [0,1] stays in [0,1], and the order of two phases is kept, so that
    the warped sine is still one period of a sine read at a varying
    speed. *)
Theorem warp_phase_improved_monotone (warp_amount : R) (mode : Z) :
  warp_phase_improved 0 warp_amount mode = 0 /\
  warp_phase_improved 1 warp_amount mode = 1 /\
  (forall ph, 0 <= ph <= 1 ->
     0 <= warp_phase_improved ph warp_amount mode <= 1) /\
  (forall p q, 0 <= p <= q -> q <= 1 ->
     warp_phase_improved p warp_amount mode
     <= warp_phase_improved q warp_amount mode).
Proof.
  unfold warp_phase_improved, fabs.
  destruct (Rlt_dec (Rabs warp_amount) (1 / 10000)) as [Hs|Hs].
  { repeat split; intros; lra. }
  pose proof (Rabs_pos warp_amount) as Hab.
  assert (Hc5 : 0 <= 1 + Rabs warp_amount * 5) by lra.
  destruct (mode =? 0)%Z; destruct (Rgt_dec warp_amount 0) as [Hw|Hw].
  - assert (He : 0 <= 1 / (1 + warp_amount * 3)).
    { left. apply Rdiv_lt_0_compat; lra. }
    rewrite pow_c_zero, pow_c_one.
    split; [reflexivity|]. split; [reflexivity|]. split.
    + intros ph Hph. apply pow_c_range; assumption.
    + intros p q Hpq Hq. apply pow_c_le; assumption.
  - assert (He : 0 <= 1 / (1 + - warp_amount * 3)).
    { left. apply Rdiv_lt_0_compat; lra. }
    replace (1 - 0) with 1 by ring. replace (1 - 1) with 0 by ring.
    rewrite pow_c_zero, pow_c_one.
    split; [ring|]. split; [ring|]. split.
    + intros ph Hph.
      pose proof (pow_c_range (1 - ph) _ ltac:(lra) He). lra.
    + intros p q Hpq Hq.
      pose proof (pow_c_le (1 - q) (1 - p) _ ltac:(lra) He). lra.
  - rewrite pow_c_zero, pow_c_one.
    split; [reflexivity|]. split; [reflexivity|]. split.
    + intros ph Hph. apply pow_c_range; assumption.
    + intros p q Hpq Hq. apply pow_c_le; assumption.
  - replace (1 - 0) with 1 by ring. replace (1 - 1) with 0 by ring.
    rewrite pow_c_zero, pow_c_one.
    split; [ring|]. split; [ring|]. split.
    + intros ph Hph.
      pose proof (pow_c_range (1 - ph) _ ltac:(lra) Hc5). lra.
    + intros p q Hpq Hq.
      pose proof (pow_c_le (1 - q) (1 - p) _ ltac:(lra) Hc5). lra.
Qed.

(** Whatever goes in, the reflection loop only returns a value inside the
    threshold. *)
Lemma reflect_loop_result (fuel : nat) (t : R) : forall v r : R,
  reflect_loop fuel t v = Some r -> - t <= r <= t.
Proof.
  induction fuel as [|fuel IH]; intros v r; simpl;
    destruct (Rgt_dec v t); try discriminate;
    destruct (Rlt_dec v (- t)); try discriminate;
    try (intros Heq; inversion Heq; subst; lra); apply IH.
Qed.

Lemma fold_wave_improved_range (fuel : nat) (input fold_amount frequency
    srate : R) (x : t_cyclefold) (v : R) :
  -1 <= input <= 1 -> 0 <= fold_amount <= 1 -> 0 <= srate ->
  fold_wave_improved fuel input fold_amount frequency srate x = Some v ->
  -1 <= v <= 1.
Proof.
  intros Hin Hfold Hsr.
  pose proof (safe_fold_bounds fold_amount frequency srate
                (antialiasing_enabled x) Hfold Hsr) as Hs.
  unfold fold_wave_improved.
  set (s := safe_fold fold_amount frequency srate (antialiasing_enabled x)) in *.
  destruct (folding_algorithm x =? 0)%Z.
  - intros Hr. apply reflect_loop_result in Hr.
    destruct (reflect_threshold_bounds s) as [_ Hhi].
    specialize (Hhi (proj1 Hs)). lra.
  - destruct (folding_algorithm x =? 1)%Z.
    + destruct (Rle_dec s 0); intros Heq; inversion Heq; subst;
        [exact Hin|].
      apply tanh_ratio_bounds; [exact Hin|lra].
    + intros Heq. inversion Heq; subst. clear Heq.
      set (reflected := if Rgt_dec input (1 - s * (1 / 2)) then _ else _).
      assert (Hrefl : -1 <= reflected <= 1).
      { unfold reflected.
        destruct (Rgt_dec input (1 - s * (1 / 2)));
          [|destruct (Rlt_dec input (- (1 - s * (1 / 2))))]; lra. }
      pose proof (tanh_ratio_bounds reflected (1 + s * 4) Hrefl) as Hsoft.
      assert (Hd : 0 < 1 + s * 4) by lra. specialize (Hsoft Hd).
      set (soft := tanh (reflected * (1 + s * 4)) / tanh (1 + s * 4)) in *.
      split; nra.
Qed.

Lemma smooth_param_between (current target factor lo hi : R) :
  0 <= factor <= 1 -> lo <= current <= hi -> lo <= target <= hi ->
  lo <= smooth_param current target factor <= hi.
Proof.
  intros Hf Hc Ht. unfold smooth_param.
  assert (H1 : 0 <= factor * (target - lo)) by (apply Rmult_le_pos; lra).
  assert (H2 : 0 <= (1 - factor) * (current - lo)) by (apply Rmult_le_pos; lra).
  assert (H3 : 0 <= factor * (hi - target)) by (apply Rmult_le_pos; lra).
  assert (H4 : 0 <= (1 - factor) * (hi - current)) by (apply Rmult_le_pos; lra).
  split; lra.
Qed.

(** One trip of the sample loop on a state in range. *)
Lemma cyclefold_perform_sample_range (fuel : nat) (x : t_cyclefold) (ph : R)
    (fr : t_frame) :
  (50 <= fuel)%nat -> smooth_wf x ->
  exists x' ph' o,
    perform_sample fuel x ph fr = Some (x', ph', o) /\
    smooth_wf x' /\ dc_blocking_enabled x' = dc_blocking_enabled x /\
    -400 <= o <= 400 /\
    (truthy (dc_blocking_enabled x) = false -> -1 <= o <= 1).
Proof.
  intros Hfuel (Hfs & Hsf & Hsr & Hx1 & Hy1).
  unfold perform_sample. cbv zeta.
  set (ft := fmax MIN_FOLD_AMOUNT (fmin MAX_FOLD_AMOUNT _)).
  assert (Hft : 0 <= ft <= 1).
  { apply fmax_fmin_bounds. unfold MIN_FOLD_AMOUNT, MAX_FOLD_AMOUNT. lra. }
  set (fa := if truthy (fold_has_signal x) then smooth_param _ ft _
             else smooth_param _ ft _).
  assert (Hfa : 0 <= fa <= 1).
  { unfold fa. destruct (truthy (fold_has_signal x));
      apply smooth_param_between; try assumption; lra. }
  set (wa := if truthy (warp_has_signal x) then smooth_param _ _ _
             else smooth_param _ _ _).
  cbn [set_smooth warp_mode sr dc_blocking_enabled].
  match goal with
  | |- context [fold_wave_improved fuel (sin ?a) ?f ?fq ?s ?y] =>
      destruct (fold_wave_improved_total fuel (sin a) f fq s y) as [v Hv];
        [pose proof (SIN_bound a); lra|exact Hfuel|];
      pose proof (fold_wave_improved_range fuel (sin a) f fq s y v) as Hr;
      rewrite Hv
  end.
  match type of Hr with
  | ?A -> _ => assert (Ha : A) by
      (match goal with |- _ <= sin ?a <= _ =>
         pose proof (SIN_bound a); lra end)
  end.
  specialize (Hr Ha Hfa Hsr Hv).
  cbn [mbind option_bind].
  destruct (truthy (dc_blocking_enabled x)) eqn:Hdc.
  - unfold dc_block.
    cbn [set_smooth dc_block_x1 dc_block_y1 set_dc sr_inv].
    eexists _, _, _. split; [reflexivity|].
    split; [|split; [reflexivity|split; [lra|discriminate]]].
    unfold smooth_wf. cbn. repeat (split; try lra).
  - cbn [set_smooth sr_inv].
    eexists _, _, _. split; [reflexivity|].
    split; [|split; [reflexivity|split; [lra|intros _; exact Hr]]].
    unfold smooth_wf. cbn. repeat (split; try lra).
Qed.

Lemma cyclefold_perform_loop_range (fuel : nat) (ins : list t_frame) :
  (50 <= fuel)%nat -> forall (x : t_cyclefold) (ph : R),
  smooth_wf x ->
  exists x' ph' out,
    perform_loop fuel x ph ins = Some (x', ph', out) /\
    smooth_wf x' /\ length out = length ins /\
    Forall (fun s => -400 <= s <= 400) out /\
    (truthy (dc_blocking_enabled x) = false ->
     Forall (fun s => -1 <= s <= 1) out).
Proof.
  intros Hfuel. induction ins as [|fr ins IH]; intros x ph Hx.
  - exists x, ph, []. split; [reflexivity|]. split; [exact Hx|].
    split; [reflexivity|]. split; [constructor|intros _; constructor].
  - destruct (cyclefold_perform_sample_range fuel x ph fr Hfuel Hx)
      as (x1 & ph1 & o & Hs & Hx1 & Hdc & Ho & Ho1).
    destruct (IH x1 ph1 Hx1) as (x2 & ph2 & out & Hl & Hx2 & Hlen & Hout & Hout1).
    exists x2, ph2, (o :: out). cbn [perform_loop].
    rewrite Hs. cbn [mbind option_bind]. rewrite Hl. cbn [mbind option_bind].
    split; [reflexivity|]. split; [exact Hx2|].
    split; [simpl; rewrite Hlen; reflexivity|].
    split; [constructor; assumption|].
    intros Hoff. constructor; [apply Ho1; exact Hoff|].
    apply Hout1. rewrite Hdc. exact Hoff.
Qed.

(** The loop writes neither the sample rate nor its reciprocal. *)
Lemma cyclefold_perform_loop_sr (fuel : nat) (ins : list t_frame) :
  forall (x x' : t_cyclefold) (ph ph' : R) (out : list R),
  perform_loop fuel x ph ins = Some (x', ph', out) ->
  sr x' = sr x /\ sr_inv x' = sr_inv x.
Proof.
  induction ins as [|fr ins IH]; intros x x' ph ph' out; simpl.
  - intros Heq. inversion Heq; subst. auto.
  - destruct (perform_sample fuel x ph fr) as [[[x1 ph1] s]|] eqn:Hs;
      simpl; [|discriminate].
    destruct (perform_loop fuel x1 ph1 ins) as [[[x2 ph2] o]|] eqn:Hl;
      simpl; [|discriminate].
    intros Heq. inversion Heq; subst.
    apply cyclefold_perform_sample_phase in Hs.
    destruct Hs as (_ & Hinv1 & Hsr1 & _).
    destruct (IH _ _ _ _ _ Hl) as [Hsr2 Hinv2]. split; congruence.
Qed.

(** X9.  On a state in range, at a sample rate of 20 kHz or more and with
    the phase in [0,1), every block completes, leaves the state in range
    and the phase in [0,1), and puts out samples that are bounded: within
    [-1,1] when the DC blocker is switched off, within 400 in magnitude
    when it is on, for any frequency, fold and warp inputs, each folding
    algorithm and each warp mode.  (The phase in [0,1) keeps the bases of
    [pow] in the phase warping from being negative.) *)
Theorem cyclefold_output_bounded (fuel : nat) (x : t_cyclefold)
    (ins : list t_frame) :
  (50 <= fuel)%nat -> smooth_wf x -> phase_wf x ->
  exists x' out,
    cyclefold_perform64 fuel x ins = Some (x', out) /\
    smooth_wf x' /\ phase_wf x' /\ length out = length ins /\
    Forall (fun s => -400 <= s <= 400) out /\
    (truthy (dc_blocking_enabled x) = false ->
     Forall (fun s => -1 <= s <= 1) out).
Proof.
  intros Hfuel Hx (Hsr & Hinv & Hph).
  destruct (cyclefold_perform_loop_range fuel ins Hfuel x (phase x) Hx)
    as (x1 & ph1 & out & Hl & Hx1 & Hlen & Hout & Hout1).
  pose proof (cyclefold_perform_loop_phase fuel ins x x1 (phase x) ph1 out
                Hsr Hinv Hph Hl) as Hph1.
  destruct (cyclefold_perform_loop_sr fuel ins x x1 (phase x) ph1 out Hl)
    as [Hsr1 Hinv1].
  exists (set_phase x1 ph1), out. unfold cyclefold_perform64.
  rewrite Hl. cbn [mbind option_bind].
  split; [reflexivity|]. split; [exact Hx1|].
  split; [|auto].
  unfold phase_wf. cbn [set_phase sr sr_inv phase].
  rewrite Hsr1, Hinv1. auto.
Qed.

Lemma cyclefold_new_smooth_wf (argv : list t_atom) :
  smooth_wf (cyclefold_new argv).
Proof.
  unfold smooth_wf, cyclefold_new. cbn.
  split; [apply fmax_fmin_bounds; unfold MIN_FOLD_AMOUNT, MAX_FOLD_AMOUNT; lra|].
  repeat split; lra.
Qed.

Lemma cyclefold_dsp64_smooth_factor (samplerate : R) :
  0 < samplerate -> 0 < 1 - exp (-1 / ((1 / 100) * samplerate)) < 1.
Proof.
  intros Hsr.
  assert (Hneg : -1 / (1 / 100 * samplerate) < 0).
  { unfold Rdiv at 1.
    assert (0 < / (1 / 100 * samplerate)) by (apply Rinv_0_lt_compat; lra).
    lra. }
  pose proof (exp_pos (-1 / (1 / 100 * samplerate))) as Hp.
  pose proof (exp_increasing _ _ Hneg) as Hlt. rewrite exp_0 in Hlt. lra.
Qed.

Lemma cyclefold_setdcblocking_smooth_wf (x : t_cyclefold) (n : Z) :
  smooth_wf x -> smooth_wf (cyclefold_attr_setdcblocking x n).
Proof.
  intros (Hfs & Hsf & Hsr & Hx1 & Hy1).
  unfold smooth_wf, cyclefold_attr_setdcblocking. cbn. repeat split; lra.
Qed.

(** X10.  The state is in range on every new object, and stays in range
    through the start of the audio at any positive sample rate, a float on
    any inlet, a bang and a write of the DC blocking attribute. *)
Theorem cyclefold_smooth_wf_kept :
  (forall argv, smooth_wf (cyclefold_new argv)) /\
  (forall x count samplerate,
     smooth_wf x -> 0 < samplerate ->
     smooth_wf (cyclefold_dsp64 x count samplerate)) /\
  (forall x inlet f, smooth_wf x -> smooth_wf (cyclefold_float x inlet f)) /\
  (forall x, smooth_wf x -> smooth_wf (cyclefold_bang x)) /\
  (forall x n, smooth_wf x -> smooth_wf (cyclefold_attr_setdcblocking x n)).
Proof.
  split; [exact cyclefold_new_smooth_wf|]. split; [|split; [|split]].
  - intros x [[c0 c1] c2] samplerate (Hfs & Hsf & Hsr & Hx1 & Hy1) Hpos.
    pose proof (cyclefold_dsp64_smooth_factor samplerate Hpos).
    unfold smooth_wf, cyclefold_dsp64. cbn. repeat split; lra.
  - intros x inlet f Hx. exact Hx.
  - intros x Hx. exact Hx.
  - exact cyclefold_setdcblocking_smooth_wf.
Qed.

(** A new object with its DC blocker switched off, and one frame. *)
Lemma cyclefold_output_bounded_witness :
  let x := cyclefold_attr_setdcblocking (cyclefold_new []) 0 in
  exists x' out,
    cyclefold_perform64 50 x [mk_frame 0 0 0] = Some (x', out) /\
    smooth_wf x' /\ phase_wf x' /\ length out = length [mk_frame 0 0 0] /\
    Forall (fun s => -400 <= s <= 400) out /\
    (truthy (dc_blocking_enabled x) = false ->
     Forall (fun s => -1 <= s <= 1) out).
Proof.
  apply (cyclefold_output_bounded 50
           (cyclefold_attr_setdcblocking (cyclefold_new []) 0)
           [mk_frame 0 0 0]).
  - lia.
  - apply cyclefold_setdcblocking_smooth_wf. apply cyclefold_new_smooth_wf.
  - unfold phase_wf. cbn. split; [lra|]. split; [reflexivity|lra].
Defined.

End CycleFoldRange.

(** ** cycle.fold~: the DC blocker and the parameter smoothers *)

Section CycleFoldFilters.

Import CycleFold.

Lemma dc_block_run_constant (c : R) (n : nat) : forall x : t_cyclefold,
  (dc_block_run x (replicate n c)).2 =
  map (fun k => (c - dc_block_x1 x + 995 / 1000 * dc_block_y1 x)
                * (995 / 1000) ^ k) (seq 0 n).
Proof.
  induction n as [|n IH]; intros x; [reflexivity|].
  cbn [replicate dc_block_run]. unfold dc_block.
  specialize (IH (set_dc x c (c - dc_block_x1 x + 995 / 1000 * dc_block_y1 x))).
  destruct (dc_block_run _ (replicate n c)) as [x2 out].
  cbn [snd] in *. rewrite IH. cbn [seq map dc_block_x1 dc_block_y1 set_dc].
  f_equal; [simpl; ring|].
  rewrite <- seq_shift, map_map. apply map_ext. intros k. simpl. ring.
Qed.

(** X11.  The DC blocker on a constant input, from any state: the first output
    is [c - x1 + 0.995 y1] and every later output is 0.995 times the one
    before, so the output falls below any level: the constant is
    removed. *)
Theorem dc_block_removes_constant (x : t_cyclefold) (c : R) :
  (forall n,
     (dc_block_run x (replicate n c)).2 =
     map (fun k => (c - dc_block_x1 x + 995 / 1000 * dc_block_y1 x)
                   * (995 / 1000) ^ k) (seq 0 n)) /\
  (forall eps, 0 < eps ->
     exists N, forall n k, (N <= k < n)%nat ->
       Rabs (tbl (dc_block_run x (replicate n c)).2 (Z.of_nat k)) < eps).
Proof.
  split; [intros n; apply dc_block_run_constant|].
  intros eps Heps.
  set (y0 := c - dc_block_x1 x + 995 / 1000 * dc_block_y1 x).
  pose proof (Rabs_pos y0) as Hy0.
  destruct (pow_lt_1_zero (995 / 1000)) with (y := eps / (Rabs y0 + 1))
    as [N HN].
  { rewrite Rabs_right; lra. }
  { apply Rdiv_lt_0_compat; lra. }
  exists N. intros n k Hk.
  rewrite dc_block_run_constant. fold y0.
  rewrite tbl_of_nat.
  rewrite (nth_indep _ 0 ((fun k => y0 * (995 / 1000) ^ k) 0%nat))
    by (rewrite length_map, length_seq; lia).
  rewrite (map_nth (fun k => y0 * (995 / 1000) ^ k)), seq_nth by lia.
  cbn [Nat.add]. rewrite Rabs_mult.
  specialize (HN k ltac:(lia)).
  assert (Hp : 0 <= Rabs ((995 / 1000) ^ k)) by apply Rabs_pos.
  apply Rle_lt_trans with ((Rabs y0 + 1) * Rabs ((995 / 1000) ^ k)); [nra|].
  apply Rlt_le_trans with ((Rabs y0 + 1) * (eps / (Rabs y0 + 1))).
  - apply Rmult_lt_compat_l; [lra|exact HN].
  - right. field. lra.
Qed.

(** What a trip of the sample loop does to the smoothers of the held
    parameters. *)
Lemma cyclefold_perform_sample_smooth (fuel : nat) (x x' : t_cyclefold)
    (ph ph' out : R) (fr : t_frame) :
  truthy (fold_has_signal x) = false -> truthy (warp_has_signal x) = false ->
  perform_sample fuel x ph fr = Some (x', ph', out) ->
  fold_smooth x' = smooth_param (fold_smooth x) (fold_target x) (smooth_factor x) /\
  warp_smooth x' = smooth_param (warp_smooth x) (warp_target x) (smooth_factor x) /\
  fold_has_signal x' = fold_has_signal x /\
  warp_has_signal x' = warp_has_signal x /\
  fold_amount_float x' = fold_amount_float x /\
  warp_amount_float x' = warp_amount_float x /\
  smooth_factor x' = smooth_factor x.
Proof.
  intros Hf Hw. unfold perform_sample, fold_target, warp_target.
  rewrite Hf, Hw. cbv zeta.
  destruct (fold_wave_improved _ _ _ _ _ _) as [folded|];
    cbn [mbind option_bind]; [|discriminate].
  cbn [set_smooth dc_blocking_enabled].
  destruct (truthy (dc_blocking_enabled x)); unfold dc_block;
    intros Heq; inversion Heq; subst; cbn; repeat split; reflexivity.
Qed.

Lemma cyclefold_perform_loop_smooth (fuel : nat) (ins : list t_frame) :
  forall (x x' : t_cyclefold) (ph ph' : R) (out : list R),
  truthy (fold_has_signal x) = false -> truthy (warp_has_signal x) = false ->
  perform_loop fuel x ph ins = Some (x', ph', out) ->
  fold_smooth x' - fold_target x
  = (1 - smooth_factor x) ^ length ins * (fold_smooth x - fold_target x) /\
  warp_smooth x' - warp_target x
  = (1 - smooth_factor x) ^ length ins * (warp_smooth x - warp_target x).
Proof.
  induction ins as [|fr ins IH]; intros x x' ph ph' out Hf Hw; simpl.
  - intros Heq. inversion Heq; subst. split; ring.
  - destruct (perform_sample fuel x ph fr) as [[[x1 ph1] s]|] eqn:Hs;
      simpl; [|discriminate].
    destruct (perform_loop fuel x1 ph1 ins) as [[[x2 ph2] o]|] eqn:Hl;
      simpl; [|discriminate].
    intros Heq. inversion Heq; subst.
    destruct (cyclefold_perform_sample_smooth _ _ _ _ _ _ _ Hf Hw Hs)
      as (Hfs & Hws & Hfh & Hwh & Hfa & Hwa & Hsf).
    destruct (IH x1 x' ph1 ph' o) as [H1 H2];
      [rewrite Hfh; exact Hf|rewrite Hwh; exact Hw|exact Hl|].
    unfold fold_target, warp_target in *.
    rewrite Hfa, Hwa, Hsf, Hfs, Hws in *.
    unfold smooth_param, fold_target, warp_target in *.
    split; [rewrite H1|rewrite H2]; ring.
Qed.

(** X12.  With nothing connected to the fold and warp inlets, a block of [n]
    samples completes and moves each smoothed parameter toward its held,
    clamped value by the factor [(1 - smooth_factor) ^ n] of the distance:
    exponential smoothing with no overshoot. *)
Theorem cyclefold_smoothing_closed_form (fuel : nat) (x : t_cyclefold)
    (ins : list t_frame) :
  (50 <= fuel)%nat ->
  truthy (fold_has_signal x) = false -> truthy (warp_has_signal x) = false ->
  exists x' out,
    cyclefold_perform64 fuel x ins = Some (x', out) /\
    fold_smooth x' - fold_target x
    = (1 - smooth_factor x) ^ length ins * (fold_smooth x - fold_target x) /\
    warp_smooth x' - warp_target x
    = (1 - smooth_factor x) ^ length ins * (warp_smooth x - warp_target x).
Proof.
  intros Hfuel Hf Hw.
  destruct (cyclefold_perform_loop_total fuel ins Hfuel x (phase x))
    as [[[x1 ph1] out] Hl].
  exists (set_phase x1 ph1), out. unfold cyclefold_perform64.
  rewrite Hl. cbn [mbind option_bind]. split; [reflexivity|].
  cbn [fold_smooth warp_smooth set_phase].
  eapply cyclefold_perform_loop_smooth; eassumption.
Qed.

(** A new object, the float 1.0 sent to the fold inlet, two frames. *)
Lemma cyclefold_smoothing_closed_form_witness :
  let x := cyclefold_float (cyclefold_new []) 1 1 in
  exists x' out,
    cyclefold_perform64 50 x [mk_frame 0 0 0; mk_frame 0 0 0]
      = Some (x', out) /\
    fold_smooth x' - fold_target x
    = (1 - smooth_factor x) ^ 2 * (fold_smooth x - fold_target x) /\
    warp_smooth x' - warp_target x
    = (1 - smooth_factor x) ^ 2 * (warp_smooth x - warp_target x).
Proof.
  apply (cyclefold_smoothing_closed_form 50
           (cyclefold_float (cyclefold_new []) 1 1)
           [mk_frame 0 0 0; mk_frame 0 0 0]);
    [lia | reflexivity | reflexivity].
Defined.

End CycleFoldFilters.

(** ** decay~: the shape, the range and the end of the envelope *)

Section DecayEnvelope.

Import Decay.

Lemma decay_apply_curve_bends (linear_value curve : R) :
  0 <= linear_value <= 1 ->
  0 <= decay_apply_curve linear_value curve <= 1 /\
  (curve < 0 -> decay_apply_curve linear_value curve <= linear_value) /\
  (0 < curve -> linear_value <= decay_apply_curve linear_value curve).
Proof.
  intros Hv. unfold decay_apply_curve, fabs.
  destruct (Req_dec_T curve 0) as [Hc0|Hc0].
  { repeat split; intros; lra. }
  destruct (Rle_dec linear_value 0).
  { repeat split; intros; lra. }
  destruct (Rlt_dec curve 0) as [Hneg|Hpos].
  - rewrite Rabs_left by exact Hneg.
    pose proof (pow_c_range linear_value (1 + - curve) Hv ltac:(lra)).
    pose proof (pow_c_below linear_value (1 + - curve) Hv ltac:(lra)).
    repeat split; intros; lra.
  - assert (He : 0 < 1 / (1 + curve) <= 1).
    { split; [apply Rdiv_lt_0_compat; lra|].
      apply Rmult_le_reg_r with (1 + curve); [lra|].
      unfold Rdiv. rewrite Rmult_assoc, Rinv_l by lra. lra. }
    pose proof (pow_c_range linear_value (1 / (1 + curve)) Hv ltac:(lra)).
    pose proof (pow_c_above linear_value (1 / (1 + curve)) Hv ltac:(lra)).
    repeat split; intros; lra.
Qed.

Lemma decay_apply_curve_ends (curve : R) :
  decay_apply_curve 0 curve = 0 /\ decay_apply_curve 1 curve = 1.
Proof.
  unfold decay_apply_curve.
  destruct (Req_dec_T curve 0); [split; reflexivity|].
  destruct (Rle_dec 0 0) as [_|Hn]; [|lra].
  destruct (Rle_dec 1 0) as [Hn|_]; [lra|].
  rewrite !pow_c_one. destruct (Rlt_dec curve 0); split; reflexivity.
Qed.

(** X13.  The curve shaping on a progress of [0,1]: the result is in [0,1], the
    two ends stay where they are, a negative curve bends the envelope below
    the linear one and a positive curve above it. *)
Theorem decay_apply_curve_shape (linear_value curve : R) :
  0 <= linear_value <= 1 ->
  0 <= decay_apply_curve linear_value curve <= 1 /\
  (curve < 0 -> decay_apply_curve linear_value curve <= linear_value) /\
  (0 < curve -> linear_value <= decay_apply_curve linear_value curve) /\
  decay_apply_curve 0 curve = 0 /\ decay_apply_curve 1 curve = 1.
Proof.
  intros Hv.
  destruct (decay_apply_curve_bends linear_value curve Hv) as (H1 & H2 & H3).
  destruct (decay_apply_curve_ends curve) as [H4 H5].
  repeat split; assumption || apply H1.
Qed.

(** The shaping of the half-way progress by the strongest negative
    curve. *)
Lemma decay_apply_curve_shape_witness :
  0 <= decay_apply_curve (1 / 2) (-3) <= 1 /\
  (-3 < 0 -> decay_apply_curve (1 / 2) (-3) <= 1 / 2) /\
  (0 < -3 -> 1 / 2 <= decay_apply_curve (1 / 2) (-3)) /\
  decay_apply_curve 0 (-3) = 0 /\ decay_apply_curve 1 (-3) = 1.
Proof.
  apply (decay_apply_curve_shape (1 / 2) (-3)). lra.
Defined.

Lemma decay_perform_sample_idle (a : Z) (x : t_decay) (fr : t_frame) :
  idle x -> perform_sample a x fr = (a, x, 0).
Proof.
  intros [Hact Hss]. unfold perform_sample. rewrite Hact.
  destruct (Z.gtb_spec (smooth_samples x) 0) as [Hgt|_]; [lia|].
  rewrite denormal_fix_0. reflexivity.
Qed.

Lemma decay_perform64_idle (ins : list t_frame) (a : Z) (x : t_decay) :
  idle x -> decay_perform64 a x ins = (a, x, replicate (length ins) 0).
Proof.
  intros Hidle. induction ins as [|fr ins IH]; [reflexivity|].
  cbn [decay_perform64]. rewrite (decay_perform_sample_idle a x fr Hidle).
  rewrite IH. reflexivity.
Qed.

Lemma decay_new_idle (sr0 : R) (argv : list t_atom) : idle (decay_new sr0 argv).
Proof. split; [reflexivity|]. cbn [smooth_samples decay_new]. lia. Qed.

(** X14.  An instance that is not running and has no smoothing pending puts out
    zeros, for any time and curve inputs, and neither its state nor the
    shared attack counter changes. *)
Theorem decay_idle_silent (a : Z) (x : t_decay) (ins : list t_frame) :
  idle x -> decay_perform64 a x ins = (a, x, replicate (length ins) 0).
Proof. apply decay_perform64_idle. Qed.

(** A new object, before its first bang. *)
Lemma decay_idle_silent_witness :
  decay_perform64 0 (decay_new 44100 []) [mk_frame 1 0; mk_frame 2 3]
  = (0%Z, decay_new 44100 [],
     replicate (length [mk_frame 1 0; mk_frame 2 3]) 0).
Proof.
  apply (decay_idle_silent 0 (decay_new 44100 [])
           [mk_frame 1 0; mk_frame 2 3]).
  apply decay_new_idle.
Defined.

(** The coefficient of a clamped decay time at a positive sample rate. *)
Lemma decay_coefficient_range (decay_time sample_rate : R) :
  1 / 1000 <= decay_time <= 60 -> 0 < sample_rate ->
  0 < decay_calculate_coefficient decay_time sample_rate
    <= exp (-1 / (60 * sample_rate)) /\
  exp (-1 / (60 * sample_rate)) < 1.
Proof.
  intros Hdt Hsr. unfold decay_calculate_coefficient.
  destruct (Rle_dec decay_time 0) as [Hn|_]; [lra|].
  assert (Hp : 0 < decay_time * sample_rate) by nra.
  assert (Hi : / (60 * sample_rate) <= / (decay_time * sample_rate)).
  { apply Rinv_le_contravar; nra. }
  assert (Hi60 : 0 < / (60 * sample_rate)) by (apply Rinv_0_lt_compat; lra).
  split; [split; [apply exp_pos|apply exp_le; unfold Rdiv; lra]|].
  rewrite <- exp_0. apply exp_increasing. unfold Rdiv. lra.
Qed.

Lemma attack_ramp_range (a a' : Z) (mode : Z) (v o : R) :
  (0 <= a)%Z -> 0 <= v -> attack_ramp a mode v = (a', o) ->
  (0 <= a')%Z /\ 0 <= o <= v.
Proof.
  intros Ha Hv. unfold attack_ramp.
  destruct (mode =? 1)%Z; [destruct (Z.ltb_spec a 44) as [Hlt|Hge]|];
    intros Heq; inversion Heq; subst; try (split; [lia|lra]).
  split; [lia|].
  assert (H0 : 0 <= IZR a) by (apply IZR_le; lia).
  assert (H1 : IZR a <= 44) by (apply IZR_le; lia).
  nra.
Qed.

(** The two ways out of the block that runs while the envelope is active:
    the envelope has fallen below the threshold and the instance stops, or
    the envelope is multiplied by the coefficient and the instance goes
    on. *)
Lemma active_block_cases (a : Z) (x : t_decay) (decay_time curve : R) :
  exists (a' : Z) (o c' : R),
    attack_ramp a (envelope_mode x)
      (decay_apply_curve
         (envelope x * decay_calculate_coefficient decay_time (sr x) / peak x)
         c' * peak x) = (a', o) /\
    (active_block a x decay_time curve = (a', set_envelope x 0 0, 0) \/
     active_block a x decay_time curve
       = (a', set_envelope x
                (envelope x * decay_calculate_coefficient decay_time (sr x))
                (is_active x), o) /\
     DENORMAL_THRESHOLD
       <= envelope x * decay_calculate_coefficient decay_time (sr x)).
Proof.
  unfold active_block. cbv zeta.
  destruct (attack_ramp _ _ _) as [a' o] eqn:Hramp.
  exists a', o. eexists. split; [exact Hramp|].
  destruct (Rlt_dec _ DENORMAL_THRESHOLD) as [Hlt|Hge]; [left; reflexivity|].
  destruct (Rlt_dec o DENORMAL_THRESHOLD); [left; reflexivity|].
  right. split; [reflexivity|lra].
Qed.

(** One sample keeps the state in range and puts out a value of [0,1]. *)
Lemma decay_perform_sample_range (a : Z) (x : t_decay) (fr : t_frame) :
  (0 <= a)%Z -> envelope_wf x ->
  (0 <= (perform_sample a x fr).1.1)%Z /\
  envelope_wf (perform_sample a x fr).1.2 /\
  0 <= (perform_sample a x fr).2 <= 1.
Proof.
  intros Ha (Hsr & Hpk & Henv & Hst & Hss).
  pose proof denormal_threshold_pos as Hthr.
  unfold perform_sample.
  set (dt := CLAMP _ MIN_DECAY_TIME MAX_DECAY_TIME).
  set (cv := CLAMP _ (-3) 3).
  assert (Hdt : 1 / 1000 <= dt <= 60).
  { apply CLAMP_bounds. unfold MIN_DECAY_TIME, MAX_DECAY_TIME. lra. }
  assert (Hblock : exists a1 x1 o1,
            (if truthy (is_active x) then active_block a x dt cv
             else (a, x, 0)) = (a1, x1, o1) /\
            (0 <= a1)%Z /\ envelope_wf x1 /\ 0 <= o1 <= 1 /\
            smooth_samples x1 = smooth_samples x /\
            click_protection x1 = click_protection x).
  { destruct (truthy (is_active x)).
    - destruct (active_block_cases a x dt cv)
        as (a' & o & c' & Hramp & [Hab|[Hab Hge]]); rewrite Hab.
      + destruct (decay_coefficient_range dt (sr x) Hdt Hsr) as [[Hc0 _] _].
        set (coeff := decay_calculate_coefficient dt (sr x)) in *.
        assert (Hlp : 0 <= envelope x * coeff / peak x).
        { apply Rmult_le_pos; [nra|]. left. apply Rinv_0_lt_compat. lra. }
        assert (Hv : 0 <= decay_apply_curve (envelope x * coeff / peak x) c'
                          * peak x).
        { unfold decay_apply_curve.
          destruct (Req_dec_T c' 0); [nra|].
          destruct (Rle_dec _ 0); [nra|].
          assert (Hpc : forall e, 0 <= pow_c (envelope x * coeff / peak x) e).
          { intros e. unfold pow_c. destruct (Rlt_dec 0 _); [|lra].
            left. apply exp_pos. }
          destruct (Rlt_dec c' 0);
            (apply Rmult_le_pos; [apply Hpc|lra]). }
        destruct (attack_ramp_range _ _ _ _ _ Ha Hv Hramp) as [Ha' _].
        exists a', (set_envelope x 0 0), 0.
        split; [reflexivity|]. split; [exact Ha'|].
        split; [unfold envelope_wf; cbn; repeat split; try lra; exact Hss|].
        split; [lra|]. split; reflexivity.
      + destruct (decay_coefficient_range dt (sr x) Hdt Hsr)
          as [[Hc0 Hc1] Hc2].
        set (coeff := decay_calculate_coefficient dt (sr x)) in *.
        assert (Hlp : 0 <= envelope x * coeff / peak x <= 1).
        { split.
          - apply Rmult_le_pos; [nra|]. left. apply Rinv_0_lt_compat. lra.
          - apply Rmult_le_reg_r with (peak x); [lra|].
            unfold Rdiv. rewrite Rmult_assoc, Rinv_l by lra. nra. }
        destruct (decay_apply_curve_bends (envelope x * coeff / peak x) c' Hlp)
          as [[Hs0 Hs1] _].
        assert (Hv : 0 <= decay_apply_curve (envelope x * coeff / peak x) c'
                          * peak x <= 1) by nra.
        destruct (attack_ramp_range _ _ _ _ _ Ha (proj1 Hv) Hramp)
          as [Ha' Ho].
        exists a', (set_envelope x (envelope x * coeff) (is_active x)), o.
        split; [reflexivity|]. split; [exact Ha'|].
        split; [unfold envelope_wf; cbn; repeat split; try nra; exact Hss|].
        split; [lra|]. split; reflexivity.
    - exists a, x, 0. split; [reflexivity|]. split; [exact Ha|].
      split; [unfold envelope_wf; auto|]. split; [lra|]. split; reflexivity. }
  destruct Hblock as (a1 & x1 & o1 & -> & Ha1 & Hx1 & Ho1 & Hss1 & Hcp1).
  destruct Hx1 as (Hsr1 & Hpk1 & Henv1 & Hst1 & Hssl1).
  destruct (Z.gtb_spec (smooth_samples x1) 0) as [Hgt|Hle]; cbn [fst snd].
  - assert (Hcp : 0 < IZR (click_protection x1)) by (apply IZR_lt; lia).
    assert (Hpr : 0 <= IZR (click_protection x1 - smooth_samples x1)
                       / IZR (click_protection x1) <= 1).
    { split.
      - apply Rmult_le_pos; [apply IZR_le; lia|].
        left. apply Rinv_0_lt_compat. exact Hcp.
      - apply Rmult_le_reg_r with (IZR (click_protection x1)); [exact Hcp|].
        unfold Rdiv. rewrite Rmult_assoc, Rinv_l by lra.
        rewrite Rmult_1_r, Rmult_1_l. apply IZR_le. lia. }
    set (pr := IZR (click_protection x1 - smooth_samples x1)
               / IZR (click_protection x1)) in *.
    split; [exact Ha1|]. split.
    + unfold envelope_wf. cbn. repeat split; try lra. lia.
    + apply denormal_fix_range; [lra|].
      assert (0 <= pr * o1) by (apply Rmult_le_pos; lra).
      assert (0 <= (1 - pr) * smooth_start_level x1)
        by (apply Rmult_le_pos; lra).
      assert (0 <= pr * (1 - o1)) by (apply Rmult_le_pos; lra).
      assert (0 <= (1 - pr) * (1 - smooth_start_level x1))
        by (apply Rmult_le_pos; lra).
      lra.
  - split; [exact Ha1|]. split.
    + unfold envelope_wf. auto.
    + apply denormal_fix_range; lra.
Qed.

End DecayEnvelope.

(** ** decay~: blocks, triggers and the messages that are never read *)

Section DecayBlocks.

Import Decay.

Lemma decay_perform64_range (ins : list t_frame) : forall (a : Z) (x : t_decay),
  (0 <= a)%Z -> envelope_wf x ->
  (0 <= (decay_perform64 a x ins).1.1)%Z /\
  envelope_wf (decay_perform64 a x ins).1.2 /\
  Forall (fun s => 0 <= s <= 1) (decay_perform64 a x ins).2.
Proof.
  induction ins as [|fr ins IH]; intros a x Ha Hx.
  - cbn. split; [exact Ha|]. split; [exact Hx|constructor].
  - cbn [decay_perform64].
    destruct (decay_perform_sample_range a x fr Ha Hx) as (Ha1 & Hx1 & Ho).
    destruct (perform_sample a x fr) as [[a1 x1] o]. cbn [fst snd] in *.
    destruct (IH a1 x1 Ha1 Hx1) as (Ha2 & Hx2 & Hout).
    destruct (decay_perform64 a1 x1 ins) as [[a2 x2] out]. cbn [fst snd] in *.
    split; [exact Ha2|]. split; [exact Hx2|]. constructor; assumption.
Qed.

Lemma decay_bang_wf (x : t_decay) : envelope_wf x -> envelope_wf (decay_bang x).
Proof.
  intros (Hsr & Hpk & Henv & Hst & Hss).
  unfold envelope_wf, decay_bang.
  cbn [sr peak envelope smooth_start_level smooth_samples click_protection].
  split; [exact Hsr|]. split; [exact Hpk|]. split; [|split; [lra|]].
  - destruct (truthy (retrigger_mode x)); [lra|].
    destruct (truthy (is_active x)); lra.
  - destruct (Z.gtb_spec (click_protection x) 0); [|lia].
    destruct (Rgt_dec _ _); lia.
Qed.

Lemma decay_new_wf (sr0 : R) (argv : list t_atom) :
  0 < sr0 -> 0 < peak (decay_new sr0 argv) -> envelope_wf (decay_new sr0 argv).
Proof.
  intros Hsr Hpk. unfold envelope_wf.
  split; [exact Hsr|].
  assert (Hle : peak (decay_new sr0 argv) <= 1).
  { unfold decay_new. cbn [peak].
    destruct (match argv !! 2%nat with Some a => atom_is_number a
              | None => false end).
    - apply CLAMP_bounds. lra.
    - unfold DEFAULT_PEAK. lra. }
  cbn [envelope smooth_start_level smooth_samples decay_new] in *.
  repeat split; try lra. lia.
Qed.

(** X15.  On a state in range (a positive sample rate, a positive peak, the
    envelope between 0 and the peak) every sample of every block is in
    [0,1], in each envelope mode and curve response, with or without click
    protection and for any time and curve inputs; the block and a bang both
    leave the state in range, so this holds for the whole life of the
    object. *)
Theorem decay_output_in_range (a : Z) (x : t_decay) (ins : list t_frame) :
  (0 <= a)%Z -> envelope_wf x ->
  (0 <= (decay_perform64 a x ins).1.1)%Z /\
  envelope_wf (decay_perform64 a x ins).1.2 /\
  Forall (fun s => 0 <= s <= 1) (decay_perform64 a x ins).2 /\
  envelope_wf (decay_bang x).
Proof.
  intros Ha Hx.
  destruct (decay_perform64_range ins a x Ha Hx) as (H1 & H2 & H3).
  split; [exact H1|]. split; [exact H2|]. split; [exact H3|].
  apply decay_bang_wf. exact Hx.
Qed.

(** A new object with default arguments. *)
Lemma decay_output_in_range_witness :
  let x := decay_new 44100 [] in
  let ins := [mk_frame 1 0] in
  (0 <= (decay_perform64 0 x ins).1.1)%Z /\
  envelope_wf (decay_perform64 0 x ins).1.2 /\
  Forall (fun s => 0 <= s <= 1) (decay_perform64 0 x ins).2 /\
  envelope_wf (decay_bang x).
Proof.
  apply (decay_output_in_range 0 (decay_new 44100 []) [mk_frame 1 0]).
  - lia.
  - apply decay_new_wf; [lra|]. cbn. unfold DEFAULT_PEAK. lra.
Defined.

(** What one sample does to an envelope that runs: it stops it, or leaves
    it above the threshold and no larger than it was times the coefficient
    of the longest decay time. *)
Lemma decay_perform_sample_decays (a : Z) (x : t_decay) (fr : t_frame) :
  0 < sr x ->
  sr (perform_sample a x fr).1.2 = sr x /\
  smooth_samples (perform_sample a x fr).1.2
    = (if (smooth_samples x >? 0)%Z then smooth_samples x - 1
       else smooth_samples x)%Z /\
  (truthy (is_active x) = false ->
   truthy (is_active (perform_sample a x fr).1.2) = false) /\
  (truthy (is_active (perform_sample a x fr).1.2) = false \/
   DENORMAL_THRESHOLD <= envelope (perform_sample a x fr).1.2 /\
   envelope (perform_sample a x fr).1.2
     <= Rmax (envelope x) 0 * exp (-1 / (60 * sr x))).
Proof.
  intros Hsr. pose proof denormal_threshold_pos as Hthr.
  unfold perform_sample.
  set (dt := CLAMP _ MIN_DECAY_TIME MAX_DECAY_TIME).
  set (cv := CLAMP _ (-3) 3).
  assert (Hdt : 1 / 1000 <= dt <= 60).
  { apply CLAMP_bounds. unfold MIN_DECAY_TIME, MAX_DECAY_TIME. lra. }
  destruct (truthy (is_active x)) eqn:Hact.
  - destruct (active_block_cases a x dt cv)
      as (a' & o & c' & _ & [Hab|[Hab Hge]]); rewrite Hab;
      cbn [smooth_samples set_envelope];
      destruct (smooth_samples x >? 0)%Z;
      cbn [fst snd sr smooth_samples set_envelope set_smooth_samples
           is_active envelope];
      (split; [reflexivity|]); (split; [reflexivity|]);
      (split; [discriminate|]); try (left; reflexivity);
      right; (split; [exact Hge|]);
      destruct (decay_coefficient_range dt (sr x) Hdt Hsr)
        as [[Hc0 Hc1] Hc2];
      pose proof (Rmax_l (envelope x) 0);
      pose proof (Rmax_r (envelope x) 0);
      pose proof (exp_pos (-1 / (60 * sr x)));
      nra.
  - destruct (smooth_samples x >? 0)%Z;
      cbn [fst snd sr smooth_samples set_smooth_samples is_active envelope];
      (split; [reflexivity|]); (split; [reflexivity|]);
      (split; [intros _; exact Hact|]); left; exact Hact.
Qed.

Lemma decay_perform64_decays (ins : list t_frame) : forall (a : Z) (x : t_decay),
  0 < sr x ->
  sr (decay_perform64 a x ins).1.2 = sr x /\
  (smooth_samples (decay_perform64 a x ins).1.2
   <= Z.max (smooth_samples x - Z.of_nat (length ins)) 0)%Z /\
  (truthy (is_active x) = false ->
   truthy (is_active (decay_perform64 a x ins).1.2) = false) /\
  (ins <> [] ->
   truthy (is_active (decay_perform64 a x ins).1.2) = false \/
   DENORMAL_THRESHOLD <= envelope (decay_perform64 a x ins).1.2 /\
   envelope (decay_perform64 a x ins).1.2
     <= Rmax (envelope x) 0 * exp (-1 / (60 * sr x)) ^ length ins).
Proof.
  pose proof denormal_threshold_pos as Hthr.
  induction ins as [|fr ins IH]; intros a x Hsr.
  - cbn. split; [reflexivity|]. split; [lia|]. split; [tauto|congruence].
  - cbn [decay_perform64].
    destruct (decay_perform_sample_decays a x fr Hsr)
      as (Hsr1 & Hss1 & Hin1 & Hdec1).
    destruct (perform_sample a x fr) as [[a1 x1] o]. cbn [fst snd] in *.
    assert (Hsr1' : 0 < sr x1) by (rewrite Hsr1; exact Hsr).
    destruct (IH a1 x1 Hsr1') as (Hsr2 & Hss2 & Hin2 & Hdec2).
    destruct (decay_perform64 a1 x1 ins) as [[a2 x2] out] eqn:Hl.
    cbn [fst snd] in *.
    split; [congruence|]. split; [|split].
    + rewrite Hss1 in Hss2. cbn [length].
      destruct (Z.gtb_spec (smooth_samples x) 0); lia.
    + intros Hact. apply Hin2. apply Hin1. exact Hact.
    + intros _. destruct Hdec1 as [Hoff|[Hlo Hhi]].
      { left. apply Hin2. exact Hoff. }
      destruct ins as [|fr2 ins2].
      * cbn in Hl. inversion Hl; subst. right.
        split; [exact Hlo|]. cbn [length]. rewrite pow_1. exact Hhi.
      * destruct Hdec2 as [Hoff|[Hlo2 Hhi2]]; [discriminate|left; exact Hoff|].
        right. split; [exact Hlo2|].
        rewrite Hsr1 in Hhi2.
        rewrite (Rmax_left (envelope x1) 0) in Hhi2 by lra.
        set (n := length (fr2 :: ins2)) in *.
        change (length (fr :: fr2 :: ins2)) with (S n).
        rewrite <- tech_pow_Rmult.
        assert (Hp : 0 < exp (-1 / (60 * sr x)) ^ n).
        { apply pow_lt. apply exp_pos. }
        pose proof (Rmult_le_compat_r _ _ _ (Rlt_le _ _ Hp) Hhi) as Hm.
        lra.
Qed.

(** X16.  Every envelope ends.  At a positive sample rate there is a number of
    samples after which, whatever the time and curve inputs were, the
    instance is idle (not running, no smoothing pending); from then on
    every block is silence, until the next bang. *)
Theorem decay_envelope_ends (x : t_decay) :
  0 < sr x ->
  exists N : nat, forall (a : Z) (ins : list t_frame),
    (N <= length ins)%nat ->
    idle (decay_perform64 a x ins).1.2 /\
    forall (a2 : Z) (ins2 : list t_frame),
      (decay_perform64 a2 (decay_perform64 a x ins).1.2 ins2).2
      = replicate (length ins2) 0.
Proof.
  intros Hsr. pose proof denormal_threshold_pos as Hthr.
  destruct (decay_coefficient_range 60 (sr x) ltac:(lra) Hsr) as [_ Hc1].
  pose proof (exp_pos (-1 / (60 * sr x))) as Hc0.
  set (cmax := exp (-1 / (60 * sr x))) in *.
  set (E0 := Rmax (envelope x) 0).
  assert (HE0 : 0 <= E0) by apply Rmax_r.
  destruct (pow_lt_1_zero cmax) with (y := DENORMAL_THRESHOLD / (E0 + 1))
    as [N0 HN0].
  { rewrite Rabs_right; lra. }
  { apply Rdiv_lt_0_compat; lra. }
  exists (Nat.max (S N0) (Z.to_nat (smooth_samples x))).
  intros a ins Hlen.
  destruct (decay_perform64_decays ins a x Hsr) as (_ & Hss & _ & Hdec).
  assert (Hidle : idle (decay_perform64 a x ins).1.2).
  { split; [|lia].
    destruct Hdec as [Hoff|[Hlo Hhi]]; [|exact Hoff|].
    { intros ->. cbn [length] in Hlen. lia. }
    exfalso. fold cmax E0 in Hhi.
    specialize (HN0 (length ins) ltac:(lia)).
    rewrite Rabs_right in HN0 by (left; apply pow_lt; exact Hc0).
    assert (Hlt : E0 * cmax ^ length ins
                  < (E0 + 1) * (DENORMAL_THRESHOLD / (E0 + 1))).
    { assert (0 < cmax ^ length ins) by (apply pow_lt; exact Hc0). nra. }
    replace ((E0 + 1) * (DENORMAL_THRESHOLD / (E0 + 1)))
      with DENORMAL_THRESHOLD in Hlt by (field; lra).
    lra. }
  split; [exact Hidle|].
  intros a2 ins2. rewrite decay_perform64_idle by exact Hidle. reflexivity.
Qed.

(** A new object at 44100 Hz with the float 0.5 on its time inlet, after a
    bang. *)
Lemma decay_envelope_ends_witness :
  let x := decay_bang (decay_float (decay_new 44100 []) 1 (1 / 2)) in
  exists N : nat, forall (a : Z) (ins : list t_frame),
    (N <= length ins)%nat ->
    idle (decay_perform64 a x ins).1.2 /\
    forall (a2 : Z) (ins2 : list t_frame),
      (decay_perform64 a2 (decay_perform64 a x ins).1.2 ins2).2
      = replicate (length ins2) 0.
Proof.
  apply (decay_envelope_ends
           (decay_bang (decay_float (decay_new 44100 []) 1 (1 / 2)))).
  cbn [sr decay_bang decay_float decay_new]. lra.
Defined.

(** The first sample after a trigger whose smoothing is pending is the
    level the smoothing starts from. *)
Lemma decay_perform_sample_smoothing_start (a : Z) (y : t_decay)
    (fr : t_frame) :
  truthy (is_active y) = true ->
  smooth_samples y = click_protection y -> (0 < click_protection y)%Z ->
  (perform_sample a y fr).2 = denormal_fix (smooth_start_level y) /\
  smooth_samples (perform_sample a y fr).1.2 = (click_protection y - 1)%Z.
Proof.
  intros Hact Hss Hcp. unfold perform_sample. rewrite Hact.
  set (dt := CLAMP _ MIN_DECAY_TIME MAX_DECAY_TIME).
  set (cv := CLAMP _ (-3) 3).
  destruct (active_block_cases a y dt cv)
    as (a' & o & c' & _ & [Hab|[Hab _]]); rewrite Hab;
    cbn [smooth_samples set_envelope click_protection smooth_start_level];
    rewrite Hss;
    (destruct (Z.gtb_spec (click_protection y) 0); [|lia]);
    cbn [fst snd smooth_samples set_smooth_samples];
    replace (click_protection y - click_protection y)%Z with 0%Z by lia;
    unfold Rdiv; rewrite Rmult_0_l, Rmult_0_r, Rplus_0_r;
    split; reflexivity.
Qed.

(** X17.  Click protection.  When a bang arrives with click protection switched
    on and makes the envelope jump by more than 0.001, the first sample put
    out after it is the envelope level from before the bang, not the new
    one, and one smoothing sample has been used. *)
Theorem decay_click_protection_first_sample (a : Z) (x : t_decay)
    (fr : t_frame) :
  (0 < click_protection x)%Z ->
  1 / 1000 < Rabs (envelope (decay_bang x) - envelope x) ->
  (perform_sample a (decay_bang x) fr).2 = denormal_fix (envelope x) /\
  smooth_samples (perform_sample a (decay_bang x) fr).1.2
    = (click_protection x - 1)%Z.
Proof.
  intros Hcp Hjump.
  apply (decay_perform_sample_smoothing_start a (decay_bang x) fr).
  - reflexivity.
  - unfold decay_bang in *. cbn [smooth_samples click_protection envelope] in *.
    destruct (Z.gtb_spec (click_protection x) 0); [|lia].
    unfold fabs. destruct (Rgt_dec _ _) as [_|Hn]; [reflexivity|lra].
  - exact Hcp.
Qed.

(** A new object with ten samples of click protection, at its first
    bang. *)
Lemma decay_click_protection_first_sample_witness :
  let x := decay_attr_setclickprotection (decay_new 44100 []) 10 in
  (perform_sample 0 (decay_bang x) (mk_frame 0 0)).2
    = denormal_fix (envelope x) /\
  smooth_samples (perform_sample 0 (decay_bang x) (mk_frame 0 0)).1.2
    = (click_protection x - 1)%Z.
Proof.
  apply (decay_click_protection_first_sample 0
           (decay_attr_setclickprotection (decay_new 44100 []) 10)
           (mk_frame 0 0)).
  - cbn. lia.
  - cbn. unfold DEFAULT_PEAK. rewrite Rabs_right; lra.
Defined.

Lemma decay_perform_sample_retrig (a : Z) (x : t_decay) (n : Z)
    (fr : t_frame) :
  perform_sample a (decay_retrig x n) fr =
  ((perform_sample a x fr).1.1,
   decay_retrig (perform_sample a x fr).1.2 n,
   (perform_sample a x fr).2).
Proof.
  unfold perform_sample. cbn [decay_retrig is_active time_has_signal
    curve_has_signal decay_time_float curve_float].
  destruct (truthy (is_active x)).
  - unfold active_block, attack_ramp.
    cbn [decay_retrig envelope sr peak curve_has_signal curve_response
      envelope_mode is_active].
    destruct (envelope_mode x =? 1)%Z; [destruct (a <? 44)%Z|];
      cbv beta iota;
      repeat match goal with
        | |- context [Rlt_dec ?u ?v] => destruct (Rlt_dec u v)
        end;
      cbn [smooth_samples set_envelope decay_retrig click_protection
        smooth_start_level];
      destruct (smooth_samples x >? 0)%Z; reflexivity.
  - cbn [smooth_samples decay_retrig click_protection smooth_start_level].
    destruct (smooth_samples x >? 0)%Z; reflexivity.
Qed.

(** X18.  The [retrig] message writes a field that neither the trigger nor the
    audio path reads: it can be moved past any bang and any block without
    changing a sample, the attack counter or any other field, so the
    message has no effect on the sound (the retrigger behaviour follows the
    [retrigger_mode] attribute alone). *)
Theorem decay_retrig_inert (x : t_decay) (n : Z) :
  decay_bang (decay_retrig x n) = decay_retrig (decay_bang x) n /\
  forall (ins : list t_frame) (a : Z),
    decay_perform64 a (decay_retrig x n) ins =
    ((decay_perform64 a x ins).1.1,
     decay_retrig (decay_perform64 a x ins).1.2 n,
     (decay_perform64 a x ins).2).
Proof.
  split; [reflexivity|].
  intros ins. revert x. induction ins as [|fr ins IH]; intros x a.
  - reflexivity.
  - cbn [decay_perform64]. rewrite decay_perform_sample_retrig.
    destruct (perform_sample a x fr) as [[a1 x1] o]. cbn [fst snd].
    rewrite IH.
    destruct (decay_perform64 a1 x1 ins) as [[a2 x2] out]. reflexivity.
Qed.

End DecayBlocks.

(** ** noises~: the random generator and the ranges of the generators *)

Section NoisesGenerators.

Import Noises.

Lemma lxor_range (a b n : Z) :
  (0 < n -> 0 <= a < 2 ^ n -> 0 <= b < 2 ^ n -> 0 <= Z.lxor a b < 2 ^ n)%Z.
Proof.
  intros Hn Ha Hb.
  assert (Hnn : (0 <= Z.lxor a b)%Z) by (apply Z.lxor_nonneg; lia).
  split; [exact Hnn|].
  destruct (Z.eq_dec (Z.lxor a b) 0%Z) as [->|Hne].
  { apply Z.pow_pos_nonneg; lia. }
  apply Z.log2_lt_pow2; [lia|].
  pose proof (Z.log2_lxor a b ltac:(lia) ltac:(lia)) as Hl.
  assert (Hla : (Z.log2 a < n)%Z).
  { destruct (Z.eq_dec a 0%Z) as [->|Hna]; [simpl; lia|].
    apply Z.log2_lt_pow2; lia. }
  assert (Hlb : (Z.log2 b < n)%Z).
  { destruct (Z.eq_dec b 0%Z) as [->|Hnb]; [simpl; lia|].
    apply Z.log2_lt_pow2; lia. }
  lia.
Qed.

(** A 32-bit value that equals itself shifted left is zero. *)
Lemma shiftl_mod_fixpoint (x k : Z) :
  (0 < k)%Z -> x = u32 (Z.shiftl x k) -> x = 0%Z.
Proof.
  unfold u32. intros Hk Hx. apply Z.bits_inj_0.
  assert (Hbits : forall m : nat, forall n,
            (n < Z.of_nat m)%Z -> Z.testbit x n = false).
  { induction m as [|m IH]; intros n Hn.
    - apply Z.testbit_neg_r. lia.
    - destruct (Z.neg_nonneg_cases n) as [Hneg|Hnn];
        [apply Z.testbit_neg_r; exact Hneg|].
      rewrite Hx, Z.testbit_mod_pow2 by lia.
      rewrite Z.shiftl_spec by exact Hnn.
      rewrite (IH (n - k)%Z) by lia. apply Bool.andb_false_r. }
  intros n. apply (Hbits (Z.to_nat (Z.max n 0 + 1)%Z)). lia.
Qed.

Lemma shiftr_fixpoint (x k : Z) :
  (0 <= x)%Z -> (0 < k)%Z -> x = Z.shiftr x k -> x = 0%Z.
Proof.
  intros Hx Hk Heq. rewrite Z.shiftr_div_pow2 in Heq by lia.
  destruct (Z.eq_dec x 0%Z) as [H0|Hne]; [exact H0|].
  assert ((1 < 2 ^ k)%Z) by (apply Z.pow_gt_1; lia).
  pose proof (Z.div_lt x (2 ^ k)%Z ltac:(lia) ltac:(lia)). lia.
Qed.

Lemma u32_range (z : Z) : (0 <= u32 z < 2 ^ 32)%Z.
Proof. unfold u32. apply Z.mod_pos_bound. lia. Qed.

Lemma shiftr_range (x k : Z) :
  (0 <= k)%Z -> (0 <= x < 2 ^ 32)%Z -> (0 <= Z.shiftr x k < 2 ^ 32)%Z.
Proof.
  intros Hk Hx. rewrite Z.shiftr_div_pow2 by lia.
  assert ((0 < 2 ^ k)%Z) by (apply Z.pow_pos_nonneg; lia).
  split; [apply Z.div_pos; lia|].
  apply Z.le_lt_trans with x; [|lia].
  apply Z.div_le_upper_bound; nia.
Qed.

(** The step of the random generator keeps a 32-bit state a 32-bit state
    and never reaches zero from a state that is not zero. *)
Lemma xorshift32_ok (s : Z) :
  (0 < s < 2 ^ 32)%Z -> (0 < xorshift32 s < 2 ^ 32)%Z.
Proof.
  intros Hs. unfold xorshift32. cbv zeta.
  set (x1 := Z.lxor s (u32 (Z.shiftl s 13))).
  set (x2 := Z.lxor x1 (Z.shiftr x1 17)).
  assert (H1 : (0 <= x1 < 2 ^ 32)%Z).
  { apply lxor_range; [lia|lia|apply u32_range]. }
  assert (H2 : (0 <= x2 < 2 ^ 32)%Z).
  { apply lxor_range; [lia|exact H1|apply shiftr_range; lia]. }
  assert (H3 : (0 <= Z.lxor x2 (u32 (Z.shiftl x2 5)) < 2 ^ 32)%Z).
  { apply lxor_range; [lia|exact H2|apply u32_range]. }
  split; [|lia].
  destruct (Z.eq_dec (Z.lxor x2 (u32 (Z.shiftl x2 5))) 0%Z) as [H0|Hne]; [|lia].
  exfalso.
  apply Z.lxor_eq in H0. apply shiftl_mod_fixpoint in H0; [|lia].
  unfold x2 in H0. apply Z.lxor_eq in H0.
  apply shiftr_fixpoint in H0; [|lia|lia].
  unfold x1 in H0. apply Z.lxor_eq in H0.
  apply shiftl_mod_fixpoint in H0; lia.
Qed.

Lemma controls_set_rng (x : t_noises) (s : Z) :
  controls (set_rng x s) = controls x.
Proof. reflexivity. Qed.

Lemma controls_set_pink (x : t_noises) (rows : list R) (sum : R) (idx : Z) :
  controls (set_pink x rows sum idx) = controls x.
Proof. reflexivity. Qed.

Lemma controls_set_brown (x : t_noises) (b : R) :
  controls (set_brown x b) = controls x.
Proof. reflexivity. Qed.

Lemma controls_set_prev (x : t_noises) (w b : R) :
  controls (set_prev x w b) = controls x.
Proof. reflexivity. Qed.

Lemma controls_set_grey_state (x : t_noises) (x1 x2 y1 y2 : R) :
  controls (set_grey_state x x1 x2 y1 y2) = controls x.
Proof. reflexivity. Qed.

Lemma controls_set_dc (x : t_noises) (x1 y1 : R) :
  controls (set_dc x x1 y1) = controls x.
Proof. reflexivity. Qed.

Lemma ok_set_rng (x : t_noises) (s : Z) :
  generators_ok x -> (0 < s < 2 ^ 32)%Z -> generators_ok (set_rng x s).
Proof.
  intros (_ & H) Hs. split; [exact Hs|exact H].
Qed.

Lemma ok_set_brown (x : t_noises) (b : R) :
  generators_ok x -> generators_ok (set_brown x b).
Proof. intros H. exact H. Qed.

Lemma ok_set_grey_state (x : t_noises) (x1 x2 y1 y2 : R) :
  generators_ok x -> generators_ok (set_grey_state x x1 x2 y1 y2).
Proof. intros H. exact H. Qed.

Lemma ok_set_dc (x : t_noises) (x1 y1 : R) :
  generators_ok x -> generators_ok (set_dc x x1 y1).
Proof. intros H. exact H. Qed.

Lemma ok_set_prev (x : t_noises) (w b : R) :
  generators_ok x -> -1 <= w <= 1 -> - (12 / 10) <= b <= 12 / 10 ->
  generators_ok (set_prev x w b).
Proof.
  intros (H1 & H2 & H3 & H4 & _) Hw Hb.
  split; [exact H1|]. split; [exact H2|]. split; [exact H3|].
  split; [exact H4|]. split; [exact Hw|exact Hb].
Qed.

(** One draw: a sample of [-1,1], and the state stepped. *)
Lemma draw_bipolar_spec (x : t_noises) :
  rng_ok x ->
  exists (s : Z) (v : R),
    draw_bipolar x = (v, set_rng x s) /\ (0 < s < 2 ^ 32)%Z /\ -1 <= v <= 1.
Proof.
  intros Hx. unfold draw_bipolar. cbv zeta.
  pose proof (xorshift32_ok (rng_state x) Hx) as Hs.
  eexists _, _. split; [reflexivity|]. split; [exact Hs|].
  set (s := xorshift32 (rng_state x)) in *.
  assert (H0 : 0 <= IZR s) by (apply IZR_le; lia).
  assert (H1 : IZR s <= IZR UINT32_MAX).
  { apply IZR_le. unfold UINT32_MAX. lia. }
  assert (Hm : 0 < IZR UINT32_MAX) by (apply IZR_lt; unfold UINT32_MAX; lia).
  assert (Hq : 0 <= IZR s / IZR UINT32_MAX <= 1).
  { split.
    - apply Rmult_le_pos; [exact H0|]. left. apply Rinv_0_lt_compat. exact Hm.
    - apply Rmult_le_reg_r with (IZR UINT32_MAX); [exact Hm|].
      unfold Rdiv. rewrite Rmult_assoc, Rinv_l by lra. lra. }
  lra.
Qed.

Lemma draw_bipolar_ok (x : t_noises) :
  generators_ok x ->
  generators_ok (draw_bipolar x).2 /\
  controls (draw_bipolar x).2 = controls x /\
  -1 <= (draw_bipolar x).1 <= 1 /\
  pink_rows (draw_bipolar x).2 = pink_rows x /\
  pink_running_sum (draw_bipolar x).2 = pink_running_sum x /\
  pink_index (draw_bipolar x).2 = pink_index x.
Proof.
  intros Hx.
  destruct (draw_bipolar_spec x (proj1 Hx)) as (s & v & -> & Hs & Hv).
  cbn [fst snd]. split; [apply ok_set_rng; assumption|].
  split; [reflexivity|]. split; [exact Hv|]. repeat split; reflexivity.
Qed.

Lemma sum_app (l1 l2 : list R) :
  fold_right Rplus 0 (l1 ++ l2)
  = fold_right Rplus 0 l1 + fold_right Rplus 0 l2.
Proof.
  induction l1 as [|a l1 IH]; simpl; [ring|]. rewrite IH. ring.
Qed.

Lemma sum_insert (l : list R) : forall (i : nat) (v : R),
  (i < length l)%nat ->
  fold_right Rplus 0 (<[i := v]> l) = fold_right Rplus 0 l - nth i l 0 + v.
Proof.
  induction l as [|a l IH]; intros i v Hi; simpl in Hi; [lia|].
  destruct i as [|i]; simpl; [ring|].
  rewrite IH by lia. ring.
Qed.

Lemma sum_range (l : list R) :
  Forall (fun v => -1 <= v <= 1) l ->
  - INR (length l) <= fold_right Rplus 0 l <= INR (length l).
Proof.
  induction 1 as [|a l Ha _ IH]; [simpl; lra|].
  cbn [fold_right length]. rewrite S_INR. lra.
Qed.

(** The loop that replaces all the rows: when it starts at row [i] with the
    sum of the rows before [i], it ends with the sum of all the rows. *)
Lemma pink_refill_ok (n : nat) : forall (i : nat) (x : t_noises),
  generators_ok
    (set_pink x (pink_rows x) (fold_right Rplus 0 (pink_rows x))
       (pink_index x)) ->
  length (pink_rows x) = (i + n)%nat ->
  pink_running_sum x = fold_right Rplus 0 (take i (pink_rows x)) ->
  generators_ok (pink_refill n i x) /\
  controls (pink_refill n i x) = controls x.
Proof.
  induction n as [|n IH]; intros i x Hx Hlen Hsum.
  - cbn [pink_refill]. split; [|reflexivity].
    rewrite take_ge in Hsum by lia.
    destruct Hx as (H1 & H2 & H3 & _ & H5).
    split; [exact H1|]. split; [exact H2|]. split; [exact H3|].
    split; [exact Hsum|exact H5].
  - cbn [pink_refill].
    destruct Hx as (H1 & H2 & H3 & _ & H5 & H6).
    destruct (draw_bipolar_spec x H1) as (s & v & -> & Hs & Hv).
    cbn [pink_rows pink_running_sum pink_index set_rng].
    assert (Hi : (i < length (pink_rows x))%nat) by lia.
    destruct (IH (S i)
                (set_pink (set_rng x s) (<[i := v]> (pink_rows x))
                   (pink_running_sum x + v) (pink_index x)))
      as [Hok Hc].
    + split; [exact Hs|]. cbn [pink_rows set_pink set_rng].
      split; [rewrite length_insert; exact H2|].
      split; [apply Forall_insert; [exact H3|exact Hv]|].
      split; [reflexivity|]. split; [exact H5|exact H6].
    + cbn [pink_rows set_pink]. rewrite length_insert. lia.
    + cbn [pink_rows pink_running_sum set_pink].
      rewrite (take_S_r _ i v) by (apply list_lookup_insert_eq; exact Hi).
      rewrite take_insert_ge by lia. rewrite sum_app, Hsum. simpl. ring.
    + split; [exact Hok|]. rewrite Hc. reflexivity.
Qed.

Lemma noises_generate_white_ok (x : t_noises) :
  generators_ok x ->
  generators_ok (noises_generate_white x).2 /\
  controls (noises_generate_white x).2 = controls x /\
  -1 <= (noises_generate_white x).1 <= 1.
Proof.
  intros Hx. destruct (draw_bipolar_ok x Hx) as (H1 & H2 & H3 & _).
  auto.
Qed.

Lemma count_zeros_ge (width : nat) :
  forall n num_zeros : Z, (num_zeros <= count_zeros width n num_zeros)%Z.
Proof.
  induction width as [|width IH]; intros n z; cbn [count_zeros]; [lia|].
  destruct (Z.land n 1 =? 0)%Z; [|lia].
  specialize (IH (Z.shiftr n 1) (z + 1)%Z). lia.
Qed.

(** Pink noise: the rows stay in [-1,1] and their sum in the running sum;
    the sample is the running sum and one more draw, times 0.578. *)
Lemma noises_generate_pink_ok (x : t_noises) :
  generators_ok x ->
  generators_ok (noises_generate_pink x).2 /\
  controls (noises_generate_pink x).2 = controls x /\
  - (3468 / 1000) <= (noises_generate_pink x).1 <= 3468 / 1000.
Proof.
  intros Hx. unfold noises_generate_pink. cbv zeta.
  set (idx := Z.land (pink_index x + 1) (pink_index_mask x)).
  cbn [pink_rows pink_running_sum pink_index set_pink].
  set (X1 := if negb (idx =? 0)%Z then _ else _).
  assert (H1 : generators_ok X1 /\ controls X1 = controls x).
  { unfold X1. destruct (negb (idx =? 0)%Z).
    - destruct (Z.ltb_spec (count_zeros 32 idx 0) PINK_BITS) as [Hlt|Hge];
        [|split; [exact Hx|reflexivity]].
      destruct (draw_bipolar_spec
                  (set_pink x (pink_rows x) (pink_running_sum x) idx)
                  (proj1 Hx)) as (s & v & -> & Hs & Hv).
      cbn [pink_rows pink_running_sum pink_index set_pink set_rng].
      destruct Hx as (_ & H2 & H3 & H4 & H5 & H6).
      assert (Hi : (Z.to_nat (count_zeros 32 idx 0)
                    < length (pink_rows x))%nat).
      { rewrite H2. unfold PINK_BITS in *. lia. }
      split; [|reflexivity].
      split; [exact Hs|]. cbn [pink_rows pink_running_sum set_pink set_rng
                                prev_white prev_blue].
      split; [rewrite length_insert; exact H2|].
      split; [apply Forall_insert; [exact H3|exact Hv]|].
      split; [|split; [exact H5|exact H6]].
      rewrite sum_insert by exact Hi. rewrite H4.
      rewrite tbl_nth by (pose proof (count_zeros_ge 32 idx 0); lia).
      reflexivity.
    - destruct (pink_refill_ok (Z.to_nat PINK_BITS) 0
                  (set_pink (set_pink x (pink_rows x) (pink_running_sum x) idx)
                     (pink_rows x) 0 idx)) as [Hok Hc].
      + destruct Hx as (H1 & H2 & H3 & H4 & H5).
        split; [exact H1|]. split; [exact H2|]. split; [exact H3|].
        split; [reflexivity|exact H5].
      + cbn [pink_rows set_pink]. destruct Hx as (_ & H2 & _). exact H2.
      + reflexivity.
      + split; [exact Hok|]. rewrite Hc. reflexivity. }
  destruct H1 as [Hok Hc].
  destruct (draw_bipolar_spec X1 (proj1 Hok)) as (s & v & -> & Hs & Hv).
  cbn [fst snd]. split; [apply ok_set_rng; assumption|].
  split; [exact Hc|].
  cbn [pink_running_sum set_rng].
  destruct Hok as (_ & H2 & H3 & H4 & _).
  pose proof (sum_range _ H3) as Hr. rewrite H2, <- H4 in Hr.
  change (INR (Z.to_nat PINK_BITS)) with (INR 5) in Hr.
  replace (INR 5) with 5 in Hr by (simpl; ring).
  lra.
Qed.

Lemma noises_generate_brown_ok (x : t_noises) :
  generators_ok x ->
  generators_ok (noises_generate_brown x).2 /\
  controls (noises_generate_brown x).2 = controls x.
Proof.
  intros Hx. unfold noises_generate_brown, noises_generate_white.
  destruct (draw_bipolar_spec x (proj1 Hx)) as (s & v & -> & Hs & Hv).
  cbv zeta.
  cbn [brown_leak brown_state dc_blocking_enabled set_rng set_brown].
  destruct (truthy (dc_blocking_enabled x)); unfold dc_block; cbn [fst snd].
  - split; [|reflexivity].
    apply ok_set_dc, ok_set_brown, ok_set_rng; assumption.
  - split; [|reflexivity]. apply ok_set_brown, ok_set_rng; assumption.
Qed.

Lemma noises_generate_blue_ok (x : t_noises) :
  generators_ok x ->
  generators_ok (noises_generate_blue x).2 /\
  controls (noises_generate_blue x).2 = controls x /\
  - (12 / 10) <= (noises_generate_blue x).1 <= 12 / 10.
Proof.
  intros Hx. unfold noises_generate_blue, noises_generate_white.
  destruct (draw_bipolar_spec x (proj1 Hx)) as (s & v & -> & Hs & Hv).
  cbv zeta. cbn [prev_white prev_blue set_rng fst snd].
  pose proof Hx as (_ & _ & _ & _ & Hw & Hb).
  split; [apply ok_set_prev; [apply ok_set_rng; assumption|exact Hv|exact Hb]|].
  split; [reflexivity|lra].
Qed.

Lemma noises_generate_violet_ok (x : t_noises) :
  generators_ok x ->
  generators_ok (noises_generate_violet x).2 /\
  controls (noises_generate_violet x).2 = controls x /\
  - (144 / 100) <= (noises_generate_violet x).1 <= 144 / 100.
Proof.
  intros Hx. unfold noises_generate_violet.
  destruct (noises_generate_blue_ok x Hx) as (Hok & Hc & Hv).
  destruct (noises_generate_blue x) as [blue x1]. cbn [fst snd] in *.
  pose proof Hok as (_ & _ & _ & _ & Hw & Hb).
  split; [apply ok_set_prev; assumption|].
  split; [exact Hc|lra].
Qed.

Lemma noises_generate_grey_ok (x : t_noises) :
  generators_ok x ->
  generators_ok (noises_generate_grey x).2 /\
  controls (noises_generate_grey x).2 = controls x.
Proof.
  intros Hx. unfold noises_generate_grey, noises_generate_white.
  destruct (draw_bipolar_spec x (proj1 Hx)) as (s & v & -> & Hs & Hv).
  cbv zeta. cbn [fst snd]. split; [|reflexivity].
  apply ok_set_grey_state, ok_set_rng; assumption.
Qed.

(** Velvet noise: nothing, or an impulse of 0.8 of either sign. *)
Lemma noises_generate_velvet_ok (x : t_noises) :
  generators_ok x ->
  generators_ok (noises_generate_velvet x).2 /\
  controls (noises_generate_velvet x).2 = controls x /\
  ((noises_generate_velvet x).1 = - (8 / 10) \/
   (noises_generate_velvet x).1 = 0 \/
   (noises_generate_velvet x).1 = 8 / 10).
Proof.
  intros Hx. unfold noises_generate_velvet. cbv zeta.
  cbn [rng_state set_rng sr].
  pose proof (xorshift32_ok _ (proj1 Hx)) as Hs.
  pose proof (xorshift32_ok _ Hs) as Hs'.
  destruct (Rlt_dec _ _); cbn [fst snd].
  - split; [apply ok_set_rng; [apply ok_set_rng|]; assumption|].
    split; [reflexivity|].
    destruct (Z.land _ 1 =? 0)%Z; [left|right; right]; lra.
  - split; [apply ok_set_rng; assumption|].
    split; [reflexivity|]. right. left. lra.
Qed.

End NoisesGenerators.

(** ** noises~: the generators through blocks and messages *)

Section NoisesBlocks.

Import Noises.

Lemma generate_all_ok (x : t_noises) :
  generators_ok x ->
  generators_ok (generate_all x).2 /\
  controls (generate_all x).2 = controls x /\
  exists w p b bl vi g ve,
    (generate_all x).1 = [w; p; b; bl; vi; g; ve] /\
    -1 <= w <= 1 /\ - (3468 / 1000) <= p <= 3468 / 1000 /\
    - (12 / 10) <= bl <= 12 / 10 /\ - (144 / 100) <= vi <= 144 / 100 /\
    (ve = - (8 / 10) \/ ve = 0 \/ ve = 8 / 10).
Proof.
  intros Hx. unfold generate_all.
  destruct (noises_generate_white_ok x Hx) as (H1 & C1 & R1).
  destruct (noises_generate_white x) as [w x1]. cbn [fst snd] in *.
  destruct (noises_generate_pink_ok x1 H1) as (H2 & C2 & R2).
  destruct (noises_generate_pink x1) as [p x2]. cbn [fst snd] in *.
  destruct (noises_generate_brown_ok x2 H2) as (H3 & C3).
  destruct (noises_generate_brown x2) as [b x3]. cbn [fst snd] in *.
  destruct (noises_generate_blue_ok x3 H3) as (H4 & C4 & R4).
  destruct (noises_generate_blue x3) as [bl x4]. cbn [fst snd] in *.
  destruct (noises_generate_violet_ok x4 H4) as (H5 & C5 & R5).
  destruct (noises_generate_violet x4) as [vi x5]. cbn [fst snd] in *.
  destruct (noises_generate_grey_ok x5 H5) as (H6 & C6).
  destruct (noises_generate_grey x5) as [g x6]. cbn [fst snd] in *.
  destruct (noises_generate_velvet_ok x6 H6) as (H7 & C7 & R7).
  destruct (noises_generate_velvet x6) as [ve x7]. cbn [fst snd] in *.
  split; [exact H7|]. split; [congruence|].
  exists w, p, b, bl, vi, g, ve. auto 10.
Qed.

(** X19.  The seven generators on a state in range: the state stays in range
    (the random state a nonzero 32-bit value, the running sum of the pink
    generator the sum of its rows), the fields that hold the parameters are
    not written, the white sample is in [-1,1], the pink sample within
    3.468, the blue sample within 1.2, the violet sample within 1.44 and the
    velvet sample is 0 or an impulse of 0.8 of either sign. *)
Theorem noises_generator_ranges (x : t_noises) :
  generators_ok x ->
  generators_ok (generate_all x).2 /\
  controls (generate_all x).2 = controls x /\
  exists w p b bl vi g ve,
    (generate_all x).1 = [w; p; b; bl; vi; g; ve] /\
    -1 <= w <= 1 /\ - (3468 / 1000) <= p <= 3468 / 1000 /\
    - (12 / 10) <= bl <= 12 / 10 /\ - (144 / 100) <= vi <= 144 / 100 /\
    (ve = - (8 / 10) \/ ve = 0 \/ ve = 8 / 10).
Proof. apply generate_all_ok. Qed.

Lemma noises_init_generators_ok (x : t_noises) :
  rng_ok x -> generators_ok (noises_init_generators x).
Proof.
  intros Hx. unfold generators_ok, rng_ok, noises_init_generators.
  cbn [rng_state pink_rows pink_running_sum prev_white prev_blue].
  split; [exact Hx|]. split; [apply length_replicate|].
  split; [apply Forall_replicate; lra|].
  split; [simpl; ring|]. split; lra.
Qed.

Lemma seed_state_ok (z : Z) :
  (0 < (if (u32 z =? 0)%Z then 1 else u32 z) < 2 ^ 32)%Z.
Proof.
  pose proof (u32_range z). destruct (Z.eqb_spec (u32 z) 0); lia.
Qed.

Lemma noises_new_ok (addr now : Z) (argv : list t_atom) :
  generators_ok (noises_new addr now argv).
Proof.
  unfold noises_new. cbv zeta. apply ok_set_dc.
  apply noises_init_generators_ok. unfold rng_ok. cbn [rng_state].
  apply seed_state_ok.
Qed.

Lemma noises_seed_ok (x : t_noises) (seed : Z) :
  generators_ok (noises_seed x seed).
Proof.
  unfold noises_seed. cbv zeta.
  apply noises_init_generators_ok. unfold rng_ok. cbn [rng_state set_rng].
  apply seed_state_ok.
Qed.

Lemma noises_perform_sample_ok (x : t_noises) (fr : t_frame) :
  generators_ok x -> generators_ok (perform_sample x fr).2.
Proof.
  intros Hx. unfold perform_sample, noises_morph_types. cbv zeta.
  match goal with
  | |- context [generate_all ?X] =>
      destruct (generate_all_ok X Hx) as (Hok & _);
      destruct (generate_all X) as [types x1]
  end.
  exact Hok.
Qed.

Lemma noises_perform64_ok (ins : list t_frame) : forall x : t_noises,
  generators_ok x -> generators_ok (noises_perform64 x ins).2.
Proof.
  induction ins as [|fr ins IH]; intros x Hx; [exact Hx|].
  cbn [noises_perform64].
  pose proof (noises_perform_sample_ok x fr Hx) as H1.
  destruct (perform_sample x fr) as [s x1]. cbn [snd] in H1.
  specialize (IH x1 H1).
  destruct (noises_perform64 x1 ins) as [out x2]. exact IH.
Qed.

(** X20.  The memories of the generators are in range from the creation of the
    object on: a new object and a seed message (any addresses, times and
    seeds, zero included) start from a nonzero 32-bit random state, cleared
    rows and cleared differentiators; the start of the audio, every block
    and every float keep them in range.  In particular the random state is
    never zero, the one state from which the generator would put out zeros
    for ever. *)
Theorem noises_generators_stay_ok :
  (forall addr now argv, generators_ok (noises_new addr now argv)) /\
  (forall x seed, generators_ok (noises_seed x seed)) /\
  (forall x count samplerate,
     rng_ok x -> generators_ok (noises_dsp64 x count samplerate)) /\
  (forall x ins, generators_ok x -> generators_ok (noises_perform64 x ins).2) /\
  (forall x inlet f, generators_ok x -> generators_ok (noises_float x inlet f)).
Proof.
  split; [exact noises_new_ok|]. split; [exact noises_seed_ok|].
  split; [|split].
  - intros x count samplerate Hx. unfold noises_dsp64.
    apply noises_init_generators_ok. exact Hx.
  - intros x ins Hx. apply noises_perform64_ok. exact Hx.
  - intros x inlet f Hx. unfold noises_float.
    destruct (inlet =? 0)%Z; [exact Hx|].
    destruct (inlet =? 1)%Z; exact Hx.
Qed.

(** The generators of an object that has just been seeded. *)
Lemma noises_generator_ranges_witness :
  let x := noises_seed (noises_new 4096 10 []) 0 in
  generators_ok (generate_all x).2 /\
  controls (generate_all x).2 = controls x /\
  exists w p b bl vi g ve,
    (generate_all x).1 = [w; p; b; bl; vi; g; ve] /\
    -1 <= w <= 1 /\ - (3468 / 1000) <= p <= 3468 / 1000 /\
    - (12 / 10) <= bl <= 12 / 10 /\ - (144 / 100) <= vi <= 144 / 100 /\
    (ve = - (8 / 10) \/ ve = 0 \/ ve = 8 / 10).
Proof.
  apply (noises_generator_ranges (noises_seed (noises_new 4096 10 []) 0)).
  apply noises_seed_ok.
Defined.

Lemma noises_smooth_param_between (current target factor lo hi : R) :
  0 <= factor <= 1 -> lo <= current <= hi -> lo <= target <= hi ->
  lo <= smooth_param current target factor <= hi.
Proof.
  intros Hf Hc Ht. unfold smooth_param.
  assert (H1 : 0 <= factor * (target - lo)) by (apply Rmult_le_pos; lra).
  assert (H2 : 0 <= (1 - factor) * (current - lo)) by (apply Rmult_le_pos; lra).
  assert (H3 : 0 <= factor * (hi - target)) by (apply Rmult_le_pos; lra).
  assert (H4 : 0 <= (1 - factor) * (hi - current)) by (apply Rmult_le_pos; lra).
  split; lra.
Qed.

Lemma generate_all_controls (x x1 : t_noises) (types : list R) (t a : R) :
  generate_all (set_smooth x t a) = (types, x1) ->
  controls x1 = controls (set_smooth x t a) ->
  type_float x1 = type_float x /\ type_has_signal x1 = type_has_signal x /\
  type_smooth x1 = t /\ amplitude_smooth x1 = a /\
  smooth_factor x1 = smooth_factor x.
Proof.
  intros _ Hc. unfold controls in Hc.
  cbn [set_smooth sr morphing_enabled dc_blocking_enabled type_float
       amplitude_float type_has_signal amplitude_has_signal type_smooth
       amplitude_smooth smooth_factor] in Hc.
  injection Hc as E1 E2 E3 E4 E5 E6 E7 E8 E9 E10. auto.
Qed.

Lemma noises_perform_sample_white (x : t_noises) (fr : t_frame) :
  white_held x ->
  white_held (perform_sample x fr).2 /\
  - (4 / 10) <= (perform_sample x fr).1 <= 4 / 10.
Proof.
  intros (Hok & Hsig & Htf & Hts & Has & Hsf).
  pose proof denormal_threshold_pos as Hthr.
  unfold perform_sample, noises_morph_types. cbv zeta. rewrite Hsig.
  assert (Htp : smooth_param (type_smooth x)
                  (fmax MIN_TYPE (fmin MAX_TYPE (type_float x)))
                  (smooth_factor x) = 0).
  { unfold smooth_param, fmax, fmin, MIN_TYPE, MAX_TYPE.
    rewrite (Rmin_eq_r 6 (type_float x)), (Rmax_eq_l 0 (type_float x)) by lra.
    rewrite Hts. ring. }
  rewrite Htp.
  set (amp := if truthy (amplitude_has_signal x) then _ else _).
  assert (Hamp : 0 <= amp <= 1).
  { assert (Hat : forall v, 0 <= fmax MIN_AMPLITUDE (fmin MAX_AMPLITUDE v) <= 1).
    { intros v. apply fmax_fmin_bounds. unfold MIN_AMPLITUDE, MAX_AMPLITUDE.
      lra. }
    unfold amp. destruct (truthy (amplitude_has_signal x));
      apply noises_smooth_param_between; try apply Hat; try assumption; lra. }
  destruct (generate_all_ok (set_smooth x 0 amp) Hok)
    as (Hok1 & Hc & w & p & b & bl & vi & g & ve & Hty & Hw & _).
  destruct (generate_all (set_smooth x 0 amp)) as [types x1] eqn:Hg.
  cbn [fst snd] in *. subst types.
  destruct (generate_all_controls x x1 _ 0 amp Hg Hc)
    as (E1 & E2 & E3 & E4 & E5).
  split.
  - split; [exact Hok1|]. rewrite E1, E2, E3, E4, E5. auto.
  - unfold morph_select. cbv zeta.
    destruct (Rle_dec 0 0) as [_|Hn]; [|lra].
    change (tbl [w; p; b; bl; vi; g; ve] NOISE_WHITE) with w.
    destruct (Rlt_dec _ _); [lra|]. nra.
Qed.

(** X21.  With the type held at white and nothing connected to the type inlet,
    every sample of every block is within 0.4 in magnitude, for any
    amplitude input, and the state stays as described. *)
Theorem noises_white_output_range (x : t_noises) (ins : list t_frame) :
  white_held x ->
  Forall (fun s => - (4 / 10) <= s <= 4 / 10) (noises_perform64 x ins).1 /\
  white_held (noises_perform64 x ins).2.
Proof.
  revert x. induction ins as [|fr ins IH]; intros x Hx.
  - cbn. split; [constructor|exact Hx].
  - cbn [noises_perform64].
    destruct (noises_perform_sample_white x fr Hx) as [Hx1 Ho].
    destruct (perform_sample x fr) as [s x1]. cbn [fst snd] in *.
    destruct (IH x1 Hx1) as [Hout Hx2].
    destruct (noises_perform64 x1 ins) as [out x2]. cbn [fst snd] in *.
    split; [constructor; assumption|exact Hx2].
Qed.

Lemma noises_new_white_held (addr now : Z) : white_held (noises_new addr now []).
Proof.
  split; [apply noises_new_ok|].
  unfold noises_new. cbv zeta.
  cbn [type_has_signal type_float type_smooth amplitude_smooth smooth_factor
       set_dc noises_init_generators lookup list_lookup].
  unfold fmax, fmin, MIN_TYPE, MAX_TYPE, MIN_AMPLITUDE, MAX_AMPLITUDE.
  rewrite (Rmin_eq_r 6 0), (Rmax_eq_r 0 0), (Rmin_eq_r 1 (1 / 2)),
    (Rmax_eq_r 0 (1 / 2)) by lra.
  split; [reflexivity|]. repeat split; lra.
Qed.

(** A new object with default arguments, fed two frames. *)
Lemma noises_white_output_range_witness :
  let x := noises_new 4096 10 [] in
  let ins := [mk_frame 0 1; mk_frame 0 0] in
  Forall (fun s => - (4 / 10) <= s <= 4 / 10) (noises_perform64 x ins).1 /\
  white_held (noises_perform64 x ins).2.
Proof.
  apply (noises_white_output_range (noises_new 4096 10 [])
           [mk_frame 0 1; mk_frame 0 0]).
  apply noises_new_white_held.
Defined.

End NoisesBlocks.

(** ** ssm2044~: silence, symmetry and the low resonances *)

Section Ssm2044More.

Import Ssm2044.

Lemma tanh_aux_lim (y : R) :
  derivable_pt_lim (fun y => 1 + y - exp (2 * y) * (1 - y)) y
    (1 - exp (2 * y) * (1 - 2 * y)).
Proof.
  replace (1 - exp (2 * y) * (1 - 2 * y))
    with ((0 + 1) - ((exp (2 * y) * (2 * 1)) * (1 - y) + exp (2 * y) * (0 - 1)))
    by ring.
  change (derivable_pt_lim
            ((fct_cte 1 + id)
             - (comp exp (mult_real_fct 2 id)) * (fct_cte 1 - id))%F y
            ((0 + 1) - ((exp (2 * y) * (2 * 1)) * (1 - y)
                        + exp (2 * y) * (0 - 1)))).
  apply derivable_pt_lim_minus.
  - apply derivable_pt_lim_plus;
      [apply derivable_pt_lim_const|apply derivable_pt_lim_id].
  - apply (derivable_pt_lim_mult (comp exp (mult_real_fct 2 id))
             (fct_cte 1 - id)%F y (exp (2 * y) * (2 * 1)) (0 - 1)).
    + apply (derivable_pt_lim_comp (mult_real_fct 2 id) exp y (2 * 1)
               (exp (2 * y))).
      * apply derivable_pt_lim_scal. apply derivable_pt_lim_id.
      * apply derivable_pt_lim_exp.
    + apply derivable_pt_lim_minus;
        [apply derivable_pt_lim_const|apply derivable_pt_lim_id].
Qed.

Lemma tanh_aux_derivable : derivable (fun y => 1 + y - exp (2 * y) * (1 - y)).
Proof.
  intros y. exists (1 - exp (2 * y) * (1 - 2 * y)). apply tanh_aux_lim.
Qed.

Lemma tanh_aux_nonneg (y : R) : 0 <= y -> exp (2 * y) * (1 - y) <= 1 + y.
Proof.
  intros Hy.
  assert (Hinc : increasing (fun y => 1 + y - exp (2 * y) * (1 - y))).
  { apply (nonneg_derivative_1 _ tanh_aux_derivable). intros x.
    rewrite (derive_pt_eq_0 _ _ _ _ (tanh_aux_lim x)).
    pose proof (exp_ineq1_le (- (2 * x))) as H.
    pose proof (exp_pos (2 * x)) as Hp.
    assert (He : exp (2 * x) * exp (- (2 * x)) = 1).
    { rewrite <- exp_plus. replace (2 * x + - (2 * x)) with 0 by ring.
      apply exp_0. }
    nra. }
  specialize (Hinc 0 y Hy). cbv beta in Hinc.
  rewrite Rmult_0_r, exp_0 in Hinc. lra.
Qed.

(** The hyperbolic tangent is below the identity on the positive side. *)
Lemma tanh_le_id (y : R) : 0 <= y -> tanh y <= y.
Proof.
  intros Hy. unfold tanh, sinh, cosh.
  pose proof (exp_pos y) as Ha. pose proof (exp_pos (- y)) as Hb.
  replace ((exp y - exp (- y)) / 2 / ((exp y + exp (- y)) / 2))
    with ((exp y - exp (- y)) / (exp y + exp (- y))) by (field; lra).
  apply Rmult_le_reg_r with (exp y + exp (- y)); [lra|].
  unfold Rdiv. rewrite Rmult_assoc, Rinv_l by lra. rewrite Rmult_1_r.
  pose proof (tanh_aux_nonneg y Hy) as H.
  assert (He : exp (2 * y) = exp y * exp y).
  { rewrite <- exp_plus. f_equal. ring. }
  assert (Hi : exp y * exp (- y) = 1).
  { rewrite <- exp_plus. replace (y + - y) with 0 by ring. apply exp_0. }
  rewrite He in H.
  assert (H' : exp y * (1 - y) <= (1 + y) * exp (- y)).
  { apply Rmult_le_reg_l with (exp y); [exact Ha|].
    replace (exp y * ((1 + y) * exp (- y))) with ((1 + y) * (exp y * exp (- y)))
      by ring.
    rewrite Hi. lra. }
  lra.
Qed.

Lemma tanh_abs_le (y : R) : Rabs (tanh y) <= Rabs y.
Proof.
  destruct (Rle_dec 0 y) as [Hy|Hy].
  - rewrite (Rabs_right y) by lra.
    pose proof (tanh_le_id y Hy). pose proof (tanh_le 0 y Hy) as H0.
    rewrite tanh_0 in H0. rewrite Rabs_right; lra.
  - rewrite (Rabs_left y) by lra.
    pose proof (tanh_le_id (- y) ltac:(lra)) as H.
    rewrite tanh_opp in H.
    pose proof (tanh_le y 0 ltac:(lra)) as H0. rewrite tanh_0 in H0.
    destruct (Req_dec (tanh y) 0) as [->|Hne]; [rewrite Rabs_R0; lra|].
    rewrite Rabs_left; lra.
Qed.

(** The saturator never makes a sample larger, and it is odd. *)
Lemma soft_saturation_le_abs (input drive : R) :
  Rabs (soft_saturation input drive) <= Rabs input.
Proof.
  unfold soft_saturation. destruct (Rle_dec drive 0) as [_|Hd]; [lra|].
  assert (Hp : 0 < drive) by lra.
  unfold Rdiv. rewrite Rabs_mult, (Rabs_right (/ drive))
    by (left; apply Rinv_0_lt_compat; exact Hp).
  pose proof (tanh_abs_le (input * drive)) as H.
  rewrite Rabs_mult, (Rabs_right drive) in H by lra.
  apply Rmult_le_reg_r with drive; [exact Hp|].
  rewrite Rmult_assoc, Rinv_l by lra. lra.
Qed.

Lemma soft_saturation_opp (input drive : R) :
  soft_saturation (- input) drive = - soft_saturation input drive.
Proof.
  unfold soft_saturation. destruct (Rle_dec drive 0); [reflexivity|].
  replace (- input * drive) with (- (input * drive)) by ring.
  rewrite tanh_opp. field. lra.
Qed.

Lemma soft_saturation_0 (drive : R) : soft_saturation 0 drive = 0.
Proof.
  unfold soft_saturation. destruct (Rle_dec drive 0); [reflexivity|].
  rewrite Rmult_0_l, tanh_0. field. lra.
Qed.

Lemma denormal_fix_opp (v : R) : denormal_fix (- v) = - denormal_fix v.
Proof.
  unfold denormal_fix, fabs. rewrite Rabs_Ropp.
  destruct (Rlt_dec (Rabs v) DENORMAL_THRESHOLD); [ring|reflexivity].
Qed.

Lemma ssm2044_perform_sample_rest (x : t_ssm2044) (fr : t_frame) :
  at_rest x -> audio_in fr = 0 ->
  (perform_sample x fr).1 = 0 /\ at_rest (perform_sample x fr).2.
Proof.
  intros (H1 & H2 & H3 & H4 & H5) Hin.
  unfold perform_sample, ssm2044_process_sample, compute_filter_coefficients.
  cbv zeta.
  cbn [fst snd set_coefficients set_states state1 state2 state3 state4
       feedback_sample g k character_mode warmth_amount self_oscillation].
  rewrite H1, H2, H3, H4, H5, Hin, Rmult_0_l, !soft_saturation_0.
  set (gg := CLAMP _ 0 (99 / 100)).
  set (ak := if truthy (self_oscillation x) then _ else _).
  unfold at_rest.
  cbn [fst snd set_states state1 state2 state3 state4 feedback_sample].
  repeat rewrite ?Rminus_0_r, ?Rmult_0_r, ?Rplus_0_l, ?denormal_fix_0.
  repeat split; reflexivity.
Qed.

(** X22.  Silence in, silence out: a filter with no signal in it, fed samples of
    zero, puts out zeros and stays at rest, for any cutoff, resonance and
    gain inputs and any attribute setting (the warmth 0 included). *)
Theorem ssm2044_silence_in_silence_out (x : t_ssm2044) (ins : list t_frame) :
  at_rest x -> Forall (fun fr => audio_in fr = 0) ins ->
  (ssm2044_perform64 x ins).1 = replicate (length ins) 0 /\
  at_rest (ssm2044_perform64 x ins).2.
Proof.
  intros Hx Hall. revert x Hx.
  induction Hall as [|fr ins Hfr _ IH]; intros x Hx.
  - cbn. auto.
  - cbn [ssm2044_perform64].
    destruct (ssm2044_perform_sample_rest x fr Hx Hfr) as [Ho Hx1].
    destruct (perform_sample x fr) as [o x1]. cbn [fst snd] in *.
    destruct (IH x1 Hx1) as [Hout Hx2].
    destruct (ssm2044_perform64 x1 ins) as [out x2]. cbn [fst snd] in *.
    subst o. rewrite Hout. auto.
Qed.

(** The filter of the unbounded run (warmth 0, resonance 0.5), fed two
    frames of silence with moving controls. *)
Lemma ssm2044_silence_in_silence_out_witness :
  let ins := [mk_frame 0 100 4 4; mk_frame 0 20000 (1 / 2) 0] in
  (ssm2044_perform64 cold_instance ins).1 = replicate (length ins) 0 /\
  at_rest (ssm2044_perform64 cold_instance ins).2.
Proof.
  apply (ssm2044_silence_in_silence_out cold_instance
           [mk_frame 0 100 4 4; mk_frame 0 20000 (1 / 2) 0]).
  - repeat split; reflexivity.
  - repeat constructor.
Defined.

Lemma ssm2044_perform_sample_negate (x : t_ssm2044) (fr : t_frame) :
  perform_sample (negate x) (negate_audio fr) =
  (- (perform_sample x fr).1, negate (perform_sample x fr).2).
Proof.
  unfold perform_sample, ssm2044_process_sample, compute_filter_coefficients,
    negate, negate_audio.
  cbv zeta.
  cbn [fst snd set_coefficients set_states state1 state2 state3 state4
       feedback_sample g k character_mode warmth_amount self_oscillation
       sr sr_inv cutoff_float resonance_float gain_float cutoff_has_signal
       resonance_has_signal gain_has_signal resonance_compensation
       oversample_factor audio_in cutoff_in resonance_in gain_in].
  set (gg := CLAMP _ 0 (99 / 100)).
  set (gain := CLAMP _ 0 4).
  set (da := if (character_mode x =? 0)%Z then _ else _).
  set (ak := if truthy (self_oscillation x) then _ else _).
  replace (- audio_in fr * gain) with (- (audio_in fr * gain)) by ring.
  rewrite !soft_saturation_opp.
  set (si := soft_saturation (audio_in fr * gain) da).
  set (sf := soft_saturation (feedback_sample x) _).
  set (s1 := state1 x + gg * (si + ak * sf - state1 x)).
  set (s2 := state2 x + gg * (s1 - state2 x)).
  set (s3 := state3 x + gg * (s2 - state3 x)).
  set (s4 := state4 x + gg * (s3 - state4 x)).
  replace (- state1 x + gg * (- si + ak * - sf - - state1 x)) with (- s1)
    by (unfold s1; ring).
  replace (- state2 x + gg * (- s1 - - state2 x)) with (- s2)
    by (unfold s2; ring).
  replace (- state3 x + gg * (- s2 - - state3 x)) with (- s3)
    by (unfold s3; ring).
  replace (- state4 x + gg * (- s3 - - state4 x)) with (- s4)
    by (unfold s4; ring).
  rewrite !denormal_fix_opp. reflexivity.
Qed.

(** X23.  The filter is odd.  Turning the sign of the input sequence and of the
    memory of the filter turns the sign of every output sample and of the
    memory it ends with, for any control inputs and attributes: the filter
    adds no offset and treats the two polarities alike. *)
Theorem ssm2044_odd_symmetry (ins : list t_frame) (x : t_ssm2044) :
  ssm2044_perform64 (negate x) (negate_audio <$> ins) =
  (Ropp <$> (ssm2044_perform64 x ins).1, negate (ssm2044_perform64 x ins).2).
Proof.
  revert x. induction ins as [|fr ins IH]; intros x.
  - reflexivity.
  - cbn [fmap list_fmap ssm2044_perform64].
    rewrite ssm2044_perform_sample_negate.
    destruct (perform_sample x fr) as [o x1]. cbn [fst snd].
    change (list_fmap _ _ negate_audio ins) with (negate_audio <$> ins).
    rewrite IH.
    destruct (ssm2044_perform64 x1 ins) as [out x2]. reflexivity.
Qed.

Lemma ssm2044_perform_sample_low (x : t_ssm2044) (fr : t_frame) (B : R) :
  resonance_used x fr <= 1 / 5 -> 20 / 3 <= B ->
  Rabs (state1 x) <= B -> Rabs (state2 x) <= B ->
  Rabs (state3 x) <= B -> Rabs (state4 x) <= B ->
  Rabs (feedback_sample x) <= B ->
  let r := perform_sample x fr in
  Rabs r.1 <= B /\
  resonance_has_signal r.2 = resonance_has_signal x /\
  resonance_float r.2 = resonance_float x /\
  Rabs (state1 r.2) <= B /\ Rabs (state2 r.2) <= B /\
  Rabs (state3 r.2) <= B /\ Rabs (state4 r.2) <= B /\
  Rabs (feedback_sample r.2) <= B.
Proof.
  intros Hlow HB H1 H2 H3 H4 H5. unfold resonance_used in Hlow.
  unfold perform_sample, ssm2044_process_sample.
  set (cutoff := CLAMP _ 20 20000).
  set (res := if truthy (resonance_has_signal x) then _ else _) in *.
  set (resonance := CLAMP res 0 MAX_RESONANCE).
  set (gain := CLAMP _ 0 4).
  assert (Hres : 0 <= resonance <= 1 / 5).
  { unfold resonance, MAX_RESONANCE, CLAMP.
    destruct (Rlt_dec 0 res); [destruct (Rlt_dec res 4)|]; lra. }
  assert (Hres4 : 0 <= resonance <= 4) by lra.
  destruct (compute_filter_coefficients_bounds x cutoff resonance Hres4)
    as (Hg & _ & E1 & E2 & E3 & E4 & Efb & Ew & Ec & Eso).
  assert (Hk : 0 <= k (compute_filter_coefficients x cutoff resonance)
               <= 8 / 10).
  { unfold compute_filter_coefficients. cbn [k set_coefficients].
    unfold RESONANCE_SCALE.
    destruct (truthy (resonance_compensation x)); [|lra].
    assert (Hc : 0 < / (1 + resonance * (3 / 10)) <= 1).
    { split; [apply Rinv_0_lt_compat; lra|].
      apply Rle_trans with (/ 1); [apply Rinv_le_contravar; lra|].
      rewrite Rinv_1. lra. }
    unfold Rdiv. rewrite Rmult_1_l. split; nra. }
  assert (Ers : resonance_has_signal
                  (compute_filter_coefficients x cutoff resonance)
                = resonance_has_signal x) by reflexivity.
  assert (Erf : resonance_float
                  (compute_filter_coefficients x cutoff resonance)
                = resonance_float x) by reflexivity.
  set (x1 := compute_filter_coefficients x cutoff resonance) in *.
  cbn [fst snd]. rewrite E1, E2, E3, E4, Efb, Ew, Ec, Eso.
  set (drive_amount := if (character_mode x =? 0)%Z then _ else _).
  assert (Hdrive : 3 / 4 <= drive_amount).
  { unfold drive_amount, INPUT_DRIVE.
    destruct (character_mode x =? 0)%Z; [lra|].
    destruct (character_mode x =? 2)%Z; lra. }
  set (sat_in := soft_saturation (audio_in fr * gain) drive_amount).
  assert (Hin : Rabs sat_in <= 4 / 3).
  { eapply Rle_trans; [apply soft_saturation_bound; lra|].
    replace (4 / 3) with (/ (3 / 4)) by field.
    apply Rinv_le_contravar; lra. }
  set (sat_fb := soft_saturation (feedback_sample x)
                   (FEEDBACK_DRIVE * warmth_amount x)).
  assert (Hfb : Rabs sat_fb <= B).
  { eapply Rle_trans; [apply soft_saturation_le_abs|exact H5]. }
  set (actual_k := if truthy (self_oscillation x) then k x1 else k x1 * (8 / 10)).
  assert (Hak : 0 <= actual_k <= 8 / 10).
  { unfold actual_k. destruct (truthy (self_oscillation x)); lra. }
  assert (Hfbin : Rabs (sat_in + actual_k * sat_fb) <= B).
  { apply Rabs_le_both in Hin. apply Rabs_le_both in Hfb.
    apply Rabs_le. split; nra. }
  set (fb_input := sat_in + actual_k * sat_fb) in *.
  pose proof (stage_bound (state1 x) fb_input (g x1) B Hg H1 Hfbin) as S1.
  set (stage1 := state1 x + g x1 * (fb_input - state1 x)) in *.
  pose proof (stage_bound (state2 x) stage1 (g x1) B Hg H2 S1) as S2.
  set (stage2 := state2 x + g x1 * (stage1 - state2 x)) in *.
  pose proof (stage_bound (state3 x) stage2 (g x1) B Hg H3 S2) as S3.
  set (stage3 := state3 x + g x1 * (stage2 - state3 x)) in *.
  pose proof (stage_bound (state4 x) stage3 (g x1) B Hg H4 S3) as S4.
  set (stage4 := state4 x + g x1 * (stage3 - state4 x)) in *.
  cbn [set_states state1 state2 state3 state4 feedback_sample
       resonance_has_signal resonance_float].
  split; [eapply Rle_trans; [apply denormal_fix_abs|exact S4]|].
  split; [exact Ers|]. split; [exact Erf|].
  split; [eapply Rle_trans; [apply denormal_fix_abs|exact S1]|].
  split; [eapply Rle_trans; [apply denormal_fix_abs|exact S2]|].
  split; [eapply Rle_trans; [apply denormal_fix_abs|exact S3]|].
  split; [eapply Rle_trans; [apply denormal_fix_abs|exact S4]|exact S4].
Qed.

Lemma ssm2044_perform64_low (ins : list t_frame) (B : R) :
  forall x : t_ssm2044,
  Forall (fun fr => resonance_used x fr <= 1 / 5) ins -> 20 / 3 <= B ->
  Rabs (state1 x) <= B -> Rabs (state2 x) <= B ->
  Rabs (state3 x) <= B -> Rabs (state4 x) <= B ->
  Rabs (feedback_sample x) <= B ->
  Forall (fun o => Rabs o <= B) (ssm2044_perform64 x ins).1 /\
  ssm_low_bound (ssm2044_perform64 x ins).2 <= B.
Proof.
  induction ins as [|fr ins IH]; intros x Hall HB H1 H2 H3 H4 H5.
  - split; [constructor|]. cbn [ssm2044_perform64 snd]. unfold ssm_low_bound.
    repeat apply Rmax_lub; assumption.
  - cbn [ssm2044_perform64].
    apply Forall_cons in Hall as [Hfr Hall].
    destruct (ssm2044_perform_sample_low x fr B Hfr HB H1 H2 H3 H4 H5)
      as (Ho & Ers & Erf & S1 & S2 & S3 & S4 & S5).
    destruct (perform_sample x fr) as [o x1]. cbn [fst snd] in *.
    assert (Hall1 : Forall (fun fr => resonance_used x1 fr <= 1 / 5) ins).
    { unfold resonance_used in *. rewrite Ers, Erf. exact Hall. }
    destruct (IH x1 Hall1 HB S1 S2 S3 S4 S5) as [Hout Hend].
    destruct (ssm2044_perform64 x1 ins) as [out x2]. cbn [fst snd] in *.
    split; [constructor; assumption|exact Hend].
Qed.

Lemma ssm_low_bound_covers (x : t_ssm2044) :
  20 / 3 <= ssm_low_bound x /\
  Rabs (state1 x) <= ssm_low_bound x /\ Rabs (state2 x) <= ssm_low_bound x /\
  Rabs (state3 x) <= ssm_low_bound x /\ Rabs (state4 x) <= ssm_low_bound x /\
  Rabs (feedback_sample x) <= ssm_low_bound x.
Proof.
  unfold ssm_low_bound.
  set (a := Rabs (state1 x)). set (b := Rabs (state2 x)).
  set (c := Rabs (state3 x)). set (d := Rabs (state4 x)).
  set (e := Rabs (feedback_sample x)).
  pose proof (Rmax_l (Rmax (Rmax a b) (Rmax c d)) (Rmax e (20 / 3))).
  pose proof (Rmax_r (Rmax (Rmax a b) (Rmax c d)) (Rmax e (20 / 3))).
  pose proof (Rmax_l (Rmax a b) (Rmax c d)).
  pose proof (Rmax_r (Rmax a b) (Rmax c d)).
  pose proof (Rmax_l a b). pose proof (Rmax_r a b).
  pose proof (Rmax_l c d). pose proof (Rmax_r c d).
  pose proof (Rmax_l e (20 / 3)). pose proof (Rmax_r e (20 / 3)).
  repeat split; lra.
Qed.

(** X24.  At a resonance of 0.2 or less the filter is bounded whatever the
    warmth, the warmth 0 included: for every input sequence of any size,
    every cutoff, gain and character, every output sample is within the
    largest magnitude among the memory the filter starts from and 20/3, and
    so is the memory it ends with. *)
Theorem ssm2044_bounded_low_resonance (x : t_ssm2044) (ins : list t_frame) :
  Forall (fun fr => resonance_used x fr <= 1 / 5) ins ->
  Forall (fun o => Rabs o <= ssm_low_bound x) (ssm2044_perform64 x ins).1 /\
  ssm_low_bound (ssm2044_perform64 x ins).2 <= ssm_low_bound x.
Proof.
  intros Hall.
  destruct (ssm_low_bound_covers x) as (HB & H1 & H2 & H3 & H4 & H5).
  apply ssm2044_perform64_low; assumption.
Qed.

(** A new filter with the warmth 0 and the resonance set to 0.2 through the
    inlet as an integer 0 and then a float, fed two loud samples. *)
Lemma ssm2044_bounded_low_resonance_witness :
  let x := ssm2044_float
             (ssm2044_int (ssm2044_attr_setwarmth (ssm2044_new 44100 []) 0)
                2 0) 2 (1 / 5) in
  let ins := [mk_frame 100 0 0 0; mk_frame (-100) 0 0 0] in
  Forall (fun o => Rabs o <= ssm_low_bound x) (ssm2044_perform64 x ins).1 /\
  ssm_low_bound (ssm2044_perform64 x ins).2 <= ssm_low_bound x.
Proof.
  apply (ssm2044_bounded_low_resonance
           (ssm2044_float
              (ssm2044_int (ssm2044_attr_setwarmth (ssm2044_new 44100 []) 0)
                 2 0) 2 (1 / 5))
           [mk_frame 100 0 0 0; mk_frame (-100) 0 0 0]).
  assert (E : forall fr,
            resonance_used
              (ssm2044_float
                 (ssm2044_int
                    (ssm2044_attr_setwarmth (ssm2044_new 44100 []) 0) 2 0)
                 2 (1 / 5)) fr = 1 / 5).
  { intros fr. unfold resonance_used. cbn.
    unfold CLAMP, MAX_RESONANCE.
    destruct (Rlt_dec 0 (1 / 5)); [|lra].
    destruct (Rlt_dec (1 / 5) 4); [reflexivity|lra]. }
  apply Forall_cons. split; [rewrite E; lra|].
  apply Forall_cons. split; [rewrite E; lra|]. apply Forall_nil. exact I.
Defined.

End Ssm2044More.
